(** * json-replace-exponentials: a shallow embedding of [index.js]

    The module exports one function, [jsonReplaceExponentials], which
    rewrites every JSON number in exponential notation that occurs outside
    of a string literal.  The file embeds

    - the fragment of ECMAScript regular expressions the module relies on
      (backtracking matcher, [RegExpBuiltinExec] with the [g] and [y] flags
      and the [lastIndex] cursor, [RegExp.prototype[Symbol.replace]]);
    - the three patterns of [index.js] and the pattern literal of line 64;
    - [exponentialPartsToFixed], [exponentialToFixedReplacer] and
      [jsonReplaceExponentials] themselves;

    and then studies them in four steps:

    - [PatternFacts]: the backtracking matcher, run on the patterns, does
      what a deterministic two-state scanner does ([pattern_run],
      [exec_run], [leadingZeros_replace]);
    - [GrammarFacts]: the scanner finds a number exactly when the input has
      one after whole string literals and characters other than a quote
      ([firstMatch_iff]), and never within a literal
      ([number_outside_strings]);
    - [ConverterFacts], [ValueFacts]: the converter written out on
      character lists ([exponentialPartsToFixed_toFixed]), the shape of its
      output and where it keeps the value ([toFixed_shape],
      [toFixed_value]);
    - [MainFacts]: a call is a fold over the scanner's tokens
      ([default_run], [custom_run]); the properties of the specification
      follow.

    The last part adds the command of the package
    ([bin/json-replace-exponentials.js], module [Command]) and further
    properties of the module and of the command.

    Strings are lists of characters.  The patterns never distinguish two
    code units above [0x7F], and every length taken by the code is the
    length of a run of ASCII digits, so characters are modelled as
    [ascii]. *)

From Stdlib Require Import Ascii String.
From Stdlib Require Import List ZArith QArith Qpower Lia Bool Arith.
Import ListNotations.
Import Init.Datatypes.

Local Open Scope nat_scope.
Local Open Scope list_scope.

Definition str := list ascii.

(** String literals of the source, as character lists. *)
Definition lit (s : string) : str := list_ascii_of_string s.
Arguments lit s%_string.

(** The longest prefix of [s] whose characters satisfy [P], and what
    follows it. *)
Fixpoint takeWhile (P : ascii -> bool) (s : str) : str :=
  match s with
  | a :: tl => if P a then a :: takeWhile P tl else []
  | [] => []
  end.

Fixpoint dropWhile (P : ascii -> bool) (s : str) : str :=
  match s with
  | a :: tl => if P a then dropWhile P tl else s
  | [] => []
  end.

(** ** Completions

    A JavaScript call either returns a value or throws.  The third case,
    [Unfinished], is reported by the bounded loops of the regular
    expression model when their bound is exhausted; the totality lemmas
    below show that it never occurs for the patterns of this module. *)

Inductive Error :=
| TypeError (msg : str)
| RangeError (msg : str).

Inductive Completion (A : Type) :=
| Normal (a : A)
| Throw (e : Error)
| Unfinished.
Arguments Normal {A} a.
Arguments Throw {A} e.
Arguments Unfinished {A}.

(** * The regular expression fragment *)

Module RegExp.

(** ** Syntax *)

Inductive ClassRange :=
| Single (c : ascii)            (* one class atom *)
| Range (lo hi : ascii).        (* lo-hi *)

Inductive Node :=
| Empty
| Char (c : ascii)                                    (* a pattern character *)
| CharClass (invert : bool) (ranges : list ClassRange) (* [...] and [^...] *)
| Seq (a b : Node)                                    (* ab *)
| Disjunction (a b : Node)                            (* a|b *)
| Quantified (a : Node) (min : nat) (max : option nat) (greedy : bool)
| Group (idx : nat) (a : Node)                        (* capturing ( ) *)
| AssertStart                                         (* ^ *)
| Lookahead (a : Node).                               (* (?= ) *)

(** The usual quantifiers. *)
Definition Star (a : Node) : Node := Quantified a 0 None true.       (* a*  *)
Definition LazyStar (a : Node) : Node := Quantified a 0 None false.  (* a*? *)
Definition Plus (a : Node) : Node := Quantified a 1 None true.       (* a+  *)
Definition Opt (a : Node) : Node := Quantified a 0 (Some 1) true.    (* a?  *)
Definition Times (n : nat) (a : Node) : Node :=
  Quantified a n (Some n) true.                                      (* a{n} *)

Fixpoint Seqs (l : list Node) : Node :=
  match l with
  | [] => Empty
  | [a] => a
  | a :: l' => Seq a (Seqs l')
  end.

Definition inRange (r : ClassRange) (c : ascii) : bool :=
  match r with
  | Single a => Ascii.eqb a c
  | Range lo hi => Ascii.leb lo c && Ascii.leb c hi
  end.

Definition classMatches (invert : bool) (ranges : list ClassRange)
    (c : ascii) : bool :=
  xorb invert (existsb (fun r => inRange r c) ranges).

(** The capturing groups a node contains (cleared by a quantifier before
    each iteration). *)
Fixpoint groupsOf (r : Node) : list nat :=
  match r with
  | Empty | Char _ | CharClass _ _ | AssertStart => []
  | Seq a b | Disjunction a b => groupsOf a ++ groupsOf b
  | Quantified a _ _ _ => groupsOf a
  | Group i a => i :: groupsOf a
  | Lookahead a => groupsOf a
  end.

(** ** Match states

    A state is the part of the input not yet consumed, together with the
    captures.  [endIndex] is recovered from the length of the rest. *)

Record MatchState := mkState {
  rest : str;
  captures : list (option str)
}.

Inductive MatchResult :=
| Matched (y : MatchState)
| Failure
| OutOfFuel.

Definition Continuation := MatchState -> MatchResult.
Definition Matcher := MatchState -> Continuation -> MatchResult.

Fixpoint setNth {A} (n : nat) (v : A) (l : list A) : list A :=
  match l, n with
  | [], _ => []
  | _ :: l', 0 => v :: l'
  | a :: l', S n' => a :: setNth n' v l'
  end.

Definition clearCaptures (parens : list nat) (caps : list (option str))
    : list (option str) :=
  fold_left (fun cs i => setNth i None cs) parens caps.

(** ** The backtracking matcher (ECMA-262, 22.2.2) *)

(** [RepeatMatcher].  The recursion is on [fuel]; every recursive call
    either lowers [min] or has consumed input, so [min + length rest + 1]
    is enough. *)
Fixpoint repeatMatcher (fuel : nat) (m : Matcher) (min : nat)
    (max : option nat) (greedy : bool) (parens : list nat)
    (x : MatchState) (c : Continuation) {struct fuel} : MatchResult :=
  match fuel with
  | 0 => OutOfFuel
  | S fuel' =>
    match max with
    | Some 0 => c x
    | _ =>
      let d : Continuation := fun y =>
        if (min =? 0) && (length (rest y) =? length (rest x)) then Failure
        else repeatMatcher fuel' m (pred min) (option_map pred max)
               greedy parens y c in
      let xr := mkState (rest x) (clearCaptures parens (captures x)) in
      if negb (min =? 0) then m xr d
      else if negb greedy then
        match c x with
        | Failure => m xr d
        | z => z
        end
      else
        match m xr d with
        | Failure => c x
        | z => z
        end
    end
  end.

Section Compile.

(** The length of the whole input, which [^] compares with. *)
Variable inputLength : nat.

Fixpoint compile (r : Node) (x : MatchState) (c : Continuation)
    {struct r} : MatchResult :=
  match r with
  | Empty => c x
  | Char ch =>
    match rest x with
    | a :: tl => if Ascii.eqb ch a then c (mkState tl (captures x))
                 else Failure
    | [] => Failure
    end
  | CharClass invert ranges =>
    match rest x with
    | a :: tl => if classMatches invert ranges a
                 then c (mkState tl (captures x)) else Failure
    | [] => Failure
    end
  | Seq a b => compile a x (fun y => compile b y c)
  | Disjunction a b =>
    match compile a x c with
    | Failure => compile b x c
    | z => z
    end
  | Quantified a min max greedy =>
    repeatMatcher (min + length (rest x) + 1) (compile a) min max greedy
      (groupsOf a) x c
  | Group i a =>
    compile a x (fun y =>
      let captured := firstn (length (rest x) - length (rest y)) (rest x) in
      c (mkState (rest y) (setNth i (Some captured) (captures y))))
  | AssertStart =>
    if length (rest x) =? inputLength then c x else Failure
  | Lookahead a =>
    match compile a x Matched with
    | Matched y => c (mkState (rest x) (captures y))
    | z => z
    end
  end.

End Compile.

(** ** RegExp objects and [RegExpBuiltinExec] *)

Record RegExpObject := mkRegExp {
  pattern : Node;
  nGroups : nat;           (* number of capturing groups *)
  flagGlobal : bool;       (* g *)
  flagSticky : bool;       (* y *)
  lastIndex : nat
}.

Definition setLastIndex (R : RegExpObject) (i : nat) : RegExpObject :=
  mkRegExp (pattern R) (nGroups R) (flagGlobal R) (flagSticky R) i.

(** The result array of [exec]: [index] and the elements [0 .. nGroups]. *)
Record ExecArray := mkExec {
  index : nat;
  elements : list (option str)
}.

Inductive ExecResult :=
| ExecMatch (a : ExecArray)
| ExecNull
| ExecOutOfFuel.

Definition matchAt (R : RegExpObject) (input : str) (i : nat) : MatchResult :=
  compile (length input) (pattern R)
    (mkState (skipn i input) (repeat None (nGroups R + 1))) Matched.

(** The loop of [RegExpBuiltinExec].  [tries] counts the indices
    [i .. length input] still to be tried: it is [0] exactly when
    [i > length input]. *)
Fixpoint execLoop (R : RegExpObject) (input : str) (tries i : nat)
    : ExecResult * RegExpObject :=
  let cursor := flagGlobal R || flagSticky R in
  match tries with
  | 0 => (ExecNull, if cursor then setLastIndex R 0 else R)
  | S tries' =>
    match matchAt R input i with
    | Failure =>
      if flagSticky R then (ExecNull, setLastIndex R 0)
      else execLoop R input tries' (S i)
    | OutOfFuel => (ExecOutOfFuel, R)
    | Matched y =>
      let e := length input - length (rest y) in
      let whole := firstn (e - i) (skipn i input) in
      (ExecMatch (mkExec i (setNth 0 (Some whole) (captures y))),
       if cursor then setLastIndex R e else R)
    end
  end.

Definition RegExpBuiltinExec (R : RegExpObject) (input : str)
    : ExecResult * RegExpObject :=
  let i := if flagGlobal R || flagSticky R then lastIndex R else 0 in
  execLoop R input (length input + 1 - i) i.

(** ** [RegExp.prototype[Symbol.replace]] with a function as replace value

    The object being matched with lives in the caller's store [St]: it is
    read with [getRE] and written back with [setRE], so that the cursor it
    leaves behind is visible to later calls. *)

Section Replace.

Context {St : Type}.
Variable getRE : St -> RegExpObject.
Variable setRE : RegExpObject -> St -> St.

(** A replace function receives the result array (the match and its
    captures), its [index] and the input, and returns the replacement. *)
Definition ReplaceFunction : Type :=
  ExecArray -> str -> St -> Completion str * St.

Definition element (i : nat) (a : ExecArray) : option str :=
  nth i (elements a) None.

(** First loop of the algorithm: run [exec] until it answers null (or
    once, without [g]).  An empty match advances the cursor by one. *)
Fixpoint collectMatches (fuel : nat) (R : RegExpObject) (input : str)
    : option (list ExecArray) * RegExpObject :=
  match fuel with
  | 0 => (None, R)
  | S fuel' =>
    match RegExpBuiltinExec R input with
    | (ExecNull, R1) => (Some [], R1)
    | (ExecOutOfFuel, R1) => (None, R1)
    | (ExecMatch a, R1) =>
      if negb (flagGlobal R) then (Some [a], R1)
      else
        let R2 := match element 0 a with
                  | Some [] => setLastIndex R1 (lastIndex R1 + 1)
                  | _ => R1
                  end in
        let (results, R3) := collectMatches fuel' R2 input in
        (option_map (cons a) results, R3)
    end
  end.

(** Second loop: call the replace function for each result, in order,
    and accumulate the output. *)
Fixpoint substitute (results : list ExecArray) (input : str)
    (replaceValue : ReplaceFunction) (accumulatedResult : str)
    (nextSourcePosition : nat) (st : St) : Completion str * St :=
  match results with
  | [] => (Normal (accumulatedResult ++ skipn nextSourcePosition input), st)
  | a :: results' =>
    let matched := match element 0 a with Some m => m | None => [] end in
    let position := Nat.min (index a) (length input) in
    match replaceValue a input st with
    | (Normal replacement, st1) =>
      if nextSourcePosition <=? position then
        substitute results' input replaceValue
          (accumulatedResult
             ++ firstn (position - nextSourcePosition)
                  (skipn nextSourcePosition input)
             ++ replacement)
          (position + length matched) st1
      else
        substitute results' input replaceValue accumulatedResult
          nextSourcePosition st1
    | (Throw e, st1) => (Throw e, st1)
    | (Unfinished, st1) => (Unfinished, st1)
    end
  end.

Definition RegExpReplace (input : str) (replaceValue : ReplaceFunction)
    (st : St) : Completion str * St :=
  let R := getRE st in
  let R0 := if flagGlobal R then setLastIndex R 0 else R in
  match collectMatches (length input + 2) R0 input with
  | (Some results, R1) =>
    substitute results input replaceValue [] 0 (setRE R1 st)
  | (None, R1) => (Unfinished, setRE R1 st)
  end.

(** [String.prototype.replace] and [String.prototype.replaceAll] called
    with a RegExp: the latter insists on the [g] flag. *)
Definition String_replace (input : str) (replaceValue : ReplaceFunction)
    (st : St) : Completion str * St :=
  RegExpReplace input replaceValue st.

Definition String_replaceAll (input : str) (replaceValue : ReplaceFunction)
    (st : St) : Completion str * St :=
  if flagGlobal (getRE st) then RegExpReplace input replaceValue st
  else (Throw (TypeError (lit "replaceAll must be called with a global RegExp")), st).

End Replace.

End RegExp.

Import RegExp.

(** * [index.js] *)

(** ** String primitives used by the module *)

(** [ToIntegerOrInfinity] followed by the clamping of [String.prototype.slice]:
    a negative index counts from the end. *)
Definition relativeIndex (len : nat) (i : Z) : nat :=
  if (i <? 0)%Z then Z.to_nat (Z.max (Z.of_nat len + i) 0)
  else Z.to_nat (Z.min i (Z.of_nat len)).

(** [s.slice(start, end)]; [end] omitted is [None]. *)
Definition slice (s : str) (start : Z) (end_ : option Z) : str :=
  let len := length s in
  let from := relativeIndex len start in
  let to := match end_ with
            | Some e => relativeIndex len e
            | None => len
            end in
  firstn (to - from) (skipn from s).

(** [s.repeat(count)] throws on a negative count. *)
Definition String_repeat (s : str) (count : Z) : Completion str :=
  if (count <? 0)%Z then Throw (RangeError (lit "Invalid count value"))
  else Normal (concat (repeat s (Z.to_nat count))).

Definition bind {A B} (c : Completion A) (k : A -> Completion B)
    : Completion B :=
  match c with
  | Normal a => k a
  | Throw e => Throw e
  | Unfinished => Unfinished
  end.

Notation "x <- c ;; k" := (bind c (fun x => k))
  (at level 61, c at next level, right associativity).

Definition isDigit (c : ascii) : bool :=
  Ascii.leb "0" c && Ascii.leb c "9".

Fixpoint digitsValue (acc : Z) (s : str) : Z :=
  match s with
  | [] => acc
  | c :: tl => digitsValue (10 * acc + Z.of_nat (nat_of_ascii c - 48))%Z tl
  end.

(** [Number(s)] on the strings the module applies it to: an optional sign
    followed by decimal digits.  JavaScript rounds the value to a double;
    integers up to [2^53] are exact and rounding is monotone, so the value
    is exact wherever the code uses it as a count, and stays on the same
    side of [1000] and [-1000] otherwise. *)
Definition Number (s : str) : Z :=
  match s with
  | "-"%char :: tl => (- digitsValue 0 tl)%Z
  | "+"%char :: tl => digitsValue 0 tl
  | _ => digitsValue 0 s
  end.

(** ** The patterns *)

Definition dquote : ascii := Ascii false true false false false true false false.

Definition backslash : ascii := "092"%char.

Definition digitClass : Node := CharClass false [Range "0" "9"].

(** Line 14.  [g] is the number the first group gets in the enclosing
    pattern. *)
Definition numberExpPattern (g : nat) : Node :=
  Seqs [ Group g (Opt (Char "-"));
         Group (g + 1) (Plus digitClass);
         Opt (Seq (Char ".") (Group (g + 2) (Plus digitClass)));
         CharClass false [Single "e"; Single "E"];
         Group (g + 3)
           (Seq (Opt (CharClass false [Single "+"; Single "-"]))
                (Plus digitClass)) ]%char.

(** Lines 21-22. *)
Definition stringPattern : Node :=
  Seqs [ Char dquote;
         Star (Disjunction
           (CharClass true [Range "000" "031"; Single backslash; Single dquote])
           (Seq (Char backslash)
              (Disjunction
                 (CharClass false
                    [Single dquote; Single backslash; Single "/"; Single "b";
                     Single "f"; Single "n"; Single "r"; Single "t"])
                 (Seq (Char "u")
                    (Times 4 (CharClass false
                       [Range "0" "9"; Range "a" "f"; Range "A" "F"]))))));
         Char dquote ]%char.

(** Lines 30-31: the prefix is group 1, the number group 2, its parts
    groups 3 to 6; the flags are [gy]. *)
Definition jsonWithNumberExpPattern : Node :=
  Seq (Group 1 (LazyStar
                  (Disjunction stringPattern
                               (CharClass true [Single dquote]))))
      (Group 2 (numberExpPattern 3)).

Definition jsonWithNumberExpRE (lastIndex : nat) : RegExpObject :=
  mkRegExp jsonWithNumberExpPattern 6 true true lastIndex.

(** The pattern literal of line 64; evaluating the literal makes a fresh
    object, without flags. *)
Definition leadingZerosRE : RegExpObject :=
  mkRegExp (Seqs [AssertStart; Plus (Char "0"); Lookahead digitClass])
           0 false false 0.

(** ** The store

    The only state of the module is the cursor of the shared RegExp object
    [jsonWithNumberExpRE]; [world] is whatever state a caller's replacer
    function works on. *)

Record Heap (W : Type) := mkHeap {
  reLastIndex : nat;      (* jsonWithNumberExpRE.lastIndex *)
  world : W
}.
Arguments mkHeap {W}.
Arguments reLastIndex {W}.
Arguments world {W}.

(** The values a caller can pass.  A function value is modelled by what a
    call with one string argument does and returns, the result being the
    string that [prefix + replacer(numExp)] appends. *)
Inductive Value (W : Type) :=
| VUndefined
| VNull
| VBoolean (b : bool)
| VNumber (n : Z)
| VString (s : str)
| VObject
| VFunction (f : str -> Heap W -> Completion str * Heap W).
Arguments VUndefined {W}.
Arguments VNull {W}.
Arguments VBoolean {W}.
Arguments VNumber {W}.
Arguments VString {W}.
Arguments VObject {W}.
Arguments VFunction {W}.

(** The [typeof] operator. *)
Definition typeof {W} (v : Value W) : str :=
  match v with
  | VUndefined => lit "undefined"
  | VNull => lit "object"
  | VBoolean _ => lit "boolean"
  | VNumber _ => lit "number"
  | VString _ => lit "string"
  | VObject => lit "object"
  | VFunction _ => lit "function"
  end.

Definition getRE {W} (h : Heap W) : RegExpObject :=
  jsonWithNumberExpRE (reLastIndex h).

Definition setRE {W} (R : RegExpObject) (h : Heap W) : Heap W :=
  mkHeap (lastIndex R) (world h).

(** The argument a replace function receives for capture [i]; the
    captures this is used for always take part in a match. *)
Definition arg (i : nat) (a : ExecArray) : str :=
  match element i a with
  | Some s => s
  | None => []
  end.

(** ** [exponentialPartsToFixed] (lines 44-85)

    The pattern literal of line 64 is matched through the same
    [String.prototype.replace]; its replace value, the empty string, is
    what every match is replaced by. *)

Definition exponentialPartsToFixed (signPart intPart fracPart : str)
    (exponent : Z) : Completion str :=
  if (exponent >=? 0)%Z then
    unsigned <-
      (if (Z.of_nat (length fracPart) <=? exponent)%Z then
         zeros <- String_repeat (lit "0")
                    (exponent - Z.of_nat (length fracPart)) ;;
         Normal (intPart ++ fracPart ++ zeros)
       else
         Normal (intPart
                   ++ slice fracPart 0 (Some exponent)
                   ++ lit "."
                   ++ slice fracPart exponent None)) ;;
    stripped <-
      fst (String_replace (fun R => R) (fun R _ => R) unsigned
             (fun _ _ R => (Normal (lit ""), R)) leadingZerosRE) ;;
    Normal (signPart ++ stripped)
  else
    let exponent := (- exponent)%Z in
    if (Z.of_nat (length intPart) >? exponent)%Z then
      Normal (signPart
                ++ slice intPart 0 (Some exponent)
                ++ lit "."
                ++ slice intPart exponent None
                ++ fracPart)
    else
      zeros <- String_repeat (lit "0")
                 (exponent - Z.of_nat (length intPart)) ;;
      Normal (signPart ++ lit "0." ++ zeros ++ intPart ++ fracPart).

(** ** [exponentialToFixedReplacer] (lines 104-122) *)

Definition exponentialToFixedReplacer
    (match_ prefix numExp signPart intPart : str) (fracPart : option str)
    (expPart : str) : Completion str :=
  let exp := Number expPart in
  if ((exp >? 1000) || (exp <? -1000))%Z then
    Throw (RangeError (numExp ++ lit " exponent exceeds maximum"))
  else
    fixed <- exponentialPartsToFixed signPart intPart
               (match fracPart with
                | Some (c :: tl) => c :: tl
                | _ => lit ""
                end) exp ;;
    Normal (prefix ++ fixed).

(** ** [jsonReplaceExponentials] (lines 138-155) *)

Section Main.

Context {W : Type}.

Definition defaultWrapReplacer : @ReplaceFunction (Heap W) :=
  fun a _ h =>
    (exponentialToFixedReplacer (arg 0 a) (arg 1 a) (arg 2 a) (arg 3 a)
       (arg 4 a) (element 5 a) (arg 6 a), h).

Definition customWrapReplacer
    (replacer : str -> Heap W -> Completion str * Heap W)
    : @ReplaceFunction (Heap W) :=
  fun a _ h =>
    let prefix := arg 1 a in
    let numExp := arg 2 a in
    match replacer numExp h with
    | (Normal r, h1) => (Normal (prefix ++ r), h1)
    | (Throw e, h1) => (Throw e, h1)
    | (Unfinished, h1) => (Unfinished, h1)
    end.

Definition jsonReplaceExponentials (json replacer : Value W) (h : Heap W)
    : Completion str * Heap W :=
  match json with
  | VString json =>
    let run wrapReplacer :=
      let h := mkHeap 0 (world h) in
      String_replaceAll getRE setRE json wrapReplacer h in
    match replacer with
    | VUndefined => run defaultWrapReplacer
    | VFunction replacer => run (customWrapReplacer replacer)
    | _ => (Throw (TypeError (lit "replacer must be a function")), h)
    end
  | _ => (Throw (TypeError (lit "json must be a string")), h)
  end.

End Main.

(** The matches the replace loop of a call collects: the matched
    exponential numbers of the specification.  In a result array, element
    [0] is the whole match, [1] the prefix, [2] the number, [3] to [6] its
    sign, integer part, fraction and exponent. *)
Definition matchesOf (json : str) : list ExecArray :=
  match fst (collectMatches (length json + 2) (jsonWithNumberExpRE 0) json)
  with
  | Some results => results
  | None => []
  end.

(** ** Writing inputs down

    In [jsonLit] an apostrophe stands for the double quote of the JSON
    text. *)
Definition jsonLit (s : string) : str :=
  map (fun c => if Ascii.eqb c "'" then dquote else c) (lit s).
Arguments jsonLit s%_string.

Definition heap0 : Heap unit := mkHeap 0 tt.

(** A call with one argument. *)
Definition convert (s : str) : Completion str :=
  fst (jsonReplaceExponentials (VString s) VUndefined heap0).

(** * The scanner as an automaton

    A deterministic reading of the pattern, in the two-state form the
    design notes describe: outside a string the scanner looks for a number
    at the current position and otherwise skips one character; a double
    quote opens a string literal, which is read to its closing quote. *)

Module Scanner.

Definition isStringChar (c : ascii) : bool :=
  negb (Ascii.leb c "031") && negb (Ascii.eqb c backslash)
  && negb (Ascii.eqb c dquote).

Definition isEscape (c : ascii) : bool :=
  existsb (Ascii.eqb c) (dquote :: backslash :: lit "/bfnrt").

Definition isHex (c : ascii) : bool :=
  isDigit c || (Ascii.leb "a" c && Ascii.leb c "f")
  || (Ascii.leb "A" c && Ascii.leb c "F").

Definition isExpMarker (c : ascii) : bool :=
  Ascii.eqb c "e" || Ascii.eqb c "E".

Definition isExpSign (c : ascii) : bool :=
  Ascii.eqb c "+" || Ascii.eqb c "-".

(** The text after an opening quote: what follows the closing quote, if
    the literal is well formed. *)
Fixpoint stringBody (s : str) : option str :=
  match s with
  | [] => None
  | a :: tl =>
    if Ascii.eqb a dquote then Some tl
    else if Ascii.eqb a backslash then
      match tl with
      | e :: tl1 =>
        if isEscape e then stringBody tl1
        else if Ascii.eqb e "u" then
          match tl1 with
          | h1 :: h2 :: h3 :: h4 :: tl2 =>
            if isHex h1 && isHex h2 && isHex h3 && isHex h4
            then stringBody tl2 else None
          | _ => None
          end
        else None
      | [] => None
      end
    else if isStringChar a then stringBody tl
    else None
  end.

(** The parts of a number in exponential notation. *)
Record NumberParts := mkParts {
  signPart : str;
  intPart : str;
  fracPart : option str;
  marker : ascii;
  expPart : str
}.

Definition numExp (p : NumberParts) : str :=
  signPart p ++ intPart p
    ++ match fracPart p with
       | Some f => "."%char :: f
       | None => []
       end
    ++ marker p :: expPart p.

(** A number at the head of [s], each part as long as possible. *)
Definition scanSign (s : str) : str * str :=
  match s with
  | "-"%char :: tl => (lit "-", tl)
  | _ => ([], s)
  end.

Definition scanDigits (s : str) : option (str * str) :=
  match takeWhile isDigit s with
  | [] => None
  | d => Some (d, dropWhile isDigit s)
  end.

Definition scanFrac (s : str) : option str * str :=
  match s with
  | "."%char :: tl =>
    match scanDigits tl with
    | Some (f, r) => (Some f, r)
    | None => (None, s)
    end
  | _ => (None, s)
  end.

Definition scanExp (s : str) : option (str * str) :=
  let (esign, s1) := match s with
                     | a :: tl => if isExpSign a then ([a], tl) else ([], s)
                     | [] => ([], s)
                     end in
  match scanDigits s1 with
  | Some (d, r) => Some (esign ++ d, r)
  | None => None
  end.

Definition scanNumber (s : str) : option (NumberParts * str) :=
  let (sign, s1) := scanSign s in
  match scanDigits s1 with
  | None => None
  | Some (int, s2) =>
    let (frac, s3) := scanFrac s2 in
    match s3 with
    | m :: s4 =>
      if isExpMarker m then
        match scanExp s4 with
        | Some (e, r) => Some (mkParts sign int frac m e, r)
        | None => None
        end
      else None
    | [] => None
    end
  end.

(** One match of the scanner: the text skipped, the number and the rest
    of the input. *)
Record Token := mkToken {
  prefix : str;
  parts : NumberParts
}.

Definition consPrefix (l : str) (r : option (Token * str))
    : option (Token * str) :=
  match r with
  | Some (t, s) => Some (mkToken (l ++ prefix t) (parts t), s)
  | None => None
  end.

Fixpoint scan (inString : bool) (s : str) : option (Token * str) :=
  if inString then
    match s with
    | [] => None
    | a :: tl =>
      if Ascii.eqb a dquote then consPrefix [a] (scan false tl)
      else if Ascii.eqb a backslash then
        match tl with
        | e :: tl1 =>
          if isEscape e then consPrefix [a; e] (scan true tl1)
          else if Ascii.eqb e "u" then
            match tl1 with
            | h1 :: h2 :: h3 :: h4 :: tl2 =>
              if isHex h1 && isHex h2 && isHex h3 && isHex h4
              then consPrefix [a; e; h1; h2; h3; h4] (scan true tl2)
              else None
            | _ => None
            end
          else None
        | [] => None
        end
      else if isStringChar a then consPrefix [a] (scan true tl)
      else None
    end
  else
    match scanNumber s with
    | Some (p, r) => Some (mkToken [] p, r)
    | None =>
      match s with
      | [] => None
      | a :: tl => consPrefix [a] (scan (Ascii.eqb a dquote) tl)
      end
    end.

Definition firstMatch (s : str) : option (Token * str) := scan false s.

(** What replacing the pattern of line 64 by the empty string amounts to:
    a leading zero goes as long as a digit follows it. *)
Fixpoint stripLeadingZeros (s : str) : str :=
  match s with
  | "0"%char :: tl =>
    match tl with
    | c :: _ => if isDigit c then stripLeadingZeros tl else s
    | [] => s
    end
  | _ => s
  end.

(** The text of a match. *)
Definition matched (t : Token) : str := prefix t ++ numExp (parts t).

(** All the matches of an input, and the text left after the last. *)
Inductive Tokens : str -> list Token -> str -> Prop :=
| Tokens_done s :
    firstMatch s = None -> Tokens s [] s
| Tokens_match s t r ts suffix :
    firstMatch s = Some (t, r) -> Tokens r ts suffix ->
    Tokens s (t :: ts) suffix.

End Scanner.

(** * The grammar the scanner implements

    The pattern strings of [index.js] cite RFC 7158: section 7 for string
    literals, section 6 for numbers with a mandatory exponent. *)

Module Grammar.

Import Scanner.

Definition digits (d : str) : Prop := d <> [] /\ forallb isDigit d = true.

(** A number in exponential notation, by its parts. *)
Definition WellFormed (p : NumberParts) : Prop :=
  (signPart p = [] \/ signPart p = lit "-")
  /\ digits (intPart p)
  /\ (forall f, fracPart p = Some f -> digits f)
  /\ isExpMarker (marker p) = true
  /\ exists es d, expPart p = es ++ d
       /\ (es = [] \/ es = lit "+" \/ es = lit "-") /\ digits d.

Definition NumberExpText (tok : str) : Prop :=
  exists p, WellFormed p /\ tok = numExp p.

(** The characters between the quotes of a string literal. *)
Inductive StringChars : str -> Prop :=
| SC_nil : StringChars []
| SC_plain c s :
    isStringChar c = true -> StringChars s -> StringChars (c :: s)
| SC_escape e s :
    isEscape e = true -> StringChars s ->
    StringChars (backslash :: e :: s)
| SC_unicode h1 h2 h3 h4 s :
    isHex h1 = true -> isHex h2 = true -> isHex h3 = true ->
    isHex h4 = true -> StringChars s ->
    StringChars (backslash :: "u"%char :: h1 :: h2 :: h3 :: h4 :: s).

Definition StringLiteral (l : str) : Prop :=
  exists b, StringChars b /\ l = dquote :: b ++ [dquote].

(** Text made of whole string literals and of characters other than the
    double quote: what may precede a position outside of any string. *)
Inductive Skippable : str -> Prop :=
| Skip_nil : Skippable []
| Skip_char c s : c <> dquote -> Skippable s -> Skippable (c :: s)
| Skip_string l s : StringLiteral l -> Skippable s -> Skippable (l ++ s).

(** Position [k] of [json] lies within a string literal. *)
Definition InString (json : str) (k : nat) : Prop :=
  exists pre l post,
    json = pre ++ l ++ post /\ Skippable pre /\ StringLiteral l
    /\ length pre <= k < length pre + length l.

(** [json] has a number in exponential notation outside of its string
    literals. *)
Definition HasExponentialOutsideStrings (json : str) : Prop :=
  exists pre tok post,
    json = pre ++ tok ++ post /\ Skippable pre /\ NumberExpText tok.

End Grammar.

(** * The converter, as a function on character lists

    [toFixed] is [exponentialPartsToFixed] with the string primitives
    written out: [slice] as [firstn] and [skipn], [repeat] as a run of
    zeros, the replacement of line 64 as [stripLeadingZeros]. *)

Module Converter.

Import Scanner.

Definition zeros (n : nat) : str := repeat "0"%char n.

Definition toFixed (signPart intPart fracPart : str) (exponent : Z) : str :=
  if (exponent >=? 0)%Z then
    let e := Z.to_nat exponent in
    signPart ++
    stripLeadingZeros
      (if length fracPart <=? e
       then intPart ++ fracPart ++ zeros (e - length fracPart)
       else intPart ++ firstn e fracPart ++ lit "." ++ skipn e fracPart)
  else
    let e := Z.to_nat (- exponent) in
    if e <? length intPart
    then signPart ++ firstn e intPart ++ lit "." ++ skipn e intPart ++ fracPart
    else signPart ++ lit "0." ++ zeros (e - length intPart)
           ++ intPart ++ fracPart.

(** The fraction a replacer is given: [fracPart || '']. *)
Definition fracOrEmpty (fracPart : option str) : str :=
  match fracPart with
  | Some (c :: tl) => c :: tl
  | _ => []
  end.

(** The digits before the decimal point of an unsigned fixed-point
    text. *)
Definition integerPart (body : str) : str :=
  takeWhile (fun c => negb (Ascii.eqb c ".")) body.

(** No redundant leading zero: a lone zero, or a first digit other than
    zero. *)
Definition noLeadingZeros (d : str) : Prop :=
  d = lit "0" \/ exists c tl, d = c :: tl /\ c <> "0"%char.

Definition applySign (sign : str) (q : Q) : Q :=
  match sign with
  | [] => q
  | _ => Qopp q
  end.

(** The digits of an optional fraction. *)
Definition fracDigits (frac : option str) : str :=
  match frac with
  | Some f => f
  | None => []
  end.

(** The value of a decimal text, with or without an exponent, as a
    rational: [-?digits(.digits)?([eE][+-]?digits)?]. *)
Definition decimalValue (s : str) : option Q :=
  let (sign, s1) := scanSign s in
  match scanDigits s1 with
  | None => None
  | Some (int, s2) =>
    let (frac, s3) := scanFrac s2 in
    let f := fracDigits frac in
    let signed := applySign sign (inject_Z (digitsValue 0 (int ++ f))) in
    let scale := (- Z.of_nat (length f))%Z in
    match s3 with
    | [] => Some (signed * Qpower (inject_Z 10) scale)%Q
    | m :: s4 =>
      if isExpMarker m then
        match scanExp s4 with
        | Some (e, []) =>
          Some (signed * Qpower (inject_Z 10) (scale + Number e))%Q
        | _ => None
        end
      else None
    end
  end.

End Converter.

(** * Auxiliary definitions

    The pieces of the patterns, the continuations and the folds over tokens
    that the statements below are phrased with. *)

Module Aux.

Import Scanner Grammar Converter.

(** A matcher that consumes exactly one character satisfying [P]. *)
Definition singleChar (P : ascii -> bool) (m : Matcher) : Prop :=
  forall x c,
    m x c = match rest x with
            | a :: tl => if P a then c (mkState tl (captures x)) else Failure
            | [] => Failure
            end.

(** A matcher that runs out of fuel only if its continuation does, on a
    state no longer than the one it started from. *)
Definition finishes (m : Matcher) : Prop :=
  forall x c,
    (forall y, length (rest y) <= length (rest x) -> c y <> OutOfFuel) ->
    m x c <> OutOfFuel.

(** One item of a string literal: what the starred group of
    [stringPattern] matches. *)
Definition stringItem : Node :=
  Disjunction
    (CharClass true [Range "000" "031"; Single backslash; Single dquote])
    (Seq (Char backslash)
       (Disjunction
          (CharClass false
             [Single dquote; Single backslash; Single "/"; Single "b";
              Single "f"; Single "n"; Single "r"; Single "t"])
          (Seq (Char "u")
             (Times 4 (CharClass false
                [Range "0" "9"; Range "a" "f"; Range "A" "F"]))))).

(** The exponent of [numberExpPattern]: the content of its last group. *)
Definition expNode : Node :=
  Seq (Opt (CharClass false [Single "+"; Single "-"])) (Plus digitClass).

(** What the lazy prefix of [jsonWithNumberExpRE] repeats. *)
Definition skipNode : Node :=
  Disjunction stringPattern (CharClass true [Single dquote]).

(** The captures a number leaves in groups [g .. g+3]. *)
Definition numberCaptures (g : nat) (p : NumberParts)
    (caps : list (option str)) : list (option str) :=
  let c1 := setNth g (Some (signPart p)) caps in
  let c2 := setNth (g + 1) (Some (intPart p)) c1 in
  let c3 := match fracPart p with
            | Some f => setNth (g + 2) (Some f) (setNth (g + 2) None c2)
            | None => c2
            end in
  setNth (g + 3) (Some (expPart p)) c3.

(** The captures of a match: group 1 is the prefix, group 2 the number,
    groups 3 to 6 its parts. *)
Definition finalCaptures (t : Token) (caps : list (option str))
    : list (option str) :=
  setNth 2 (Some (numExp (parts t)))
    (numberCaptures 3 (parts t) (setNth 1 (Some (prefix t)) caps)).

(** What follows the lazy prefix, [s0] being where the prefix began. *)
Definition numberCont (n : nat) (s0 : str) : Continuation :=
  fun y =>
    compile n (Group 2 (numberExpPattern 3))
      (mkState (rest y)
         (setNth 1 (Some (firstn (length s0 - length (rest y)) s0))
            (captures y)))
      Matched.

(** The positions the lazy prefix visits, in the order it visits them: at
    each one the continuation [K] is tried first; a quote is passed only
    together with its whole literal, any other character alone. *)
Fixpoint pathSearch (K : Continuation) (caps : list (option str))
    (inString : bool) (s : str) : MatchResult :=
  if inString then
    match s with
    | [] => Failure
    | a :: tl =>
      if Ascii.eqb a dquote then pathSearch K caps false tl
      else if Ascii.eqb a backslash then
        match tl with
        | e :: tl1 =>
          if isEscape e then pathSearch K caps true tl1
          else if Ascii.eqb e "u" then
            match tl1 with
            | h1 :: h2 :: h3 :: h4 :: tl2 =>
              if isHex h1 && isHex h2 && isHex h3 && isHex h4
              then pathSearch K caps true tl2 else Failure
            | _ => Failure
            end
          else Failure
        | [] => Failure
        end
      else if isStringChar a then pathSearch K caps true tl
      else Failure
    end
  else
    match K (mkState s caps) with
    | Failure =>
      match s with
      | [] => Failure
      | a :: tl => pathSearch K caps (Ascii.eqb a dquote) tl
      end
    | z => z
    end.

(** The lookahead that ends the pattern of line 64. *)
Definition lookaheadDigit (n : nat) : Continuation :=
  fun y => compile n (Lookahead digitClass) y Matched.

(** The result array of a match. *)
Definition tokenElements (t : Token) : list (option str) :=
  [ Some (matched t); Some (prefix t); Some (numExp (parts t));
    Some (signPart (parts t)); Some (intPart (parts t));
    fracPart (parts t); Some (expPart (parts t)) ].

(** The result array of a match found at index [i]. *)
Definition toExec (i : nat) (t : Token) : ExecArray :=
  mkExec i (tokenElements t).

(** The result arrays of consecutive matches, the first at index [i]. *)
Fixpoint tokenResults (i : nat) (ts : list Token) : list ExecArray :=
  match ts with
  | [] => []
  | t :: ts' => toExec i t :: tokenResults (i + length (matched t)) ts'
  end.

(** Calling the replace function on the tokens in order, the first
    being at index [i]; the replacements are concatenated. *)
Fixpoint runTokens {St : Type} (rv : @ReplaceFunction St) (input : str)
    (i : nat) (ts : list Token) (st : St)
    : Completion str * St :=
  match ts with
  | [] => (Normal [], st)
  | t :: ts' =>
    match rv (toExec i t) input st with
    | (Normal r, st1) =>
      let (c, st2) := runTokens rv input (i + length (matched t)) ts' st1 in
      (rs <- c ;; Normal (r ++ rs), st2)
    | (Throw e, st1) => (Throw e, st1)
    | (Unfinished, st1) => (Unfinished, st1)
    end
  end.

(** A fixed-point text: digits, and possibly a point and more digits. *)
Definition fractionText (fp : str) : Prop :=
  fp = [] \/ exists f, fp = "."%char :: f /\ digits f.

(** What the default replacer returns for a token. *)
Definition convertToken (t : Token) : Completion str :=
  let p := parts t in
  if ((Number (expPart p) >? 1000) || (Number (expPart p) <? -1000))%Z
  then Throw (RangeError (numExp p ++ lit " exponent exceeds maximum"))
  else Normal (prefix t ++ toFixed (signPart p) (intPart p)
                             (fracOrEmpty (fracPart p))
                             (Number (expPart p))).

(** The default replacements of the tokens, concatenated; the first
    failure ends the conversion. *)
Fixpoint convertTokens (ts : list Token) : Completion str :=
  match ts with
  | [] => Normal []
  | t :: ts' =>
    r <- convertToken t ;; rs <- convertTokens ts' ;; Normal (r ++ rs)
  end.

(** Calling a replacer on the numbers of the tokens, in order. *)
Fixpoint callReplacer {W : Type}
    (replacer : str -> Heap W -> Completion str * Heap W)
    (ts : list Token) (h : Heap W) : Completion str * Heap W :=
  match ts with
  | [] => (Normal [], h)
  | t :: ts' =>
    match replacer (numExp (parts t)) h with
    | (Normal r, h1) =>
      let (c, h2) := callReplacer replacer ts' h1 in
      (rs <- c ;; Normal ((prefix t ++ r) ++ rs), h2)
    | (Throw e, h1) => (Throw e, h1)
    | (Unfinished, h1) => (Unfinished, h1)
    end
  end.

End Aux.

(** ** Vocabulary of the properties *)

(** The exponent of a match lies beyond the bound of the default path. *)
Definition exponentExceeds (a : ExecArray) : Prop :=
  (Number (arg 6 a) > 1000 \/ Number (arg 6 a) < -1000)%Z.

(** A replacer without effects, computing [g]. *)
Definition pureReplacer {W} (g : str -> str) : Value W :=
  VFunction (fun numExp h => (Normal (g numExp), h)).

(** A replacer that computes [g] and records its argument in the world. *)
Definition loggingReplacer (g : str -> str) : Value (list str) :=
  VFunction (fun numExp h =>
    (Normal (g numExp), mkHeap (reLastIndex h) (world h ++ [numExp]))).

(** A replacer called once for each match of a list, in order, with the
    number of the match; what it returns follows the prefix of the match;
    the first failure ends the calls. *)
Fixpoint callOnMatches {W : Type}
    (replacer : str -> Heap W -> Completion str * Heap W)
    (ms : list ExecArray) (h : Heap W) : Completion str * Heap W :=
  match ms with
  | [] => (Normal [], h)
  | a :: ms' =>
    match replacer (arg 2 a) h with
    | (Normal r, h1) =>
      let (c, h2) := callOnMatches replacer ms' h1 in
      (rs <- c ;; Normal ((arg 1 a ++ r) ++ rs), h2)
    | (Throw e, h1) => (Throw e, h1)
    | (Unfinished, h1) => (Unfinished, h1)
    end
  end.

(** The replacer of the test-suite that fails when it is called. *)
Definition neverCalled {W} : Value W :=
  VFunction (fun _ h => (Throw (TypeError (lit "Should not be called")), h)).

(** The output made of the prefixes of the matches, each followed by a
    replacement, and of the text after the last match. *)
Definition spliced (ms : list ExecArray) (reps : list str) (suffix : str)
    : str :=
  concat (map (fun ar => arg 1 (fst ar) ++ snd ar) (combine ms reps))
    ++ suffix.

(** What the default replacer is called with for a match. *)
Definition defaultReplacement (a : ExecArray) : Completion str :=
  exponentialToFixedReplacer (arg 0 a) (arg 1 a) (arg 2 a) (arg 3 a)
    (arg 4 a) (element 5 a) (arg 6 a).

(** ** The expectations of the repository's tests *)

Definition conversionTests : list (string * string) :=
  [ ("0e0", "0"); ("0e+0", "0"); ("0e-0", "0"); ("0.01e2", "1");
    ("0.1e2", "10"); ("0.1e1", "1"); ("0.1e0", "0.1"); ("0.1e-0", "0.1");
    ("0.1e-1", "0.01"); ("1e0", "1"); ("1e-0", "1"); ("1e1", "10");
    ("1e+1", "10"); ("1e-1", "0.1"); ("1.0e0", "1.0"); ("1.0e-0", "1.0");
    ("1.0e1", "10"); ("1.0e+1", "10"); ("1.0e-1", "0.10"); ("10e0", "10");
    ("10e1", "100"); ("10e-1", "1.0"); ("10e-2", "0.10");
    ("10.2e2", "1020"); ("10.2e1", "102"); ("10.2e0", "10.2");
    ("10.2e-0", "10.2"); ("10.2e-1", "1.02"); ("10.2e-2", "0.102");
    ("10.2e-3", "0.0102"); ("1.2e2", "120"); ("1.2e1", "12");
    ("1.2e0", "1.2"); ("1.2e-0", "1.2"); ("1.2e-1", "0.12");
    ("1.2e-2", "0.012"); ("1e010", "10000000000");
    ("1e+010", "10000000000"); ("1e-010", "0.0000000001");
    ("0.1234567890123456789e1", "1.234567890123456789");
    ("0.1234567890123456789e0", "0.1234567890123456789");
    ("0.1234567890123456789e-1", "0.01234567890123456789") ]%string.

Definition documentTests : list (string * string) :=
  [ ("[1e1,1e-1,1e2]", "[10,0.1,100]");
    ("{'a':1e2}", "{'a':100}");
    ("[1e1,'1e0',1e-1,1e2]", "[10,'1e0',0.1,100]");
    ("[1e1,'1e1\\1e1',1e-1,'\'1e1\\\'1e1',1e2]",
     "[10,'1e1\\1e1',0.1,'\'1e1\\\'1e1',100]");
    ("['1e1',1e1]", "['1e1',10]");
    ("{'1e1':1e1}", "{'1e1':10}") ]%string.

Definition whitespaceTest : str * str :=
  (lit "[ 1e1 ,1e-1 ," ++ ["010"%char] ++ lit "1e2" ++ ["010"%char] ++ lit "]",
   lit "[ 10 ,0.1 ," ++ ["010"%char] ++ lit "100" ++ ["010"%char] ++ lit "]").

Definition unmodifiedTests : list string :=
  [ "1"; "1.2"; "'1e2'"; "['1e2']"; "{'1e2':'1e2'}"; "'\'1e2,'";
    "'\\\'1e2,'" ]%string.

(** The replacer of the test that counts its calls: it returns the count
    as a digit. *)
Definition countingReplacer : Value nat :=
  VFunction (fun _ h =>
    let n := S (world h) in
    (Normal [ascii_of_nat (48 + n)], mkHeap (reLastIndex h) n)).

(** ** Further vocabulary *)

(** Whether a text is made of whole string literals and of characters
    other than the double quote; [fuel] bounds the number of steps. *)
Fixpoint wholeLiterals (fuel : nat) (s : str) : bool :=
  match fuel with
  | 0 => false
  | S fuel' =>
    match s with
    | [] => true
    | a :: tl =>
      if Ascii.eqb a dquote then
        match Scanner.stringBody tl with
        | Some r => wholeLiterals fuel' r
        | None => false
        end
      else wholeLiterals fuel' tl
    end
  end.

(** A character that can belong to a number in exponential notation. *)
Definition numberChar (c : ascii) : bool :=
  isDigit c || Scanner.isExpMarker c || Scanner.isExpSign c
  || Ascii.eqb c ".".

(** The tokens of a text that follows [skipped], text without a match:
    the first token takes it into its prefix. *)
Definition afterSkipped (skipped : str) (ts : list Scanner.Token)
    : list Scanner.Token :=
  match ts with
  | [] => []
  | t :: ts' =>
    Scanner.mkToken (skipped ++ Scanner.prefix t) (Scanner.parts t) :: ts'
  end.

(** * The command ([bin/json-replace-exponentials.js])

    [jsonReplaceExponentialsCmd(args, options, callback)] reads JSON from
    [options.stdin] and writes the converted text to [options.stdout].
    Its parameters are taken with the types its documentation gives them
    (an array of strings, three streams, a function), for which the checks
    of lines 42-60 pass.  What the command does to the streams and to the
    callback is recorded as a list of effects; what the streams do to the
    command is a list of events, each delivered to the listeners that are
    registered when it occurs; an event that finds no listener changes
    nothing.  A chunk of input is the text it decodes to, and an error is
    the text that the template literals of lines 88 and 97 print for
    it. *)

Module Command.

Inductive Effect :=
| StdoutWrite (chunk : str)      (* stdout.write(chunk) has returned *)
| StderrWrite (chunk : str)      (* stderr.write(chunk) *)
| Callback (exitCode : Z)        (* callback(exitCode) *)
| NextTick (exitCode : Z).       (* process.nextTick(callback, exitCode) *)

(** The listeners of lines 92-115 and what they share.  A listener set
    with [once] is removed when it is called. *)
Record Listeners := mkListeners {
  stdoutOnceError : bool;   (* line 92 *)
  stdinOnceError : bool;    (* line 96 *)
  stdinOnceEnd : bool;      (* line 101 *)
  jsonData : list str;      (* line 94, filled by the listener of line 100 *)
  writeCallback : bool;     (* the function of line 107 is held by stdout *)
  store : Heap unit         (* the store of [index.js] *)
}.

Inductive Event :=
| StdinError (err : str)                 (* stdin emits 'error' *)
| StdinData (data : str)                 (* stdin emits 'data' *)
| StdinEnd (writeThrows : option str)    (* stdin emits 'end'; whether the
                                            call of stdout.write then
                                            throws, and what *)
| StdoutError (err : str)                (* stdout emits 'error' *)
| WriteDone (err : option str).          (* stdout calls the function it
                                            was given at line 107 *)

Definition newline : str := ["010"%char].

(** Line 62. *)
Definition usage : str :=
  lit "Usage: json-replace-exponentials <input.json >output.json" ++ newline.

Definition isOneOf (options : list string) (a : str) : bool :=
  existsb (fun o => if list_eq_dec ascii_dec a (lit o) then true else false)
    options.

(** Lines 87-90. *)
Definition onWriteError (err : str) : list Effect :=
  [ StderrWrite (lit "Error writing to stdout: " ++ err ++ newline);
    Callback 1 ].

Section Package.

(** [package.json] is not among the sources: its two fields are
    parameters. *)
Variable packageName packageVersion : str.

(** Lines 62-115: the effects of the call itself and, when the command
    goes on to read its input, the listeners it has registered. *)
Definition jsonReplaceExponentialsCmd (args : list str) (h : Heap unit)
    : list Effect * option Listeners :=
  let byOption :=
    match nth_error args 2 with
    | Some a =>
      if isOneOf ["-h"; "-?"; "--help"]%string a then
        Some [StdoutWrite usage; NextTick 0]
      else if isOneOf ["-V"; "--version"]%string a then
        Some [StdoutWrite (packageName ++ lit " " ++ packageVersion
                             ++ newline);
              NextTick 0]
      else None
    | None => None
    end in
  match byOption with
  | Some effects => (effects, None)
  | None =>
    if 2 <? length args then
      ([StderrWrite (lit "Error: Unexpected arguments." ++ newline ++ usage);
        NextTick 1], None)
    else
      ([], Some (mkListeners true true true [] false h))
  end.

End Package.

(** What the listeners do when an event occurs.  An exception thrown by
    a listener is not caught by the command. *)
Definition handle (l : Listeners) (ev : Event)
    : Completion (list Effect) * Listeners :=
  match ev with
  | StdinError err =>
    if stdinOnceError l then
      (Normal [StderrWrite (lit "Error reading from stdin: " ++ err
                              ++ newline);
               Callback 1],
       mkListeners (stdoutOnceError l) false (stdinOnceEnd l) (jsonData l)
         (writeCallback l) (store l))
    else (Normal [], l)
  | StdinData data =>
    (Normal [],
     mkListeners (stdoutOnceError l) (stdinOnceError l) (stdinOnceEnd l)
       (jsonData l ++ [data]) (writeCallback l) (store l))
  | StdinEnd writeThrows =>
    if stdinOnceEnd l then
      let oldJson := concat (jsonData l) in
      let (newJson, h) :=
        jsonReplaceExponentials (VString oldJson) VUndefined (store l) in
      let ended callbackHeld :=
        mkListeners (stdoutOnceError l) (stdinOnceError l) false (jsonData l)
          callbackHeld h in
      match newJson with
      | Normal newJson =>
        match writeThrows with
        | None => (Normal [StdoutWrite newJson], ended true)
        | Some errWrite => (Normal (onWriteError errWrite), ended false)
        end
      | Throw e => (Throw e, ended false)
      | Unfinished => (Unfinished, ended false)
      end
    else (Normal [], l)
  | StdoutError err =>
    if stdoutOnceError l then
      (Normal (onWriteError err),
       mkListeners false (stdinOnceError l) (stdinOnceEnd l) (jsonData l)
         (writeCallback l) (store l))
    else (Normal [], l)
  | WriteDone err =>
    if writeCallback l then
      (Normal (match err with
               | None => [Callback 0]
               | Some _ => []
               end),
       mkListeners (stdoutOnceError l) (stdinOnceError l) (stdinOnceEnd l)
         (jsonData l) false (store l))
    else (Normal [], l)
  end.

(** A sequence of events: the effects in order, and how the sequence
    ended ([Throw]: by an exception that left a listener). *)
Fixpoint run (l : Listeners) (events : list Event)
    : list Effect * Completion unit :=
  match events with
  | [] => ([], Normal tt)
  | ev :: events' =>
    match handle l ev with
    | (Normal effects, l') =>
      let (effects', r) := run l' events' in (effects ++ effects', r)
    | (Throw e, _) => ([], Throw e)
    | (Unfinished, _) => ([], Unfinished)
    end
  end.

(** The chunks of the 'data' events of a sequence. *)
Definition dataOf (events : list Event) : list str :=
  flat_map (fun ev => match ev with StdinData d => [d] | _ => [] end) events.

Definition isEnd (ev : Event) : bool :=
  match ev with StdinEnd _ => true | _ => false end.

End Command.

(** * Reasoning about the matcher *)

Module MatcherFacts.

Import Aux.

Lemma orelse_failure (r : MatchResult) :
  match r with
  | Matched y => Matched y
  | Failure => Failure
  | OutOfFuel => OutOfFuel
  end = r.
Proof. destruct r; reflexivity. Qed.

Lemma state_eta (x : MatchState) : mkState (rest x) (captures x) = x.
Proof. destruct x; reflexivity. Qed.

Lemma takeWhile_dropWhile P s : takeWhile P s ++ dropWhile P s = s.
Proof.
  induction s as [|a tl IH]; simpl; [reflexivity|].
  destruct (P a); simpl; [now rewrite IH | reflexivity].
Qed.

Lemma takeWhile_all P s : forallb P (takeWhile P s) = true.
Proof.
  induction s as [|a tl IH]; simpl; [reflexivity|].
  destruct (P a) eqn:E; simpl; [now rewrite E | reflexivity].
Qed.

Lemma dropWhile_head P s :
  match dropWhile P s with a :: _ => P a = false | [] => True end.
Proof.
  induction s as [|a tl IH]; simpl; [exact I|].
  destruct (P a) eqn:E; [exact IH | exact E].
Qed.

Lemma dropWhile_length P s : length (dropWhile P s) <= length s.
Proof.
  induction s as [|a tl IH]; simpl; [lia|].
  destruct (P a); simpl; lia.
Qed.

Lemma skipn_takeWhile P s : skipn (length (takeWhile P s)) s = dropWhile P s.
Proof.
  induction s as [|a tl IH]; simpl; [reflexivity|].
  destruct (P a); simpl; [exact IH | reflexivity].
Qed.

Lemma singleChar_Char n ch : singleChar (Ascii.eqb ch) (compile n (Char ch)).
Proof. intros x c; reflexivity. Qed.

Lemma singleChar_CharClass n inv rs :
  singleChar (classMatches inv rs) (compile n (CharClass inv rs)).
Proof. intros x c; reflexivity. Qed.

Lemma compile_Char_cons n ch a tl caps c :
  compile n (Char ch) (mkState (a :: tl) caps) c =
  if Ascii.eqb ch a then c (mkState tl caps) else Failure.
Proof. reflexivity. Qed.

Lemma compile_CharClass_cons n inv rs a tl caps c :
  compile n (CharClass inv rs) (mkState (a :: tl) caps) c =
  if classMatches inv rs a then c (mkState tl caps) else Failure.
Proof. reflexivity. Qed.

Lemma compile_Seq n a b x c :
  compile n (Seq a b) x c = compile n a x (fun y => compile n b y c).
Proof. reflexivity. Qed.

Lemma compile_Quantified n a min max greedy x c :
  compile n (Quantified a min max greedy) x c =
  repeatMatcher (min + length (rest x) + 1) (compile n a) min max greedy
    (groupsOf a) x c.
Proof. reflexivity. Qed.

Lemma compile_Group n i a x c :
  compile n (Group i a) x c =
  compile n a x (fun y =>
    c (mkState (rest y)
         (setNth i
            (Some (firstn (length (rest x) - length (rest y)) (rest x)))
            (captures y)))).
Proof. reflexivity. Qed.

(** One unfolding of [repeatMatcher] for an unbounded quantifier. *)
Lemma repeatMatcher_unbounded fuel m min greedy x c :
  repeatMatcher (S fuel) m min None greedy [] x c =
  let d : Continuation := fun y =>
    if (min =? 0) && (length (rest y) =? length (rest x)) then Failure
    else repeatMatcher fuel m (pred min) None greedy [] y c in
  if negb (min =? 0) then m x d
  else if negb greedy then
    match c x with Failure => m x d | z => z end
  else
    match m x d with Failure => c x | z => z end.
Proof. simpl. rewrite state_eta. reflexivity. Qed.

(** A greedy, unbounded quantifier over a one-character matcher tries the
    longest run first and then shorter ones.  When the continuation accepts
    the longest run, or rejects every shorter one, the outcome is that of
    the longest run. *)
Lemma greedy_run P m (Hm : singleChar P m) :
  forall s min fuel caps c,
    min + length s + 1 <= fuel ->
    (c (mkState (dropWhile P s) caps) <> Failure \/
     forall k, min <= k < length (takeWhile P s) ->
               c (mkState (skipn k s) caps) = Failure) ->
    repeatMatcher fuel m min None true [] (mkState s caps) c =
    if min <=? length (takeWhile P s)
    then c (mkState (dropWhile P s) caps) else Failure.
Proof.
  induction s as [|a tl IH]; intros min fuel caps c Hfuel Hc.
  - destruct fuel as [|fuel]; [lia|].
    rewrite repeatMatcher_unbounded. cbv zeta. rewrite !Hm. simpl.
    destruct min; reflexivity.
  - destruct fuel as [|fuel]; [lia|].
    rewrite repeatMatcher_unbounded. cbv zeta. rewrite !Hm.
    cbn [rest captures takeWhile dropWhile] in Hc |- *.
    destruct (P a) eqn:Pa.
    + assert (Hlen : (length tl =? length (a :: tl)) = false)
        by (apply Nat.eqb_neq; simpl; lia).
      rewrite Hlen, andb_false_r.
      assert (IH' := IH (pred min) fuel caps c).
      cbn [length] in *.
      rewrite IH'; [| lia |].
      * destruct min as [|min]; cbn [negb Nat.eqb pred Nat.leb].
        -- destruct Hc as [Hc|Hc].
           ++ destruct (c (mkState (dropWhile P tl) caps)); congruence.
           ++ assert (H0 := Hc 0). cbn [skipn] in H0.
              rewrite H0 by (simpl; lia).
              destruct (c (mkState (dropWhile P tl) caps)); reflexivity.
        -- reflexivity.
      * destruct Hc as [Hc|Hc]; [left; exact Hc|right].
        intros k Hk. apply (Hc (S k)). simpl. lia.
    + destruct min as [|min]; reflexivity.
Qed.

(** ** The fuel of [repeatMatcher] is enough

    For every pattern, the matcher runs out of fuel only if its
    continuation does: the bound [min + length rest + 1] covers every
    recursive call of the quantifier. *)

Lemma repeatMatcher_finishes m (Hm : finishes m) greedy parens c :
  forall fuel min max x,
    min + length (rest x) + 1 <= fuel ->
    (forall y, length (rest y) <= length (rest x) -> c y <> OutOfFuel) ->
    repeatMatcher fuel m min max greedy parens x c <> OutOfFuel.
Proof.
  induction fuel as [|fuel IH]; intros min max x Hfuel Hc; [lia|].
  cbn [repeatMatcher].
  assert (Hd : forall y, length (rest y) <= length (rest x) ->
             (if (min =? 0) && (length (rest y) =? length (rest x))
              then Failure
              else repeatMatcher fuel m (pred min) (option_map pred max)
                     greedy parens y c) <> OutOfFuel).
  { intros y Hy.
    destruct ((min =? 0) && (length (rest y) =? length (rest x))) eqn:E;
      [discriminate|].
    apply IH.
    - apply andb_false_iff in E. destruct E as [E | E].
      + apply Nat.eqb_neq in E. lia.
      + apply Nat.eqb_neq in E. lia.
    - intros z Hz. apply Hc. lia. }
  assert (Hmd : m (mkState (rest x) (clearCaptures parens (captures x)))
                  (fun y =>
                     if (min =? 0) && (length (rest y) =? length (rest x))
                     then Failure
                     else repeatMatcher fuel m (pred min)
                            (option_map pred max) greedy parens y c)
                <> OutOfFuel)
    by (apply Hm; exact Hd).
  assert (Hcx : c x <> OutOfFuel) by (apply Hc; lia).
  destruct max as [[|k]|]; try exact Hcx;
    destruct (negb (min =? 0)); try exact Hmd;
    destruct (negb greedy).
  - destruct (c x); [discriminate | exact Hmd | congruence].
  - destruct (m _ _); [discriminate | exact Hcx | congruence].
  - destruct (c x); [discriminate | exact Hmd | congruence].
  - destruct (m _ _); [discriminate | exact Hcx | congruence].
Qed.

Theorem compile_finishes n : forall r, finishes (compile n r).
Proof.
  induction r as [|ch|inv rs|a IHa b IHb|a IHa b IHb|a IHa min max greedy
                  |i a IHa| |a IHa]; intros x c Hc; cbn [compile].
  - apply Hc. lia.
  - destruct (rest x) as [|a tl] eqn:E; [discriminate|].
    destruct (Ascii.eqb ch a); [|discriminate].
    apply Hc. cbn [rest]. simpl. lia.
  - destruct (rest x) as [|a tl] eqn:E; [discriminate|].
    destruct (classMatches inv rs a); [|discriminate].
    apply Hc. cbn [rest]. simpl. lia.
  - apply IHa. intros y Hy. apply IHb. intros z Hz. apply Hc. lia.
  - pose proof (IHa x c Hc) as Ha. pose proof (IHb x c Hc) as Hb.
    destruct (compile n a x c); [discriminate | exact Hb | congruence].
  - apply repeatMatcher_finishes; [exact IHa | lia | exact Hc].
  - apply IHa. intros y Hy. apply Hc. exact Hy.
  - destruct (length (rest x) =? n); [|discriminate]. apply Hc. lia.
  - pose proof (IHa x Matched (fun y _ => ltac:(discriminate))) as Ha.
    destruct (compile n a x Matched); [|discriminate | congruence].
    apply Hc. cbn [rest]. lia.
Qed.

End MatcherFacts.

(** * The patterns of [index.js], executed symbolically *)

Module PatternFacts.

Import Aux MatcherFacts Scanner Grammar.

Ltac by_cases_on c :=
  destruct c as [[] [] [] [] [] [] [] []]; vm_compute; try reflexivity;
  try congruence; try tauto.

Lemma class_digit c : classMatches false [Range "0" "9"] c = isDigit c.
Proof. by_cases_on c. Qed.

Lemma class_stringChar c :
  classMatches true [Range "000" "031"; Single backslash; Single dquote] c
  = isStringChar c.
Proof. by_cases_on c. Qed.

Lemma class_escape c :
  classMatches false
    [Single dquote; Single backslash; Single "/"; Single "b"; Single "f";
     Single "n"; Single "r"; Single "t"] c = isEscape c.
Proof. by_cases_on c. Qed.

Lemma class_hex c :
  classMatches false [Range "0" "9"; Range "a" "f"; Range "A" "F"] c
  = isHex c.
Proof. by_cases_on c. Qed.

Lemma class_expMarker c :
  classMatches false [Single "e"; Single "E"] c = isExpMarker c.
Proof. by_cases_on c. Qed.

Lemma class_expSign c :
  classMatches false [Single "+"; Single "-"] c = isExpSign c.
Proof. by_cases_on c. Qed.

Lemma class_notQuote c :
  classMatches true [Single dquote] c = negb (Ascii.eqb c dquote).
Proof. by_cases_on c. Qed.

Lemma stringChar_not_special c :
  isStringChar c = true ->
  Ascii.eqb c dquote = false /\ Ascii.eqb c backslash = false.
Proof. by_cases_on c. Qed.

Lemma escape_not_u c : isEscape c = true -> Ascii.eqb "u" c = false.
Proof. by_cases_on c. Qed.

Lemma digit_not_marker c :
  isDigit c = true ->
  isExpMarker c = false /\ Ascii.eqb "." c = false
  /\ Ascii.eqb c dquote = false /\ isExpSign c = false
  /\ Ascii.eqb "-" c = false.
Proof. by_cases_on c. Qed.

(** *** [stringPattern] *)

Lemma stringPattern_unfold :
  stringPattern = Seq (Char dquote) (Seq (Star stringItem) (Char dquote)).
Proof. reflexivity. Qed.

(** [a{4}] over a one-character matcher. *)
Lemma times4_run P m (Hm : singleChar P m) fuel x c :
  5 <= fuel ->
  repeatMatcher fuel m 4 (Some 4) true [] x c =
  match rest x with
  | h1 :: h2 :: h3 :: h4 :: tl =>
    if P h1 && P h2 && P h3 && P h4 then c (mkState tl (captures x))
    else Failure
  | _ => Failure
  end.
Proof.
  intros Hfuel.
  do 5 (destruct fuel as [|fuel]; [lia|]).
  destruct x as [s caps]. cbn.
  destruct s as [|h1 [|h2 [|h3 [|h4 tl]]]];
    repeat (rewrite Hm; cbn);
    repeat match goal with
           | |- context [if P ?h then _ else _] => destruct (P h); cbn
           end; reflexivity.
Qed.

(** One item of a string literal, with the quantifier's continuation [d]
    applied to what follows it. *)
Lemma stringItem_step n s caps (d : Continuation) :
  compile n stringItem (mkState s caps) d =
  match s with
  | [] => Failure
  | a :: tl =>
    if isStringChar a then
      d (mkState tl caps)
    else if Ascii.eqb a backslash then
      match tl with
      | e :: tl1 =>
        if isEscape e then d (mkState tl1 caps)
        else if Ascii.eqb e "u" then
          match tl1 with
          | h1 :: h2 :: h3 :: h4 :: tl2 =>
            if isHex h1 && isHex h2 && isHex h3 && isHex h4
            then d (mkState tl2 caps) else Failure
          | _ => Failure
          end
        else Failure
      | [] => Failure
      end
    else Failure
  end.
Proof.
  unfold stringItem. cbn [compile rest captures].
  destruct s as [|a tl]; [reflexivity|].
  rewrite class_stringChar.
  destruct (isStringChar a) eqn:Ha.
  - destruct (stringChar_not_special a Ha) as [_ Hb].
    rewrite Ascii.eqb_sym, Hb. apply orelse_failure.
  - rewrite (Ascii.eqb_sym backslash a).
    destruct (Ascii.eqb a backslash); [|reflexivity].
    destruct tl as [|e tl1]; [reflexivity|].
    rewrite class_escape.
    destruct (isEscape e) eqn:He.
    + rewrite (escape_not_u e He). apply orelse_failure.
    + rewrite (Ascii.eqb_sym "u" e).
      destruct (Ascii.eqb e "u"); [|reflexivity].
      unfold Times. cbn [compile rest captures groupsOf].
      rewrite (times4_run
                 (classMatches false
                    [Range "0" "9"; Range "a" "f"; Range "A" "F"])
                 _ (fun x c => eq_refl)) by lia.
      cbn [rest captures].
      destruct tl1 as [|h1 [|h2 [|h3 [|h4 tl2]]]]; try reflexivity.
      rewrite !class_hex. reflexivity.
Qed.

Lemma progress_check (s' s : str) :
  length s' < length s -> (length s' =? length s) = false.
Proof. intros H. apply Nat.eqb_neq. lia. Qed.

(** The items of a literal up to its closing quote. *)
Lemma stringBody_run n :
  forall s fuel caps c,
    length s + 1 <= fuel ->
    repeatMatcher fuel (compile n stringItem) 0 None true []
      (mkState s caps) (fun y => compile n (Char dquote) y c)
    = match stringBody s with
      | Some r => c (mkState r caps)
      | None => Failure
      end.
Proof.
  intros s. remember (length s) as len eqn:Hlen.
  revert s Hlen. induction len as [len IH] using lt_wf_ind.
  intros s Hlen fuel caps c Hfuel. subst len.
  destruct fuel as [|fuel]; [lia|].
  rewrite repeatMatcher_unbounded. cbv zeta.
  cbn [negb Nat.eqb andb rest captures].
  rewrite stringItem_step.
  destruct s as [|a tl]; [reflexivity|].
  rewrite compile_Char_cons. cbn [stringBody].
  rewrite (Ascii.eqb_sym dquote a).
  destruct (isStringChar a) eqn:Ha.
  - destruct (stringChar_not_special a Ha) as [Hq Hb].
    rewrite Hq, Hb.
    rewrite progress_check by (simpl; lia).
    rewrite (IH (length tl)) by (simpl in *; lia || reflexivity).
    apply orelse_failure.
  - destruct (Ascii.eqb a dquote) eqn:Hq.
    { apply Ascii.eqb_eq in Hq. subst a. reflexivity. }
    destruct (Ascii.eqb a backslash); [|reflexivity].
    destruct tl as [|e tl1]; [reflexivity|].
    destruct (isEscape e).
    + rewrite progress_check by (simpl; lia).
      rewrite (IH (length tl1)) by (simpl in *; lia || reflexivity).
      apply orelse_failure.
    + destruct (Ascii.eqb e "u"); [|reflexivity].
      destruct tl1 as [|h1 [|h2 [|h3 [|h4 tl2]]]]; try reflexivity.
      destruct (isHex h1 && isHex h2 && isHex h3 && isHex h4);
        [|reflexivity].
      rewrite progress_check by (simpl; lia).
      rewrite (IH (length tl2)) by (simpl in *; lia || reflexivity).
      apply orelse_failure.
Qed.

(** A whole string literal: the matcher follows [stringBody]. *)
Lemma stringPattern_run n s caps c :
  compile n stringPattern (mkState s caps) c =
  match s with
  | a :: tl =>
    if Ascii.eqb a dquote then
      match stringBody tl with
      | Some r => c (mkState r caps)
      | None => Failure
      end
    else Failure
  | [] => Failure
  end.
Proof.
  rewrite stringPattern_unfold.
  change (compile n (Seq (Char dquote) (Seq (Star stringItem) (Char dquote)))
            (mkState s caps) c)
    with (match s with
          | a :: tl =>
            if Ascii.eqb dquote a then
              repeatMatcher (0 + length tl + 1) (compile n stringItem)
                0 None true [] (mkState tl caps)
                (fun y => compile n (Char dquote) y c)
            else Failure
          | [] => Failure
          end).
  destruct s as [|a tl]; [reflexivity|].
  rewrite (Ascii.eqb_sym dquote a).
  destruct (Ascii.eqb a dquote); [|reflexivity].
  apply stringBody_run. lia.
Qed.

(** *** [numberExpPattern] *)

Lemma singleChar_digit n : singleChar isDigit (compile n digitClass).
Proof.
  intros [s caps] c. cbn [compile digitClass rest captures].
  destruct s as [|a tl]; [reflexivity|]. now rewrite class_digit.
Qed.

Lemma skipn_in_run P : forall s k,
  k < length (takeWhile P s) ->
  exists a tl, skipn k s = a :: tl /\ P a = true.
Proof.
  induction s as [|a tl IH]; intros k Hk; simpl in Hk; [lia|].
  destruct (P a) eqn:Pa; simpl in Hk; [|lia].
  destruct k as [|k].
  - exists a, tl. split; [reflexivity | exact Pa].
  - apply IH. lia.
Qed.

Lemma firstn_consumed (p r : str) :
  firstn (length (p ++ r) - length r) (p ++ r) = p.
Proof.
  rewrite length_app, Nat.add_sub.
  rewrite firstn_app, Nat.sub_diag, firstn_all. simpl. apply app_nil_r.
Qed.

(** [[0-9]+] followed by something that never fails takes every digit. *)
Lemma digits_then_total n s caps c fuel :
  1 + length s + 1 <= fuel ->
  (forall y, c y <> Failure) ->
  repeatMatcher fuel (compile n digitClass) 1 None true [] (mkState s caps) c
  = match scanDigits s with
    | Some (_, r) => c (mkState r caps)
    | None => Failure
    end.
Proof.
  intros Hfuel Hc.
  rewrite (greedy_run isDigit _ (singleChar_digit n)) by (auto; lia).
  unfold scanDigits. destruct (takeWhile isDigit s); reflexivity.
Qed.

(** [[0-9]+] followed by something that rejects a digit takes every digit
    as well. *)
Lemma digits_then_nondigit n s caps c fuel :
  1 + length s + 1 <= fuel ->
  (forall a tl, isDigit a = true -> c (mkState (a :: tl) caps) = Failure) ->
  repeatMatcher fuel (compile n digitClass) 1 None true [] (mkState s caps) c
  = match scanDigits s with
    | Some (_, r) => c (mkState r caps)
    | None => Failure
    end.
Proof.
  intros Hfuel Hc.
  rewrite (greedy_run isDigit _ (singleChar_digit n)); [|lia|].
  - unfold scanDigits. destruct (takeWhile isDigit s); reflexivity.
  - right. intros k Hk.
    destruct (skipn_in_run isDigit s k) as (a & tl & -> & Ha); [lia|].
    now apply Hc.
Qed.

Lemma plus_digits_total n s caps c :
  (forall y, c y <> Failure) ->
  compile n (Plus digitClass) (mkState s caps) c
  = match scanDigits s with
    | Some (_, r) => c (mkState r caps)
    | None => Failure
    end.
Proof.
  intros Hc. unfold Plus. rewrite compile_Quantified.
  apply digits_then_total; [cbn [rest]; lia | exact Hc].
Qed.

Lemma plus_digits_nondigit n s caps c :
  (forall a tl, isDigit a = true -> c (mkState (a :: tl) caps) = Failure) ->
  compile n (Plus digitClass) (mkState s caps) c
  = match scanDigits s with
    | Some (_, r) => c (mkState r caps)
    | None => Failure
    end.
Proof.
  intros Hc. unfold Plus. rewrite compile_Quantified.
  apply digits_then_nondigit; [cbn [rest]; lia | exact Hc].
Qed.

(** [a?] over a one-character matcher. *)
Lemma opt_char P m (Hm : singleChar P m) fuel s caps k :
  length s + 1 <= fuel ->
  repeatMatcher fuel m 0 (Some 1) true [] (mkState s caps) k =
  match s with
  | a :: tl =>
    if P a then
      match k (mkState tl caps) with
      | Failure => k (mkState s caps)
      | z => z
      end
    else k (mkState s caps)
  | [] => k (mkState s caps)
  end.
Proof.
  intros Hfuel.
  destruct fuel as [|fuel]; [lia|].
  cbn [repeatMatcher negb Nat.eqb andb clearCaptures fold_left rest captures].
  rewrite Hm. cbn [rest captures].
  destruct s as [|a tl]; [reflexivity|].
  destruct (P a); [|reflexivity].
  rewrite progress_check by (simpl; lia).
  destruct fuel as [|fuel]; [simpl in Hfuel; lia|].
  reflexivity.
Qed.

Lemma scanDigits_split s d r :
  scanDigits s = Some (d, r) ->
  s = d ++ r /\ d <> [] /\ forallb isDigit d = true
  /\ match r with a :: _ => isDigit a = false | [] => True end.
Proof.
  unfold scanDigits. intros H.
  assert (d = takeWhile isDigit s /\ r = dropWhile isDigit s /\ d <> []) as (-> & -> & Hne).
  { destruct (takeWhile isDigit s); [discriminate|].
    inversion H; subst. repeat split; congruence. }
  repeat split.
  - symmetry. apply takeWhile_dropWhile.
  - exact Hne.
  - apply takeWhile_all.
  - apply dropWhile_head.
Qed.

Lemma scanDigits_head_nondigit a tl :
  isDigit a = false -> scanDigits (a :: tl) = None.
Proof. intros H. unfold scanDigits. simpl. now rewrite H. Qed.

Lemma singleChar_expSign n :
  singleChar isExpSign (compile n (CharClass false [Single "+"; Single "-"])).
Proof.
  intros [s caps] c. cbn [compile rest captures].
  destruct s as [|a tl]; [reflexivity|]. now rewrite class_expSign.
Qed.

Lemma expSign_cases (a : ascii) :
  isExpSign a = true -> a = "+"%char \/ a = "-"%char.
Proof.
  destruct a as [[] [] [] [] [] [] [] []]; vm_compute; intros H;
    try discriminate H; auto.
Qed.

Lemma expSign_not_digit a : isExpSign a = true -> isDigit a = false.
Proof. by_cases_on a. Qed.

(** The exponent, group [i]: an optional sign and every digit after it. *)
Lemma exp_run n i s caps c :
  (forall y, c y <> Failure) ->
  compile n (Group i expNode) (mkState s caps) c =
  match scanExp s with
  | Some (e, r) => c (mkState r (setNth i (Some e) caps))
  | None => Failure
  end.
Proof.
  intros Hc. rewrite compile_Group. unfold expNode.
  rewrite compile_Seq. unfold Opt at 1. rewrite compile_Quantified.
  cbn [rest captures groupsOf].
  rewrite (opt_char isExpSign _ (singleChar_expSign n)) by lia.
  unfold scanExp.
  assert (Hplus : forall s1 pre, s = pre ++ s1 ->
    compile n (Plus digitClass) (mkState s1 caps)
      (fun y => c (mkState (rest y)
         (setNth i (Some (firstn (length s - length (rest y)) s))
            (captures y))))
    = match scanDigits s1 with
      | Some (d, r) => c (mkState r (setNth i (Some (pre ++ d)) caps))
      | None => Failure
      end).
  { intros s1 pre ->. rewrite plus_digits_total by (intros y; apply Hc).
    destruct (scanDigits s1) as [[d r]|] eqn:Hd; [|reflexivity].
    apply scanDigits_split in Hd. destruct Hd as (-> & _).
    cbn [rest captures]. rewrite app_assoc, firstn_consumed. reflexivity. }
  destruct s as [|a tl].
  - rewrite (Hplus [] []) by reflexivity.
    destruct (scanDigits []) as [[d r]|]; reflexivity.
  - destruct (isExpSign a) eqn:Ha.
    + rewrite (Hplus tl [a]) by reflexivity.
      rewrite (Hplus (a :: tl) []) by reflexivity.
      rewrite (scanDigits_head_nondigit a tl) by (now apply expSign_not_digit).
      destruct (scanDigits tl) as [[d r]|]; [|reflexivity].
      apply orelse_failure.
    + rewrite (Hplus (a :: tl) []) by reflexivity.
      destruct (scanDigits (a :: tl)) as [[d r]|]; reflexivity.
Qed.

Lemma markerExp_run n j s caps c :
  (forall y, c y <> Failure) ->
  compile n (Seq (CharClass false [Single "e"; Single "E"])
                 (Group j expNode)) (mkState s caps) c =
  match s with
  | m :: s4 =>
    if isExpMarker m then
      match scanExp s4 with
      | Some (e, r) => c (mkState r (setNth j (Some e) caps))
      | None => Failure
      end
    else Failure
  | [] => Failure
  end.
Proof.
  intros Hc. rewrite compile_Seq.
  destruct s as [|m s4]; [reflexivity|].
  rewrite compile_CharClass_cons, class_expMarker.
  destruct (isExpMarker m); [|reflexivity].
  now apply exp_run.
Qed.

Lemma repeatMatcher_opt fuel m parens x c :
  repeatMatcher (S fuel) m 0 (Some 1) true parens x c =
  match m (mkState (rest x) (clearCaptures parens (captures x)))
          (fun y => if length (rest y) =? length (rest x) then Failure
                    else repeatMatcher fuel m 0 (Some 0) true parens y c)
  with
  | Failure => c x
  | z => z
  end.
Proof. reflexivity. Qed.

Lemma repeatMatcher_done fuel m min greedy parens x c :
  repeatMatcher (S fuel) m min (Some 0) greedy parens x c = c x.
Proof. reflexivity. Qed.

(** The optional fraction, group [j], before something that insists on an
    exponent marker. *)
Lemma frac_run n j s caps (K : Continuation) :
  (forall a tl caps', isExpMarker a = false ->
                      K (mkState (a :: tl) caps') = Failure) ->
  compile n (Opt (Seq (Char ".") (Group j (Plus digitClass))))
    (mkState s caps) K =
  let (frac, s3) := scanFrac s in
  K (mkState s3 match frac with
                | Some f => setNth j (Some f) (setNth j None caps)
                | None => caps
                end).
Proof.
  intros HK. unfold Opt. rewrite compile_Quantified.
  cbn [rest captures groupsOf app Nat.add].
  rewrite Nat.add_1_r, repeatMatcher_opt. cbn [rest captures].
  rewrite compile_Seq.
  destruct s as [|a tl]; [reflexivity|].
  rewrite compile_Char_cons. unfold scanFrac.
  destruct (Ascii.eqb "." a) eqn:Ha.
  - apply Ascii.eqb_eq in Ha. subst a.
    rewrite compile_Group. cbn [rest captures clearCaptures fold_left length].
    rewrite plus_digits_nondigit.
    + destruct (scanDigits tl) as [[f r]|] eqn:Hf; [|reflexivity].
      pose proof (scanDigits_split _ _ _ Hf) as (Htl & _).
      cbn [rest captures].
      change (groupsOf (Plus digitClass)) with (@nil nat).
      cbn [fold_left].
      replace (length r =? S (length tl)) with false
        by (symmetry; apply Nat.eqb_neq; rewrite Htl, length_app; lia).
      rewrite repeatMatcher_done.
      replace (firstn (length tl - length r) tl) with f
        by (rewrite Htl; symmetry; apply firstn_consumed).
      destruct (K _) eqn:E; try reflexivity.
      apply HK. reflexivity.
    + intros a' tl' Ha'. cbn [rest captures].
      destruct (length (a' :: tl') =? S (length tl)); [reflexivity|].
      rewrite repeatMatcher_done. apply HK.
      now destruct (digit_not_marker a' Ha').
  - destruct a as [[] [] [] [] [] [] [] []]; try discriminate Ha;
      reflexivity.
Qed.

(** The integer part, group [i], before something that rejects a
    digit. *)
Lemma int_run n i s caps (K : Continuation) :
  (forall a tl caps', isDigit a = true ->
                      K (mkState (a :: tl) caps') = Failure) ->
  compile n (Group i (Plus digitClass)) (mkState s caps) K =
  match scanDigits s with
  | Some (d, r) => K (mkState r (setNth i (Some d) caps))
  | None => Failure
  end.
Proof.
  intros HK. rewrite compile_Group. cbn [rest captures].
  rewrite plus_digits_nondigit
    by (intros a tl Ha; cbn [rest captures]; now apply HK).
  destruct (scanDigits s) as [[d r]|] eqn:Hd; [|reflexivity].
  apply scanDigits_split in Hd. destruct Hd as (-> & _).
  cbn [rest captures]. now rewrite firstn_consumed.
Qed.

Lemma numberExpPattern_unfold g :
  numberExpPattern g =
  Seq (Group g (Opt (Char "-")))
    (Seq (Group (g + 1) (Plus digitClass))
       (Seq (Opt (Seq (Char ".") (Group (g + 2) (Plus digitClass))))
          (Seq (CharClass false [Single "e"; Single "E"])
             (Group (g + 3) expNode)))).
Proof. reflexivity. Qed.

Lemma singleChar_minus n : singleChar (Ascii.eqb "-") (compile n (Char "-")).
Proof. apply singleChar_Char. Qed.

(** The whole number: the matcher follows [scanNumber]. *)
Lemma number_run n g s caps c :
  (forall y, c y <> Failure) ->
  compile n (numberExpPattern g) (mkState s caps) c =
  match scanNumber s with
  | Some (p, r) => c (mkState r (numberCaptures g p caps))
  | None => Failure
  end.
Proof.
  intros Hc. rewrite numberExpPattern_unfold.
  set (ME := Seq (CharClass false [Single "e"; Single "E"])
               (Group (g + 3) expNode)).
  set (FR := Opt (Seq (Char ".") (Group (g + 2) (Plus digitClass)))).
  assert (HME : forall a tl caps', isExpMarker a = false ->
            compile n ME (mkState (a :: tl) caps') c = Failure).
  { intros a tl caps' Ha. unfold ME. rewrite markerExp_run by exact Hc.
    now rewrite Ha. }
  assert (HFR : forall s2 caps2,
            compile n (Seq FR ME) (mkState s2 caps2) c =
            let (frac, s3) := scanFrac s2 in
            compile n ME
              (mkState s3 match frac with
                          | Some f => setNth (g + 2) (Some f)
                                        (setNth (g + 2) None caps2)
                          | None => caps2
                          end) c).
  { intros s2 caps2. rewrite compile_Seq. unfold FR.
    now rewrite frac_run by (intros; now apply HME). }
  assert (HFRd : forall a tl caps', isDigit a = true ->
            compile n (Seq FR ME) (mkState (a :: tl) caps') c = Failure).
  { intros a tl caps' Ha. rewrite HFR.
    destruct (digit_not_marker a Ha) as (Hm & Hdot & _).
    unfold scanFrac.
    destruct a as [[] [] [] [] [] [] [] []]; try discriminate Hdot;
      now apply HME. }
  assert (HI : forall s1 caps1,
            compile n (Seq (Group (g + 1) (Plus digitClass)) (Seq FR ME))
              (mkState s1 caps1) c =
            match scanDigits s1 with
            | Some (d, s2) =>
              compile n (Seq FR ME)
                (mkState s2 (setNth (g + 1) (Some d) caps1)) c
            | None => Failure
            end).
  { intros s1 caps1. rewrite compile_Seq.
    now rewrite int_run by (intros; now apply HFRd). }
  rewrite compile_Seq, compile_Group. unfold Opt at 1.
  rewrite compile_Quantified. cbn [rest captures groupsOf].
  rewrite (opt_char _ _ (singleChar_minus n)) by lia.
  unfold scanNumber, scanSign.
  assert (Hfinish : forall sign s1,
    match scanDigits s1 with
    | Some (d, s2) =>
      compile n (Seq FR ME)
        (mkState s2 (setNth (g + 1) (Some d) (setNth g (Some sign) caps))) c
    | None => Failure
    end =
    match
      match scanDigits s1 with
      | Some (int, s2) =>
        let (frac, s3) := scanFrac s2 in
        match s3 with
        | m :: s4 =>
          if isExpMarker m then
            match scanExp s4 with
            | Some (e, r) => Some (mkParts sign int frac m e, r)
            | None => None
            end
          else None
        | [] => None
        end
      | None => None
      end
    with
    | Some (p, r) => c (mkState r (numberCaptures g p caps))
    | None => Failure
    end).
  { intros sign s1. destruct (scanDigits s1) as [[d s2]|]; [|reflexivity].
    rewrite HFR. destruct (scanFrac s2) as [frac s3].
    unfold ME. rewrite markerExp_run by exact Hc.
    destruct s3 as [|m s4]; [reflexivity|].
    destruct (isExpMarker m); [|reflexivity].
    destruct (scanExp s4) as [[e r]|]; reflexivity. }
  destruct s as [|a tl].
  - cbn [rest captures length Nat.sub firstn]. rewrite HI. apply Hfinish.
  - destruct (Ascii.eqb "-" a) eqn:Ha.
    + apply Ascii.eqb_eq in Ha. subst a.
      cbn [rest captures].
      replace (length ("-"%char :: tl) - length tl) with 1
        by (cbn [length]; lia).
      rewrite Nat.sub_diag. cbn [firstn].
      rewrite !HI.
      rewrite (scanDigits_head_nondigit "-" tl) by reflexivity.
      rewrite orelse_failure. apply (Hfinish (lit "-")).
    + cbn [rest captures]. rewrite Nat.sub_diag. cbn [firstn].
      rewrite HI.
      destruct a as [[] [] [] [] [] [] [] []]; try discriminate Ha;
        apply (Hfinish []).
Qed.

(** *** The lazy prefix *)

Lemma pathSearch_outside K caps s :
  pathSearch K caps false s =
  match K (mkState s caps) with
  | Failure =>
    match s with
    | [] => Failure
    | a :: tl => pathSearch K caps (Ascii.eqb a dquote) tl
    end
  | z => z
  end.
Proof. destruct s; reflexivity. Qed.

Lemma stringBody_shorter : forall s r,
  stringBody s = Some r -> length r < length s.
Proof.
  intros s. remember (length s) as len eqn:Hlen.
  revert s Hlen. induction len as [len IH] using lt_wf_ind.
  intros s Hlen r H. subst len.
  destruct s as [|a tl]; [discriminate|]. cbn [stringBody] in H.
  destruct (Ascii.eqb a dquote).
  { inversion H; subst. simpl; lia. }
  destruct (Ascii.eqb a backslash).
  - destruct tl as [|e tl1]; [discriminate|].
    destruct (isEscape e).
    + apply (IH (length tl1)) in H; simpl in *; lia || reflexivity.
    + destruct (Ascii.eqb e "u"); [|discriminate].
      destruct tl1 as [|h1 [|h2 [|h3 [|h4 tl2]]]]; try discriminate.
      destruct (isHex h1 && isHex h2 && isHex h3 && isHex h4);
        [|discriminate].
      apply (IH (length tl2)) in H; simpl in *; lia || reflexivity.
  - destruct (isStringChar a); [|discriminate].
    apply (IH (length tl)) in H; simpl in *; lia || reflexivity.
Qed.

Lemma pathSearch_string K caps : forall s,
  pathSearch K caps true s =
  match stringBody s with
  | Some r => pathSearch K caps false r
  | None => Failure
  end.
Proof.
  intros s. remember (length s) as len eqn:Hlen.
  revert s Hlen. induction len as [len IH] using lt_wf_ind.
  intros s Hlen. subst len.
  destruct s as [|a tl]; [reflexivity|].
  cbn [pathSearch stringBody].
  destruct (Ascii.eqb a dquote); [reflexivity|].
  destruct (Ascii.eqb a backslash).
  - destruct tl as [|e tl1]; [reflexivity|].
    destruct (isEscape e).
    + apply (IH (length tl1)); simpl; lia || reflexivity.
    + destruct (Ascii.eqb e "u"); [|reflexivity].
      destruct tl1 as [|h1 [|h2 [|h3 [|h4 tl2]]]]; try reflexivity.
      destruct (isHex h1 && isHex h2 && isHex h3 && isHex h4);
        [|reflexivity].
      apply (IH (length tl2)); simpl; lia || reflexivity.
  - destruct (isStringChar a); [|reflexivity].
    apply (IH (length tl)); simpl; lia || reflexivity.
Qed.

(** The lazy quantifier [(?:string|[^quote])*?] visits exactly the positions
    of [pathSearch]. *)
Lemma lazy_run n K :
  forall s fuel caps,
    length s + 1 <= fuel ->
    repeatMatcher fuel (compile n skipNode) 0 None false []
      (mkState s caps) K
    = pathSearch K caps false s.
Proof.
  intros s. remember (length s) as len eqn:Hlen.
  revert s Hlen. induction len as [len IH] using lt_wf_ind.
  intros s Hlen fuel caps Hfuel. subst len.
  destruct fuel as [|fuel]; [lia|].
  rewrite repeatMatcher_unbounded, pathSearch_outside. cbv zeta.
  cbn [negb Nat.eqb andb rest captures].
  destruct (K (mkState s caps)); try reflexivity.
  unfold skipNode at 1.
  change (compile n (Disjunction stringPattern (CharClass true [Single dquote]))
            ?x ?d)
    with (match compile n stringPattern x d with
          | Failure => compile n (CharClass true [Single dquote]) x d
          | z => z
          end).
  rewrite stringPattern_run.
  destruct s as [|a tl]; [reflexivity|].
  rewrite compile_CharClass_cons, class_notQuote.
  destruct (Ascii.eqb a dquote) eqn:Ha; cbn [negb].
  - rewrite pathSearch_string.
    destruct (stringBody tl) as [r|] eqn:Hr; [|reflexivity].
    apply stringBody_shorter in Hr. cbn [rest].
    rewrite progress_check by (simpl; lia).
    rewrite (IH (length r)) by (simpl in *; lia || reflexivity).
    apply orelse_failure.
  - cbn [rest]. rewrite progress_check by (simpl; lia).
    apply (IH (length tl)); simpl in *; lia || reflexivity.
Qed.

(** *** The whole pattern *)

Lemma scanDigits_digits s d r : scanDigits s = Some (d, r) -> digits d.
Proof. intros H. apply scanDigits_split in H. split; tauto. Qed.

Lemma scanFrac_split s frac r :
  scanFrac s = (frac, r) ->
  s = match frac with Some f => "."%char :: f | None => [] end ++ r
  /\ (forall f, frac = Some f -> digits f).
Proof.
  unfold scanFrac. intros H.
  assert (Hnone : (None, s) = (frac, r) ->
    s = match frac with Some f => "."%char :: f | None => [] end ++ r
    /\ (forall f, frac = Some f -> digits f)).
  { intros E. inversion E; subst. split; [reflexivity | discriminate]. }
  destruct s as [|a tl]; [now apply Hnone|].
  destruct (Ascii.eqb a ".") eqn:Ha.
  - apply Ascii.eqb_eq in Ha. subst a.
    destruct (scanDigits tl) as [[f r']|] eqn:Hd; [|now apply Hnone].
    inversion H; subst. split.
    + apply scanDigits_split in Hd. destruct Hd as (-> & _). reflexivity.
    + intros f' E. inversion E; subst. eapply scanDigits_digits; eauto.
  - destruct a as [[] [] [] [] [] [] [] []]; try discriminate Ha;
      now apply Hnone.
Qed.

Lemma scanExp_split s e r :
  scanExp s = Some (e, r) ->
  s = e ++ r
  /\ exists es d, e = es ++ d
       /\ (es = [] \/ es = lit "+" \/ es = lit "-") /\ digits d.
Proof.
  unfold scanExp. intros H.
  assert (Hplain : forall s1 es,
    match scanDigits s1 with
    | Some (d, r0) => Some (es ++ d, r0)
    | None => None
    end = Some (e, r) ->
    es ++ s1 = e ++ r /\ exists d, e = es ++ d /\ digits d).
  { intros s1 es E. destruct (scanDigits s1) as [[d r0]|] eqn:Hd;
      [|discriminate].
    inversion E; subst. pose proof (scanDigits_digits _ _ _ Hd) as Hdig.
    apply scanDigits_split in Hd. destruct Hd as (-> & _).
    split; [now rewrite app_assoc | now exists d]. }
  destruct s as [|a tl].
  - apply (Hplain [] []) in H. destruct H as (H1 & d & H2 & H3).
    split; [exact H1|]. exists [], d. tauto.
  - destruct (isExpSign a) eqn:Ha.
    + apply (Hplain tl [a]) in H. destruct H as (H1 & d & H2 & H3).
      split; [exact H1|]. exists [a], d.
      split; [exact H2|]. split; [|exact H3].
      right. destruct (expSign_cases a Ha) as [-> | ->]; auto.
    + apply (Hplain (a :: tl) []) in H. destruct H as (H1 & d & H2 & H3).
      split; [exact H1|]. exists [], d. tauto.
Qed.

(** A scanned number is a prefix of the input and is well formed. *)
Lemma scanNumber_split s p r :
  scanNumber s = Some (p, r) -> s = numExp p ++ r /\ WellFormed p.
Proof.
  unfold scanNumber. intros H.
  destruct (scanSign s) as [sign s1] eqn:Hs.
  destruct (scanDigits s1) as [[int s2]|] eqn:Hi; [|discriminate].
  destruct (scanFrac s2) as [frac s3] eqn:Hf.
  destruct s3 as [|m s4]; [discriminate|].
  destruct (isExpMarker m) eqn:Hm; [|discriminate].
  destruct (scanExp s4) as [[e r']|] eqn:He; [|discriminate].
  inversion H; subst. clear H.
  pose proof (scanDigits_digits _ _ _ Hi) as Hint.
  apply scanDigits_split in Hi. destruct Hi as (Hs1 & _).
  apply scanFrac_split in Hf. destruct Hf as (Hs2 & Hfrac).
  apply scanExp_split in He. destruct He as (Hs4 & Hexp).
  assert (Hsign : s = sign ++ s1 /\ (sign = [] \/ sign = lit "-")).
  { unfold scanSign in Hs. destruct s as [|a tl].
    - inversion Hs; subst. auto.
    - destruct (Ascii.eqb a "-") eqn:Ha.
      + apply Ascii.eqb_eq in Ha. subst a. inversion Hs; subst. auto.
      + destruct a as [[] [] [] [] [] [] [] []]; try discriminate Ha;
          inversion Hs; subst; auto. }
  destruct Hsign as (Hs0 & Hsign).
  split.
  - unfold numExp. cbn [signPart intPart fracPart marker expPart].
    rewrite Hs0, Hs1, Hs2, Hs4. rewrite <- !app_assoc. reflexivity.
  - unfold WellFormed. cbn [signPart intPart fracPart marker expPart].
    split; [exact Hsign|]. split; [exact Hint|].
    split; [exact Hfrac|]. split; [exact Hm | exact Hexp].
Qed.

Lemma numberCont_run n s0 pre s caps :
  s0 = pre ++ s ->
  numberCont n s0 (mkState s caps) =
  match scanNumber s with
  | Some (p, r) => Matched (mkState r (finalCaptures (mkToken pre p) caps))
  | None => Failure
  end.
Proof.
  intros ->. unfold numberCont. cbn [rest captures].
  rewrite firstn_consumed, compile_Group.
  rewrite number_run by discriminate.
  destruct (scanNumber s) as [[p r]|] eqn:Hp; [|reflexivity].
  apply scanNumber_split in Hp. destruct Hp as (-> & _).
  cbn [rest captures]. now rewrite firstn_consumed.
Qed.

Lemma pathSearch_scan n s0 caps :
  forall s b pre,
    s0 = pre ++ s ->
    pathSearch (numberCont n s0) caps b s =
    match scan b s with
    | Some (t, r) =>
      Matched (mkState r
                 (finalCaptures (mkToken (pre ++ prefix t) (parts t)) caps))
    | None => Failure
    end.
Proof.
  intros s. remember (length s) as len eqn:Hlen.
  revert s Hlen. induction len as [len IH] using lt_wf_ind.
  intros s Hlen b pre Hs0. subst len.
  assert (Hstep : forall l tl b',
            s = l ++ tl -> l <> [] ->
            pathSearch (numberCont n s0) caps b' tl =
            match consPrefix l (scan b' tl) with
            | Some (t, r) =>
              Matched (mkState r
                (finalCaptures (mkToken (pre ++ prefix t) (parts t)) caps))
            | None => Failure
            end).
  { intros l tl b' Hs Hl.
    rewrite (IH (length tl)) with (pre := pre ++ l); try reflexivity.
    - destruct (scan b' tl) as [[t r]|]; [|reflexivity].
      cbn [consPrefix prefix parts]. now rewrite app_assoc.
    - subst s. rewrite length_app. destruct l; [congruence|simpl; lia].
    - subst s. now rewrite <- app_assoc. }
  destruct b.
  - destruct s as [|a tl]; [reflexivity|]. cbn [pathSearch scan].
    destruct (Ascii.eqb a dquote).
    { now apply (Hstep [a]). }
    destruct (Ascii.eqb a backslash).
    + destruct tl as [|e tl1]; [reflexivity|].
      destruct (isEscape e).
      { now apply (Hstep [a; e]). }
      destruct (Ascii.eqb e "u"); [|reflexivity].
      destruct tl1 as [|h1 [|h2 [|h3 [|h4 tl2]]]]; try reflexivity.
      destruct (isHex h1 && isHex h2 && isHex h3 && isHex h4);
        [|reflexivity].
      now apply (Hstep [a; e; h1; h2; h3; h4]).
    + destruct (isStringChar a); [|reflexivity].
      now apply (Hstep [a]).
  - rewrite pathSearch_outside, (numberCont_run n s0 pre s caps Hs0).
    replace (scan false s) with
      (match scanNumber s with
       | Some (p, r) => Some (mkToken [] p, r)
       | None => match s with
                 | [] => None
                 | a :: tl => consPrefix [a] (scan (Ascii.eqb a dquote) tl)
                 end
       end) by (destruct s; reflexivity).
    destruct (scanNumber s) as [[p r]|].
    + cbn [prefix parts]. now rewrite app_nil_r.
    + destruct s as [|a tl]; [reflexivity|].
      now apply (Hstep [a]).
Qed.

(** The pattern of [jsonWithNumberExpRE], run from any position, finds
    what the scanner finds. *)
Theorem pattern_run n s caps :
  compile n jsonWithNumberExpPattern (mkState s caps) Matched =
  match firstMatch s with
  | Some (t, r) => Matched (mkState r (finalCaptures t caps))
  | None => Failure
  end.
Proof.
  unfold jsonWithNumberExpPattern.
  rewrite compile_Seq, compile_Group. unfold LazyStar.
  rewrite compile_Quantified. cbn [rest captures].
  change (groupsOf (Disjunction stringPattern (CharClass true [Single dquote])))
    with (@nil nat).
  change (Disjunction stringPattern (CharClass true [Single dquote]))
    with skipNode.
  rewrite (lazy_run n (numberCont n s)) by lia.
  rewrite (pathSearch_scan n s caps s false []) by reflexivity.
  unfold firstMatch.
  destruct (scan false s) as [[[pre p] r]|]; reflexivity.
Qed.

(** ** The scanner's matches are pieces of the input *)

Lemma scan_split : forall s b t r,
  scan b s = Some (t, r) -> s = matched t ++ r.
Proof.
  intros s. remember (length s) as len eqn:Hlen.
  revert s Hlen. induction len as [len IH] using lt_wf_ind.
  intros s Hlen b t r H. subst len.
  assert (Hstep : forall l tl b',
            s = l ++ tl -> l <> [] ->
            consPrefix l (scan b' tl) = Some (t, r) ->
            s = matched t ++ r).
  { intros l tl b' Hs Hl Hc.
    destruct (scan b' tl) as [[t' r']|] eqn:Ht; [|discriminate].
    cbn [consPrefix] in Hc. inversion Hc; subst t r. clear Hc.
    apply (IH (length tl)) in Ht; try reflexivity.
    - subst s. rewrite Ht at 1. unfold matched. cbn [prefix parts].
      now rewrite <- !app_assoc.
    - subst s. rewrite length_app. destruct l; [congruence|simpl; lia]. }
  destruct b.
  - destruct s as [|a tl]; [discriminate|]. cbn [scan] in H.
    destruct (Ascii.eqb a dquote).
    { now apply (Hstep [a] tl false). }
    destruct (Ascii.eqb a backslash).
    + destruct tl as [|e tl1]; [discriminate|].
      destruct (isEscape e).
      { now apply (Hstep [a; e] tl1 true). }
      destruct (Ascii.eqb e "u"); [|discriminate].
      destruct tl1 as [|h1 [|h2 [|h3 [|h4 tl2]]]]; try discriminate.
      destruct (isHex h1 && isHex h2 && isHex h3 && isHex h4);
        [|discriminate].
      now apply (Hstep [a; e; h1; h2; h3; h4] tl2 true).
    + destruct (isStringChar a); [|discriminate].
      now apply (Hstep [a] tl true).
  - assert (H' : match scanNumber s with
                 | Some (p, r) => Some (mkToken [] p, r)
                 | None =>
                   match s with
                   | [] => None
                   | a :: tl => consPrefix [a] (scan (Ascii.eqb a dquote) tl)
                   end
                 end = Some (t, r)) by (destruct s; exact H).
    destruct (scanNumber s) as [[p r']|] eqn:Hp.
    + inversion H'; subst. apply scanNumber_split in Hp. tauto.
    + destruct s as [|a tl]; [discriminate|].
      now apply (Hstep [a] tl (Ascii.eqb a dquote)).
Qed.

Lemma numExp_nonempty p : numExp p <> [].
Proof.
  unfold numExp. intros H.
  apply app_eq_nil in H. destruct H as [_ H].
  apply app_eq_nil in H. destruct H as [_ H].
  apply app_eq_nil in H. destruct H as [_ H]. discriminate.
Qed.

Lemma matched_nonempty t : matched t <> [].
Proof.
  unfold matched. intros H. apply app_eq_nil in H.
  now apply (numExp_nonempty (parts t)).
Qed.

(** ** [exec] on [jsonWithNumberExpRE] *)

Lemma skipn_length_le {A} (l : list A) i :
  length l < i -> skipn i l = [].
Proof. intros H. apply skipn_all2. lia. Qed.

Theorem exec_run input i :
  RegExpBuiltinExec (jsonWithNumberExpRE i) input =
  match firstMatch (skipn i input) with
  | Some (t, r) =>
    (ExecMatch (mkExec i (tokenElements t)),
     jsonWithNumberExpRE (i + length (matched t)))
  | None => (ExecNull, jsonWithNumberExpRE 0)
  end.
Proof.
  unfold RegExpBuiltinExec.
  cbn [jsonWithNumberExpRE flagGlobal flagSticky lastIndex orb].
  destruct (Nat.ltb (length input) i) eqn:Hi.
  - apply Nat.ltb_lt in Hi.
    replace (length input + 1 - i) with 0 by lia.
    rewrite skipn_length_le by exact Hi. reflexivity.
  - apply Nat.ltb_ge in Hi.
    replace (length input + 1 - i) with (S (length input - i)) by lia.
    cbn [execLoop jsonWithNumberExpRE flagGlobal flagSticky orb].
    unfold matchAt. cbn [pattern nGroups].
    rewrite pattern_run.
    destruct (firstMatch (skipn i input)) as [[t r]|] eqn:Ht; [|reflexivity].
    apply scan_split in Ht. cbn [rest captures].
    assert (Hlen : length input - length r = i + length (matched t)).
    { assert (H := f_equal (@length ascii) Ht).
      rewrite length_skipn, length_app in H. lia. }
    rewrite Hlen, Ht.
    replace (i + length (matched t) - i) with (length (matched t)) by lia.
    replace (length (matched t))
      with (length (matched t ++ r) - length r) at 1
      by (rewrite length_app; lia).
    rewrite firstn_consumed.
    unfold setLastIndex. cbn [pattern nGroups flagGlobal flagSticky].
    unfold tokenElements, finalCaptures, numberCaptures.
    destruct (fracPart (parts t)); reflexivity.
Qed.

(** ** The pattern of line 64 *)

Lemma lookaheadDigit_run n s caps :
  lookaheadDigit n (mkState s caps) =
  match s with
  | a :: _ => if isDigit a then Matched (mkState s caps) else Failure
  | [] => Failure
  end.
Proof.
  unfold lookaheadDigit. cbn [compile digitClass rest captures].
  destruct s as [|a tl]; [reflexivity|].
  rewrite class_digit. destruct (isDigit a); reflexivity.
Qed.

Lemma stripLeadingZeros_cons a tl :
  stripLeadingZeros (a :: tl) =
  if Ascii.eqb "0" a then
    match tl with
    | c :: _ => if isDigit c then stripLeadingZeros tl else a :: tl
    | [] => a :: tl
    end
  else a :: tl.
Proof.
  destruct (Ascii.eqb "0" a) eqn:Ha.
  - apply Ascii.eqb_eq in Ha. subst a. reflexivity.
  - destruct a as [[] [] [] [] [] [] [] []]; try discriminate Ha;
      reflexivity.
Qed.

(** After a first zero: the zeros that follow are taken as long as a digit
    comes after them. *)
Lemma zeros_run n : forall tl fuel caps,
  length tl + 1 <= fuel ->
  repeatMatcher fuel (compile n (Char "0")) 0 None true []
    (mkState tl caps) (lookaheadDigit n) =
  match tl with
  | a :: _ =>
    if isDigit a then Matched (mkState (stripLeadingZeros tl) caps)
    else Failure
  | [] => Failure
  end.
Proof.
  induction tl as [|a tl IH]; intros fuel caps Hfuel;
    (destruct fuel as [|fuel]; [simpl in Hfuel; lia|]);
    rewrite repeatMatcher_unbounded; cbv zeta;
    cbn [negb Nat.eqb andb rest captures].
  - reflexivity.
  - rewrite compile_Char_cons, lookaheadDigit_run, stripLeadingZeros_cons.
    destruct (Ascii.eqb "0" a) eqn:Ha.
    + cbn [rest]. rewrite progress_check by (simpl; lia).
      rewrite IH by (simpl in Hfuel; lia).
      apply Ascii.eqb_eq in Ha. subst a. cbn [isDigit].
      destruct tl as [|b tl']; [reflexivity|].
      destruct (isDigit b); reflexivity.
    + destruct (isDigit a); reflexivity.
Qed.

Lemma stripLeadingZeros_suffix : forall s,
  exists k, stripLeadingZeros s = skipn k s /\ k <= length s.
Proof.
  induction s as [|a tl IH].
  - exists 0. split; [reflexivity | simpl; lia].
  - rewrite stripLeadingZeros_cons.
    destruct (Ascii.eqb "0" a); [|exists 0; split; [reflexivity|lia]].
    destruct tl as [|c tl']; [exists 0; split; [reflexivity|lia]|].
    destruct (isDigit c); [|exists 0; split; [reflexivity|lia]].
    destruct IH as (k & Hk & Hle). exists (S k).
    split; [exact Hk | simpl in *; lia].
Qed.

(** The attempts of [exec] after the first: [^] rejects them all. *)
Lemma leadingZeros_later input : forall tries i,
  1 <= i -> i + tries <= length input + 1 ->
  execLoop leadingZerosRE input tries i = (ExecNull, leadingZerosRE).
Proof.
  induction tries as [|tries IH]; intros i Hi Hle; [reflexivity|].
  cbn [execLoop leadingZerosRE flagGlobal flagSticky orb].
  unfold matchAt.
  cbn [pattern leadingZerosRE Seqs compile rest].
  rewrite length_skipn.
  replace (length input - i =? length input) with false
    by (symmetry; apply Nat.eqb_neq; lia).
  apply IH; lia.
Qed.

Lemma leadingZeros_match n s caps :
  compile n (Seq (Plus (Char "0")) (Lookahead digitClass))
    (mkState s caps) Matched =
  match s with
  | a :: c :: _ =>
    if Ascii.eqb "0" a && isDigit c
    then Matched (mkState (stripLeadingZeros s) caps) else Failure
  | _ => Failure
  end.
Proof.
  rewrite compile_Seq. unfold Plus. rewrite compile_Quantified.
  change (fun y => compile n (Lookahead digitClass) y Matched)
    with (lookaheadDigit n).
  cbn [rest groupsOf Nat.add]. rewrite Nat.add_1_r.
  rewrite repeatMatcher_unbounded. cbv zeta.
  cbn [negb Nat.eqb andb pred rest captures].
  destruct s as [|a tl]; [reflexivity|].
  rewrite compile_Char_cons, stripLeadingZeros_cons.
  destruct (Ascii.eqb "0" a); [|destruct tl; reflexivity].
  rewrite zeros_run by (cbn [length]; lia).
  destruct tl as [|c tl']; [reflexivity|].
  destruct (isDigit c); reflexivity.
Qed.

Lemma stripLeadingZeros_unchanged s :
  match s with
  | a :: c :: _ => Ascii.eqb "0" a && isDigit c
  | _ => false
  end = false ->
  stripLeadingZeros s = s.
Proof.
  destruct s as [|a tl]; [reflexivity|]. rewrite stripLeadingZeros_cons.
  destruct (Ascii.eqb "0" a); [|reflexivity].
  destruct tl as [|c tl']; [reflexivity|].
  cbn [andb]. now intros ->.
Qed.

Theorem leadingZeros_exec input :
  RegExpBuiltinExec leadingZerosRE input =
  (if Nat.eqb (length (stripLeadingZeros input)) (length input)
   then ExecNull
   else ExecMatch
          (mkExec 0
             [Some (firstn (length input - length (stripLeadingZeros input))
                      input)]),
   leadingZerosRE).
Proof.
  unfold RegExpBuiltinExec.
  cbn [leadingZerosRE flagGlobal flagSticky orb].
  rewrite Nat.sub_0_r, Nat.add_1_r.
  cbn [execLoop leadingZerosRE flagGlobal flagSticky orb].
  unfold matchAt. cbn [pattern leadingZerosRE Seqs nGroups skipn].
  rewrite compile_Seq.
  change (compile ?n AssertStart ?x ?k)
    with (if length (rest x) =? n then k x else Failure).
  cbn [rest]. rewrite Nat.eqb_refl, leadingZeros_match.
  destruct (match input with
            | a :: c :: _ => Ascii.eqb "0" a && isDigit c
            | _ => false
            end) eqn:Hm.
  - destruct input as [|a [|c tl']]; try discriminate Hm.
    rewrite Hm. cbn [rest captures repeat Nat.add setNth].
    destruct (stripLeadingZeros_suffix (c :: tl')) as (k & Hk & Hle).
    assert (Hs : stripLeadingZeros (a :: c :: tl')
                 = stripLeadingZeros (c :: tl')).
    { rewrite stripLeadingZeros_cons.
      apply andb_true_iff in Hm. destruct Hm as [-> ->]. reflexivity. }
    rewrite Hs.
    replace (length (stripLeadingZeros (c :: tl')) =? length (a :: c :: tl'))
      with false.
    { now rewrite Nat.sub_0_r. }
    symmetry. apply Nat.eqb_neq. rewrite Hk, length_skipn.
    cbn [length]. lia.
  - assert (Hfail : match input with
                    | a :: c :: _ =>
                      if Ascii.eqb "0" a && isDigit c
                      then Matched (mkState (stripLeadingZeros input)
                                      (repeat None (0 + 1)))
                      else Failure
                    | _ => Failure
                    end = Failure).
    { destruct input as [|a [|c tl']]; try reflexivity. now rewrite Hm. }
    rewrite Hfail.
    rewrite (stripLeadingZeros_unchanged input Hm), Nat.eqb_refl.
    destruct input as [|a tl]; [reflexivity|].
    apply leadingZeros_later; simpl; lia.
Qed.

Lemma stripLeadingZeros_skipn s :
  skipn (length s - length (stripLeadingZeros s)) s = stripLeadingZeros s.
Proof.
  destruct (stripLeadingZeros_suffix s) as (k & Hk & Hle).
  rewrite Hk at 1. rewrite length_skipn.
  replace (length s - (length s - k)) with k by lia. now rewrite Hk.
Qed.

(** Line 64: [unsigned.replace(/^0+(?=[0-9])/, '')]. *)
Theorem leadingZeros_replace unsigned :
  fst (String_replace (fun R => R) (fun R _ => R) unsigned
         (fun _ _ R => (Normal (lit ""), R)) leadingZerosRE)
  = Normal (stripLeadingZeros unsigned).
Proof.
  unfold String_replace, RegExpReplace.
  cbn [leadingZerosRE flagGlobal].
  rewrite Nat.add_succ_r. cbn [collectMatches].
  rewrite leadingZeros_exec.
  destruct (length (stripLeadingZeros unsigned) =? length unsigned) eqn:E.
  - cbn [substitute fst skipn app]. f_equal.
    rewrite <- stripLeadingZeros_skipn. apply Nat.eqb_eq in E.
    now rewrite E, Nat.sub_diag.
  - cbn [leadingZerosRE flagGlobal negb substitute element elements nth
         index lit list_ascii_of_string fst].
    rewrite Nat.min_0_l. cbn [Nat.leb Nat.sub firstn app Nat.add skipn].
    rewrite length_firstn.
    rewrite Nat.min_l by lia.
    cbn [fst]. f_equal.
    apply stripLeadingZeros_skipn.
Qed.

End PatternFacts.

(** * The replace loop on [jsonWithNumberExpRE] *)

Module ReplaceFacts.

Import Aux MatcherFacts Scanner Grammar PatternFacts.

Lemma firstMatch_split s t r :
  firstMatch s = Some (t, r) -> s = matched t ++ r.
Proof. apply scan_split. Qed.

Lemma firstMatch_shorter s t r :
  firstMatch s = Some (t, r) -> length r < length s.
Proof.
  intros H. apply firstMatch_split in H. subst s. rewrite length_app.
  pose proof (matched_nonempty t). destruct (matched t); [congruence|].
  simpl. lia.
Qed.

Lemma Tokens_total : forall s, exists ts suffix, Tokens s ts suffix.
Proof.
  intros s. remember (length s) as len eqn:Hlen.
  revert s Hlen. induction len as [len IH] using lt_wf_ind.
  intros s Hlen. subst len.
  destruct (firstMatch s) as [[t r]|] eqn:Hm.
  - destruct (IH (length r) (firstMatch_shorter _ _ _ Hm) r eq_refl)
      as (ts & suffix & Hts).
    exists (t :: ts), suffix. now apply Tokens_match with r.
  - exists [], s. now constructor.
Qed.

Lemma Tokens_deterministic s ts1 suffix1 :
  Tokens s ts1 suffix1 ->
  forall ts2 suffix2, Tokens s ts2 suffix2 -> ts1 = ts2 /\ suffix1 = suffix2.
Proof.
  induction 1 as [s Hn | s t r ts suffix Hm Hts IH];
    intros ts2 suffix2 H2; inversion H2; subst; try congruence.
  - auto.
  - assert (E : Some (t, r) = Some (t0, r0)) by congruence.
    inversion E; subst.
    destruct (IH _ _ H0) as [-> ->]. auto.
Qed.

Lemma Tokens_concat s ts suffix :
  Tokens s ts suffix -> s = concat (map matched ts) ++ suffix.
Proof.
  induction 1 as [s Hn | s t r ts suffix Hm Hts IH]; [reflexivity|].
  apply firstMatch_split in Hm. cbn [map concat].
  now rewrite <- app_assoc, <- IH.
Qed.

Lemma skipn_after {A} (l p r : list A) i :
  skipn i l = p ++ r -> skipn (i + length p) l = r.
Proof.
  intros H. rewrite Nat.add_comm, <- skipn_skipn, H.
  rewrite skipn_app, skipn_all, Nat.sub_diag. reflexivity.
Qed.

(** The first loop of the replace algorithm collects the scanner's
    tokens and leaves the cursor at [0]. *)
Lemma collect_run input s ts suffix :
  Tokens s ts suffix ->
  forall i fuel,
    s = skipn i input -> length s + 1 <= fuel ->
    collectMatches fuel (jsonWithNumberExpRE i) input =
    (Some (tokenResults i ts), jsonWithNumberExpRE 0).
Proof.
  induction 1 as [s Hn | s t r ts suffix Hm Hts IH];
    intros i fuel Hs Hfuel; (destruct fuel as [|fuel]; [lia|]);
    cbn [collectMatches]; rewrite exec_run, <- Hs.
  - now rewrite Hn.
  - rewrite Hm. cbn [jsonWithNumberExpRE flagGlobal negb].
    unfold element. cbn [elements tokenElements nth].
    pose proof (firstMatch_shorter _ _ _ Hm) as Hlt.
    apply firstMatch_split in Hm.
    pose proof (matched_nonempty t) as Hne.
    destruct (matched t) as [|c m] eqn:Em; [congruence|].
    rewrite <- Em in *.
    rewrite (IH (i + length (matched t)) fuel).
    + reflexivity.
    + symmetry. apply skipn_after. now rewrite <- Hs.
    + lia.
Qed.

Section Substitute.

Context {St : Type}.
Variable rv : @ReplaceFunction St.
Variable input : str.

Lemma substitute_run s ts suffix :
  Tokens s ts suffix ->
  forall i acc st,
    s = skipn i input -> i <= length input ->
    substitute (tokenResults i ts) input rv acc i st =
    let (c, st') := runTokens rv input i ts st in
    (out <- c ;; Normal (acc ++ out ++ suffix), st').
Proof.
  induction 1 as [s Hn | s t r ts suffix Hm Hts IH];
    intros i acc st Hs Hi.
  - cbn [tokenResults substitute runTokens bind]. now rewrite <- Hs.
  - cbn [tokenResults substitute runTokens].
    unfold element at 1. cbn [toExec elements tokenElements nth index].
    apply firstMatch_split in Hm.
    assert (Hlen : i + length (matched t) <= length input).
    { assert (H := f_equal (@length ascii) Hs).
      rewrite Hm, length_skipn, !length_app in H.
      pose proof (matched_nonempty t).
      destruct (matched t); [congruence|]. simpl in *. lia. }
    rewrite Nat.min_l by lia.
    fold (toExec i t).
    destruct (rv (toExec i t) input st) as [[rep|e|] st1]; try reflexivity.
    rewrite Nat.leb_refl, Nat.sub_diag. cbn [firstn app].
    rewrite (IH (i + length (matched t)) (acc ++ rep) st1).
    + destruct (runTokens rv input (i + length (matched t)) ts st1)
        as [[rs|e|] st2];
        cbn [bind]; try reflexivity.
      now rewrite <- !app_assoc.
    + symmetry. apply skipn_after. now rewrite <- Hs, <- Hm.
    + exact Hlen.
Qed.

End Substitute.

End ReplaceFacts.

(** * The scanner and the grammar *)

Module GrammarFacts.

Import Aux MatcherFacts Scanner Grammar PatternFacts ReplaceFacts.

(** ** String literals *)

Lemma stringBody_complete b :
  StringChars b -> forall r, stringBody (b ++ dquote :: r) = Some r.
Proof.
  induction 1 as [|c s Hc _ IH|e s He _ IH|h1 h2 h3 h4 s H1 H2 H3 H4 _ IH];
    intros r.
  - reflexivity.
  - cbn [app stringBody].
    destruct (stringChar_not_special c Hc) as [-> ->]. rewrite Hc. apply IH.
  - cbn [app stringBody].
    change (Ascii.eqb backslash dquote) with false.
    change (Ascii.eqb backslash backslash) with true.
    cbv iota. rewrite He. apply IH.
  - cbn [app stringBody].
    change (Ascii.eqb backslash dquote) with false.
    change (Ascii.eqb backslash backslash) with true.
    change (isEscape "u") with false.
    change (Ascii.eqb "u" "u") with true.
    cbv iota. rewrite H1, H2, H3, H4. apply IH.
Qed.

Lemma stringBody_sound : forall s r,
  stringBody s = Some r -> exists b, StringChars b /\ s = b ++ dquote :: r.
Proof.
  intros s. remember (length s) as len eqn:Hlen.
  revert s Hlen. induction len as [len IH] using lt_wf_ind.
  intros s Hlen r H. subst len.
  destruct s as [|a tl]; [discriminate|]. cbn [stringBody] in H.
  destruct (Ascii.eqb a dquote) eqn:Hq.
  { inversion H; subst. apply Ascii.eqb_eq in Hq. subst a.
    exists []. split; [constructor | reflexivity]. }
  destruct (Ascii.eqb a backslash) eqn:Hb.
  - apply Ascii.eqb_eq in Hb. subst a.
    destruct tl as [|e tl1]; [discriminate|].
    destruct (isEscape e) eqn:He.
    + apply (IH (length tl1)) in H; [|simpl; lia|reflexivity].
      destruct H as (b & Hsc & ->).
      exists (backslash :: e :: b). split; [now constructor | reflexivity].
    + destruct (Ascii.eqb e "u") eqn:Hu; [|discriminate].
      apply Ascii.eqb_eq in Hu. subst e.
      destruct tl1 as [|h1 [|h2 [|h3 [|h4 tl2]]]]; try discriminate.
      destruct (isHex h1 && isHex h2 && isHex h3 && isHex h4) eqn:Hh;
        [|discriminate].
      apply andb_true_iff in Hh. destruct Hh as [Hh H4].
      apply andb_true_iff in Hh. destruct Hh as [Hh H3].
      apply andb_true_iff in Hh. destruct Hh as [H1 H2].
      apply (IH (length tl2)) in H; [|simpl; lia|reflexivity].
      destruct H as (b & Hsc & ->).
      exists (backslash :: "u"%char :: h1 :: h2 :: h3 :: h4 :: b).
      split; [now constructor | reflexivity].
  - destruct (isStringChar a) eqn:Ha; [|discriminate].
    apply (IH (length tl)) in H; [|simpl; lia|reflexivity].
    destruct H as (b & Hsc & ->).
    exists (a :: b). split; [now constructor | reflexivity].
Qed.

(** Two literals starting at the same place are the same literal. *)
Lemma StringLiteral_unique l1 l2 r1 r2 :
  StringLiteral l1 -> StringLiteral l2 -> l1 ++ r1 = l2 ++ r2 -> l1 = l2.
Proof.
  intros (b1 & H1 & ->) (b2 & H2 & ->) E.
  cbn [app] in E. inversion E as [E']. clear E.
  rewrite <- !app_assoc in E'. cbn [app] in E'.
  pose proof (stringBody_complete b1 H1 r1) as S1.
  pose proof (stringBody_complete b2 H2 r2) as S2.
  rewrite E' in S1. rewrite S1 in S2. inversion S2; subst r2.
  apply app_inv_tail in E'. now subst.
Qed.

Lemma StringLiteral_head l : StringLiteral l -> exists tl, l = dquote :: tl.
Proof. intros (b & _ & ->). eauto. Qed.

Lemma StringLiteral_last l :
  StringLiteral l -> exists body, l = body ++ [dquote].
Proof. intros (b & _ & ->). exists (dquote :: b). reflexivity. Qed.

(** ** Soundness: what the scanner skips is skippable *)

Lemma consPrefix_some l b tl t r :
  consPrefix l (scan b tl) = Some (t, r) ->
  exists t', scan b tl = Some (t', r) /\ prefix t = l ++ prefix t'
             /\ parts t = parts t'.
Proof.
  destruct (scan b tl) as [[t' r']|]; [|discriminate].
  cbn [consPrefix]. intros H. inversion H; subst. eauto.
Qed.

Lemma scan_outside s :
  scan false s =
  match scanNumber s with
  | Some (p, r) => Some (mkToken [] p, r)
  | None =>
    match s with
    | [] => None
    | a :: tl => consPrefix [a] (scan (Ascii.eqb a dquote) tl)
    end
  end.
Proof. destruct s; reflexivity. Qed.

Lemma scan_sound : forall s b t r,
  scan b s = Some (t, r) ->
  WellFormed (parts t) /\
  if b then exists body after,
              prefix t = body ++ dquote :: after
              /\ StringChars body /\ Skippable after
  else Skippable (prefix t).
Proof.
  intros s. remember (length s) as len eqn:Hlen.
  revert s Hlen. induction len as [len IH] using lt_wf_ind.
  intros s Hlen b t r H. subst len.
  destruct b.
  - destruct s as [|a tl]; [discriminate|]. cbn [scan] in H.
    destruct (Ascii.eqb a dquote) eqn:Hq.
    { apply Ascii.eqb_eq in Hq. subst a.
      apply consPrefix_some in H. destruct H as (t' & H & Hp & Hparts).
      apply (IH (length tl)) in H; [|simpl; lia|reflexivity].
      destruct H as [Hwf Hskip]. rewrite Hparts. split; [exact Hwf|].
      exists [], (prefix t'). rewrite Hp.
      split; [reflexivity|]. split; [constructor | exact Hskip]. }
    destruct (Ascii.eqb a backslash) eqn:Hb.
    + apply Ascii.eqb_eq in Hb. subst a.
      destruct tl as [|e tl1]; [discriminate|].
      destruct (isEscape e) eqn:He.
      * apply consPrefix_some in H. destruct H as (t' & H & Hp & Hparts).
        apply (IH (length tl1)) in H; [|simpl; lia|reflexivity].
        destruct H as [Hwf (body & after & Hpre & Hbody & Hskip)].
        rewrite Hparts. split; [exact Hwf|].
        exists (backslash :: e :: body), after. rewrite Hp, Hpre.
        split; [reflexivity|]. split; [now constructor | exact Hskip].
      * destruct (Ascii.eqb e "u") eqn:Hu; [|discriminate].
        apply Ascii.eqb_eq in Hu. subst e.
        destruct tl1 as [|h1 [|h2 [|h3 [|h4 tl2]]]]; try discriminate.
        destruct (isHex h1 && isHex h2 && isHex h3 && isHex h4) eqn:Hh;
          [|discriminate].
        apply andb_true_iff in Hh. destruct Hh as [Hh H4].
        apply andb_true_iff in Hh. destruct Hh as [Hh H3].
        apply andb_true_iff in Hh. destruct Hh as [H1 H2].
        apply consPrefix_some in H. destruct H as (t' & H & Hp & Hparts).
        apply (IH (length tl2)) in H; [|simpl; lia|reflexivity].
        destruct H as [Hwf (body & after & Hpre & Hbody & Hskip)].
        rewrite Hparts. split; [exact Hwf|].
        exists (backslash :: "u"%char :: h1 :: h2 :: h3 :: h4 :: body), after.
        rewrite Hp, Hpre.
        split; [reflexivity|]. split; [now constructor | exact Hskip].
    + destruct (isStringChar a) eqn:Ha; [|discriminate].
      apply consPrefix_some in H. destruct H as (t' & H & Hp & Hparts).
      apply (IH (length tl)) in H; [|simpl; lia|reflexivity].
      destruct H as [Hwf (body & after & Hpre & Hbody & Hskip)].
      rewrite Hparts. split; [exact Hwf|].
      exists (a :: body), after. rewrite Hp, Hpre.
      split; [reflexivity|]. split; [now constructor | exact Hskip].
  - rewrite scan_outside in H.
    destruct (scanNumber s) as [[p r']|] eqn:Hn.
    + inversion H; subst. cbn [parts prefix].
      apply scanNumber_split in Hn. split; [tauto | constructor].
    + destruct s as [|a tl]; [discriminate|].
      apply consPrefix_some in H. destruct H as (t' & H & Hp & Hparts).
      apply (IH (length tl)) in H; [|simpl; lia|reflexivity].
      destruct H as [Hwf Hskip]. rewrite Hparts. split; [exact Hwf|].
      rewrite Hp. destruct (Ascii.eqb a dquote) eqn:Hq.
      * apply Ascii.eqb_eq in Hq. subst a.
        destruct Hskip as (body & after & Hpre & Hbody & Hskip).
        rewrite Hpre.
        change ([dquote] ++ body ++ dquote :: after)
          with (dquote :: body ++ [dquote] ++ after).
        rewrite app_assoc.
        change (dquote :: (body ++ [dquote]) ++ after)
          with ((dquote :: body ++ [dquote]) ++ after).
        apply Skip_string; [|exact Hskip]. now exists body.
      * apply Ascii.eqb_neq in Hq. now apply Skip_char.
Qed.

(** Every match begins after skippable text and is a well-formed number. *)
Theorem firstMatch_sound s t r :
  firstMatch s = Some (t, r) ->
  s = prefix t ++ numExp (parts t) ++ r
  /\ Skippable (prefix t) /\ WellFormed (parts t).
Proof.
  intros H. pose proof (scan_sound s false t r H) as [Hwf Hskip].
  apply firstMatch_split in H. unfold matched in H.
  rewrite <- app_assoc in H. auto.
Qed.

(** ** Completeness: a number outside of strings is found *)

Lemma consPrefix_app l1 l2 x :
  consPrefix l1 (consPrefix l2 x) = consPrefix (l1 ++ l2) x.
Proof.
  destruct x as [[t r]|]; [|reflexivity].
  cbn [consPrefix prefix parts]. now rewrite app_assoc.
Qed.

Lemma consPrefix_none l x : consPrefix l x = None -> x = None.
Proof. destruct x as [[t r]|]; [discriminate | reflexivity]. Qed.

Lemma scan_string_complete b :
  StringChars b ->
  forall r, scan true (b ++ dquote :: r)
            = consPrefix (b ++ [dquote]) (scan false r).
Proof.
  induction 1 as [|c s Hc _ IH|e s He _ IH|h1 h2 h3 h4 s H1 H2 H3 H4 _ IH];
    intros r.
  - reflexivity.
  - cbn [app scan].
    destruct (stringChar_not_special c Hc) as [-> ->]. rewrite Hc.
    rewrite IH. apply consPrefix_app.
  - cbn [app scan].
    change (Ascii.eqb backslash dquote) with false.
    change (Ascii.eqb backslash backslash) with true.
    cbv iota. rewrite He, IH. apply consPrefix_app.
  - cbn [app scan].
    change (Ascii.eqb backslash dquote) with false.
    change (Ascii.eqb backslash backslash) with true.
    change (isEscape "u") with false.
    change (Ascii.eqb "u" "u") with true.
    cbv iota. rewrite H1, H2, H3, H4, IH. apply consPrefix_app.
Qed.

Lemma takeWhile_app_stop P d r :
  forallb P d = true ->
  match r with a :: _ => P a = false | [] => True end ->
  takeWhile P (d ++ r) = d /\ dropWhile P (d ++ r) = r.
Proof.
  intros Hd Hr. induction d as [|a d IH].
  - destruct r as [|a r]; [auto|]. simpl. now rewrite Hr.
  - simpl in Hd. apply andb_true_iff in Hd. destruct Hd as [Ha Hd].
    simpl. rewrite Ha. destruct (IH Hd) as [-> ->]. auto.
Qed.

Lemma scanDigits_app_stop d r :
  digits d ->
  match r with a :: _ => isDigit a = false | [] => True end ->
  scanDigits (d ++ r) = Some (d, r).
Proof.
  intros [Hne Hd] Hr. unfold scanDigits.
  destruct (takeWhile_app_stop isDigit d r Hd Hr) as [-> ->].
  destruct d; [congruence | reflexivity].
Qed.

Lemma scanDigits_app_some d r :
  digits d -> scanDigits (d ++ r) <> None.
Proof.
  intros [Hne Hd]. unfold scanDigits.
  destruct d as [|a d]; [congruence|].
  simpl in Hd. apply andb_true_iff in Hd. destruct Hd as [Ha _].
  simpl. rewrite Ha. discriminate.
Qed.

Lemma digits_head d :
  digits d -> exists a tl, d = a :: tl /\ isDigit a = true.
Proof.
  intros [Hne Hd]. destruct d as [|a tl]; [congruence|].
  simpl in Hd. apply andb_true_iff in Hd. exists a, tl. tauto.
Qed.

Lemma marker_not_digit m :
  isExpMarker m = true -> isDigit m = false /\ Ascii.eqb m "." = false.
Proof. by_cases_on m. Qed.

Lemma scanNumber_complete p post :
  WellFormed p -> scanNumber (numExp p ++ post) <> None.
Proof.
  intros (Hsign & Hint & Hfrac & Hm & es & d & Hexp & Hes & Hd).
  destruct p as [sign int frac m e]. cbn in *. subst e.
  unfold numExp, scanNumber.
  cbn [signPart intPart fracPart marker expPart].
  set (tail := m :: (es ++ d)).
  set (fr := match frac with Some f => "."%char :: f | None => [] end).
  assert (Hsc : scanSign ((sign ++ int ++ fr ++ tail) ++ post)
                = (sign, int ++ (fr ++ tail ++ post))).
  { rewrite <- !app_assoc.
    destruct Hsign as [-> | ->]; [|reflexivity].
    destruct (digits_head int Hint) as (a & tl & -> & Ha).
    cbn [app]. unfold scanSign.
    destruct (digit_not_marker a Ha) as (_ & _ & _ & _ & Hminus).
    destruct a as [[] [] [] [] [] [] [] []]; try discriminate Hminus;
      reflexivity. }
  rewrite Hsc.
  assert (Hfr : match fr ++ tail ++ post with
                | a :: _ => isDigit a = false
                | [] => True
                end).
  { unfold fr, tail. destruct frac; [reflexivity|].
    cbn [app]. now destruct (marker_not_digit m Hm). }
  rewrite (scanDigits_app_stop int _ Hint Hfr).
  assert (Hsf : scanFrac (fr ++ tail ++ post) = (frac, tail ++ post)).
  { unfold fr. destruct frac as [f|].
    - cbn [app scanFrac]. unfold tail.
      rewrite (scanDigits_app_stop f); [reflexivity | now apply Hfrac |].
      cbn [app]. now destruct (marker_not_digit m Hm).
    - cbn [app]. unfold tail. cbn [app scanFrac].
      destruct (marker_not_digit m Hm) as [_ Hdot].
      destruct m as [[] [] [] [] [] [] [] []]; try discriminate Hdot;
        reflexivity. }
  rewrite Hsf. unfold tail. cbn [app]. rewrite Hm.
  assert (Hse : scanExp ((es ++ d) ++ post) <> None).
  { rewrite <- app_assoc. unfold scanExp.
    destruct Hes as [-> | [-> | ->]].
    - destruct (digits_head d Hd) as (a & tl & -> & Ha).
      pose proof (scanDigits_app_some (a :: tl) post Hd) as Hsome.
      cbn [app] in Hsome |- *.
      assert (Hs : isExpSign a = false) by (revert Ha; clear; by_cases_on a).
      rewrite Hs.
      destruct (scanDigits (a :: tl ++ post)) as [[? ?]|];
        [discriminate | congruence].
    - cbn [app lit list_ascii_of_string isExpSign Ascii.eqb orb].
      pose proof (scanDigits_app_some d post Hd) as Hsome.
      change (isExpSign "+") with true. cbv iota.
      destruct (scanDigits (d ++ post)) as [[? ?]|];
        [discriminate | congruence].
    - cbn [app lit list_ascii_of_string].
      pose proof (scanDigits_app_some d post Hd) as Hsome.
      change (isExpSign "-") with true. cbv iota.
      destruct (scanDigits (d ++ post)) as [[? ?]|];
        [discriminate | congruence]. }
  destruct (scanExp ((es ++ d) ++ post)) as [[? ?]|];
    [discriminate | congruence].
Qed.

Lemma scanNumber_quote tl : scanNumber (dquote :: tl) = None.
Proof. reflexivity. Qed.

Lemma scan_complete pre :
  Skippable pre ->
  forall tok post, NumberExpText tok -> scan false (pre ++ tok ++ post) <> None.
Proof.
  induction 1 as [|c s Hc _ IH|l s Hl _ IH]; intros tok post Htok.
  - destruct Htok as (p & Hwf & ->). cbn [app]. rewrite scan_outside.
    pose proof (scanNumber_complete p post Hwf) as Hn.
    destruct (scanNumber (numExp p ++ post)) as [[? ?]|];
      [discriminate | congruence].
  - cbn [app]. rewrite scan_outside.
    destruct (scanNumber (c :: s ++ tok ++ post)) as [[? ?]|];
      [discriminate|].
    apply Ascii.eqb_neq in Hc. rewrite Hc.
    intros E. apply consPrefix_none in E. now apply (IH tok post).
  - destruct Hl as (b & Hb & ->). cbn [app].
    rewrite scan_outside, scanNumber_quote.
    change (Ascii.eqb dquote dquote) with true.
    rewrite <- !app_assoc. cbn [app].
    rewrite (scan_string_complete b Hb).
    intros E. apply consPrefix_none, consPrefix_none in E.
    now apply (IH tok post).
Qed.

(** The scanner finds a match exactly when the input has a number in
    exponential notation outside of its strings. *)
Theorem firstMatch_iff s :
  firstMatch s <> None <-> HasExponentialOutsideStrings s.
Proof.
  split.
  - intros H. destruct (firstMatch s) as [[t r]|] eqn:Hm; [|congruence].
    apply firstMatch_sound in Hm. destruct Hm as (Hs & Hskip & Hwf).
    exists (prefix t), (numExp (parts t)), r.
    split; [exact Hs|]. split; [exact Hskip|]. now exists (parts t).
  - intros (pre & tok & post & -> & Hskip & Htok).
    now apply scan_complete.
Qed.

(** ** A match never lies within a string literal *)

Lemma Skippable_app p q : Skippable p -> Skippable q -> Skippable (p ++ q).
Proof.
  induction 1 as [|c s Hc _ IH|l s Hl _ IH]; intros Hq.
  - exact Hq.
  - cbn [app]. apply Skip_char; auto.
  - rewrite <- app_assoc. apply Skip_string; auto.
Qed.

Lemma Skippable_plain s :
  Forall (fun c => c <> dquote) s -> Skippable s.
Proof. induction 1; constructor; auto. Qed.

Lemma app_eq_same_length {A} (a b c d : list A) :
  a ++ b = c ++ d -> length a = length c -> a = c /\ b = d.
Proof.
  revert c. induction a as [|x a IH]; intros [|y c] E L;
    try discriminate L.
  - auto.
  - cbn [app] in E. inversion E; subst.
    destruct (IH c) as [-> ->]; auto.
Qed.

(** Skippable text cannot end strictly inside a literal that begins where
    skippable text ends. *)
Lemma Skippable_boundary p1 :
  Skippable p1 ->
  forall p2 l post r2,
    Skippable p2 -> StringLiteral l ->
    p1 ++ l ++ post = p2 ++ r2 ->
    length p1 < length p2 ->
    length p1 + length l <= length p2.
Proof.
  induction 1 as [|c s Hc Hs IH|l1 s Hl1 Hs IH];
    intros p2 l post r2 Hp2 Hl E Hlt.
  - cbn [app length] in *.
    destruct Hp2 as [|c' s' Hc' Hs'|l' s' Hl' Hs'].
    + simpl in Hlt. lia.
    + destruct (StringLiteral_head l Hl) as (tl & ->).
      cbn [app] in E. inversion E. congruence.
    + rewrite <- app_assoc in E.
      apply (StringLiteral_unique l l') in E; auto.
      subst l'. rewrite length_app. lia.
  - destruct Hp2 as [|c' s' Hc' Hs'|l' s' Hl' Hs'].
    + simpl in Hlt. lia.
    + cbn [app] in E. inversion E; subst c'.
      cbn [length] in *.
      assert (length s + length l <= length s'); [|lia].
      eapply IH; eauto. lia.
    + destruct (StringLiteral_head l' Hl') as (tl & ->).
      cbn [app] in E. inversion E. congruence.
  - destruct Hp2 as [|c' s' Hc' Hs'|l' s' Hl' Hs'].
    + simpl in Hlt. lia.
    + destruct (StringLiteral_head l1 Hl1) as (tl & ->).
      cbn [app] in E. inversion E. congruence.
    + rewrite <- !app_assoc in E.
      pose proof (StringLiteral_unique l1 l' _ _ Hl1 Hl' E) as ->.
      apply app_inv_head in E.
      rewrite !length_app in *.
      assert (length s + length l <= length s'); [|lia].
      eapply IH; eauto. lia.
Qed.

Lemma digits_no_quote d :
  forallb isDigit d = true -> Forall (fun c => c <> dquote) d.
Proof.
  induction d as [|a d IH]; intros H; constructor.
  - simpl in H. apply andb_true_iff in H. destruct H as [Ha _].
    intros ->. discriminate Ha.
  - simpl in H. apply andb_true_iff in H. tauto.
Qed.

Lemma numExp_no_quote p :
  WellFormed p -> Forall (fun c => c <> dquote) (numExp p).
Proof.
  intros (Hsign & [_ Hint] & Hfrac & Hm & es & d & Hexp & Hes & [_ Hd]).
  unfold numExp. rewrite Hexp.
  repeat (apply Forall_app; split).
  - destruct Hsign as [-> | ->]; repeat constructor; discriminate.
  - now apply digits_no_quote.
  - destruct (fracPart p) as [f|]; [|constructor].
    constructor; [discriminate|].
    apply digits_no_quote. now apply (Hfrac f).
  - constructor.
    + intros E. rewrite E in Hm. discriminate Hm.
    + apply Forall_app. split.
      * destruct Hes as [-> | [-> | ->]]; repeat constructor; discriminate.
      * now apply digits_no_quote.
Qed.

(** A number matched after skippable text has no character inside a
    string literal. *)
Theorem number_outside_strings pre p r k :
  Skippable pre -> WellFormed p ->
  length pre <= k < length pre + length (numExp p) ->
  ~ InString (pre ++ numExp p ++ r) k.
Proof.
  intros Hpre Hwf Hk (q & l & post & E & Hq & Hl & Hin).
  pose proof (numExp_no_quote p Hwf) as Hnq.
  set (tok := numExp p) in *.
  set (j := k - length pre).
  assert (Htok : tok = firstn j tok ++ skipn j tok)
    by (symmetry; apply firstn_skipn).
  assert (Hlenj : length (firstn j tok) = j)
    by (rewrite length_firstn; unfold j; lia).
  assert (Hskip2 : Skippable (pre ++ firstn j tok)).
  { apply Skippable_app; [exact Hpre|]. apply Skippable_plain.
    rewrite Htok in Hnq. now apply Forall_app in Hnq. }
  assert (E2 : q ++ l ++ post = (pre ++ firstn j tok) ++ skipn j tok ++ r).
  { rewrite <- E, <- app_assoc, (app_assoc (firstn j tok)), <- Htok.
    reflexivity. }
  assert (Hlen2 : length (pre ++ firstn j tok) = k)
    by (rewrite length_app, Hlenj; unfold j; lia).
  destruct (Nat.eq_dec (length q) k) as [Heq | Hne].
  - apply app_eq_same_length in E2; [|lia].
    destruct E2 as [_ E2].
    destruct (StringLiteral_head l Hl) as (tl & ->).
    assert (Hj : j < length tok) by (unfold j; lia).
    destruct (skipn j tok) as [|c rest'] eqn:Hs.
    + assert (H := f_equal (@length ascii) Hs).
      rewrite length_skipn in H. simpl in H. lia.
    + cbn [app] in E2. inversion E2; subst c.
      rewrite Htok in Hnq. apply Forall_app in Hnq.
      destruct Hnq as [_ Hnq]. inversion Hnq. congruence.
  - pose proof (Skippable_boundary q Hq _ l post _ Hskip2 Hl E2) as Hb.
    lia.
Qed.

End GrammarFacts.

(** * The converter *)

Module ConverterFacts.

Import Aux MatcherFacts Scanner Grammar Converter PatternFacts GrammarFacts.

Lemma firstn_min {A} (l : list A) n :
  firstn (Nat.min n (length l)) l = firstn n l.
Proof.
  destruct (Nat.le_ge_cases n (length l)) as [H | H].
  - now rewrite Nat.min_l.
  - rewrite Nat.min_r by exact H. now rewrite firstn_all, firstn_all2.
Qed.

Lemma skipn_min {A} (l : list A) n :
  skipn (Nat.min n (length l)) l = skipn n l.
Proof.
  destruct (Nat.le_ge_cases n (length l)) as [H | H].
  - now rewrite Nat.min_l.
  - rewrite Nat.min_r by exact H. now rewrite skipn_all, skipn_all2.
Qed.

Lemma slice_prefix s e :
  (0 <= e)%Z -> slice s 0 (Some e) = firstn (Z.to_nat e) s.
Proof.
  intros He. unfold slice, relativeIndex.
  replace (e <? 0)%Z with false by (symmetry; apply Z.ltb_ge; lia).
  cbn [Z.ltb Z.compare skipn].
  rewrite (Z.min_l 0) by lia. cbn [Z.to_nat]. rewrite Nat.sub_0_r.
  rewrite Z2Nat.inj_min, Nat2Z.id. apply firstn_min.
Qed.

Lemma slice_suffix s e :
  (0 <= e)%Z -> slice s e None = skipn (Z.to_nat e) s.
Proof.
  intros He. unfold slice, relativeIndex.
  replace (e <? 0)%Z with false by (symmetry; apply Z.ltb_ge; lia).
  rewrite Z2Nat.inj_min, Nat2Z.id, skipn_min.
  apply firstn_all2. rewrite !length_skipn. lia.
Qed.

Lemma String_repeat_zeros n :
  (0 <= n)%Z -> String_repeat (lit "0") n = Normal (zeros (Z.to_nat n)).
Proof.
  intros Hn. unfold String_repeat.
  replace (n <? 0)%Z with false by (symmetry; apply Z.ltb_ge; lia).
  f_equal. unfold zeros. induction (Z.to_nat n) as [|k IH];
    [reflexivity|]. cbn [repeat concat]. now rewrite IH.
Qed.

(** [exponentialPartsToFixed] always returns, and returns [toFixed]. *)
Theorem exponentialPartsToFixed_toFixed signPart intPart fracPart exponent :
  exponentialPartsToFixed signPart intPart fracPart exponent =
  Normal (toFixed signPart intPart fracPart exponent).
Proof.
  unfold exponentialPartsToFixed, toFixed.
  destruct (exponent >=? 0)%Z eqn:He.
  - apply Z.geb_le in He.
    assert (Hcmp : (Z.of_nat (length fracPart) <=? exponent)%Z
                   = (length fracPart <=? Z.to_nat exponent)).
    { destruct (length fracPart <=? Z.to_nat exponent) eqn:E.
      - apply Nat.leb_le in E. apply Z.leb_le. lia.
      - apply Nat.leb_gt in E. apply Z.leb_gt. lia. }
    rewrite Hcmp.
    destruct (length fracPart <=? Z.to_nat exponent) eqn:E.
    + apply Nat.leb_le in E.
      rewrite String_repeat_zeros by lia. cbn [bind].
      rewrite leadingZeros_replace. cbn [bind].
      now rewrite Z2Nat.inj_sub, Nat2Z.id by lia.
    + cbn [bind]. rewrite leadingZeros_replace. cbn [bind].
      now rewrite slice_prefix, slice_suffix by lia.
  - rewrite Z.geb_leb in He. apply Z.leb_gt in He.
    assert (Hcmp : (Z.of_nat (length intPart) >? - exponent)%Z
                   = (Z.to_nat (- exponent) <? length intPart)).
    { destruct (Z.to_nat (- exponent) <? length intPart) eqn:E.
      - apply Nat.ltb_lt in E. apply Z.gtb_lt. lia.
      - apply Nat.ltb_ge in E. rewrite Z.gtb_ltb. apply Z.ltb_ge. lia. }
    rewrite Hcmp.
    destruct (Z.to_nat (- exponent) <? length intPart) eqn:E.
    + now rewrite slice_prefix, slice_suffix by lia.
    + apply Nat.ltb_ge in E.
      rewrite String_repeat_zeros by lia. cbn [bind].
      now rewrite Z2Nat.inj_sub, Nat2Z.id by lia.
Qed.

(** [exponentialToFixedReplacer] fails on an exponent beyond the bound
    and on nothing else. *)
Theorem exponentialToFixedReplacer_run
    match_ prefix numExp signPart intPart fracPart expPart :
  exponentialToFixedReplacer match_ prefix numExp signPart intPart fracPart
    expPart =
  if ((Number expPart >? 1000) || (Number expPart <? -1000))%Z
  then Throw (RangeError (numExp ++ lit " exponent exceeds maximum"))
  else Normal (prefix ++ toFixed signPart intPart (fracOrEmpty fracPart)
                           (Number expPart)).
Proof.
  unfold exponentialToFixedReplacer.
  destruct ((Number expPart >? 1000) || (Number expPart <? -1000))%Z;
    [reflexivity|].
  rewrite exponentialPartsToFixed_toFixed. reflexivity.
Qed.

(** ** The shape of the converter's output *)

Lemma digits_app_l d r :
  digits d -> forallb isDigit r = true -> digits (d ++ r).
Proof.
  intros [Hne Hd] Hr. split.
  - destruct d; [congruence | discriminate].
  - rewrite forallb_app, Hd, Hr. reflexivity.
Qed.

Lemma digits_app_r d r :
  forallb isDigit d = true -> digits r -> digits (d ++ r).
Proof.
  intros Hd [Hne Hr]. split.
  - intros E. apply app_eq_nil in E. tauto.
  - rewrite forallb_app, Hd, Hr. reflexivity.
Qed.

Lemma forallb_firstn_skipn (P : ascii -> bool) s n :
  forallb P s = true ->
  forallb P (firstn n s) = true /\ forallb P (skipn n s) = true.
Proof.
  intros H. rewrite <- (firstn_skipn n s), forallb_app in H.
  now apply andb_true_iff in H.
Qed.

Lemma zeros_digits n : forallb isDigit (zeros n) = true.
Proof. induction n as [|n IH]; [reflexivity | exact IH]. Qed.

(** Stripping the zeros in front of a run of digits leaves a run of digits
    without a redundant leading zero, and what follows it untouched. *)
Lemma stripLeadingZeros_digits : forall ip rest,
  digits ip ->
  match rest with a :: _ => isDigit a = false | [] => True end ->
  exists ip',
    stripLeadingZeros (ip ++ rest) = ip' ++ rest
    /\ digits ip' /\ noLeadingZeros ip'.
Proof.
  intros ip rest [Hne Hd] Hrest.
  destruct ip as [|a ip]; [congruence|]. clear Hne.
  revert a Hd. induction ip as [|b ip IH]; intros a Hd.
  - exists [a]. cbn [app]. rewrite stripLeadingZeros_cons.
    split; [|split].
    + destruct (Ascii.eqb "0" a); [|reflexivity].
      destruct rest as [|c rest']; [reflexivity|]. now rewrite Hrest.
    + split; [discriminate | exact Hd].
    + destruct (Ascii.eqb "0" a) eqn:Ha.
      * apply Ascii.eqb_eq in Ha. subst a. now left.
      * right. exists a, []. split; [reflexivity|].
        apply Ascii.eqb_neq in Ha. congruence.
  - cbn [forallb] in Hd. apply andb_true_iff in Hd. destruct Hd as [Ha Hd].
    cbn [app]. rewrite stripLeadingZeros_cons.
    destruct (Ascii.eqb "0" a) eqn:Ha0.
    + pose proof Hd as Hd'. cbn [forallb] in Hd'.
      apply andb_true_iff in Hd'. destruct Hd' as [Hb _].
      rewrite Hb. apply (IH b Hd).
    + exists (a :: b :: ip). split; [reflexivity|]. split.
      * split; [discriminate|]. cbn [forallb] in *. now rewrite Ha, Hd.
      * right. exists a, (b :: ip). split; [reflexivity|].
        apply Ascii.eqb_neq in Ha0. congruence.
Qed.

Lemma fractionText_head fp :
  fractionText fp ->
  match fp with a :: _ => isDigit a = false | [] => True end.
Proof. intros [-> | (f & -> & _)]; [exact I | reflexivity]. Qed.

(** The output of the converter is the sign, an integer part and possibly
    a fraction; the integer part has no redundant leading zero when the
    exponent is not negative or the integer part of the input had none. *)
Theorem toFixed_shape signPart intPart fracPart exponent :
  digits intPart -> forallb isDigit fracPart = true ->
  exists ip fp,
    toFixed signPart intPart fracPart exponent = signPart ++ ip ++ fp
    /\ digits ip /\ fractionText fp
    /\ ((0 <= exponent)%Z \/ noLeadingZeros intPart -> noLeadingZeros ip).
Proof.
  intros Hint Hfrac. unfold toFixed.
  destruct (exponent >=? 0)%Z eqn:He.
  - set (e := Z.to_nat exponent).
    destruct (length fracPart <=? e) eqn:Hle.
    + destruct (stripLeadingZeros_digits
                  (intPart ++ fracPart ++ zeros (e - length fracPart)) [])
        as (ip & Hs & Hip & Hz).
      * apply digits_app_l; [exact Hint|].
        rewrite forallb_app, Hfrac. apply zeros_digits.
      * exact I.
      * rewrite app_nil_r in Hs. exists ip, [].
        rewrite Hs. split; [reflexivity|]. split; [exact Hip|].
        split; [now left | auto].
    + apply Nat.leb_gt in Hle.
      destruct (forallb_firstn_skipn isDigit fracPart e Hfrac) as [Hf1 Hf2].
      destruct (stripLeadingZeros_digits
                  (intPart ++ firstn e fracPart)
                  (lit "." ++ skipn e fracPart))
        as (ip & Hs & Hip & Hz).
      * now apply digits_app_l.
      * reflexivity.
      * rewrite <- app_assoc in Hs. exists ip, (lit "." ++ skipn e fracPart).
        rewrite Hs. split; [reflexivity|]. split; [exact Hip|].
        split; [|auto]. right. exists (skipn e fracPart).
        split; [reflexivity|]. split; [|exact Hf2].
        intros E. apply (f_equal (@length ascii)) in E.
        rewrite length_skipn in E. simpl in E. lia.
  - rewrite Z.geb_leb in He. apply Z.leb_gt in He.
    set (e := Z.to_nat (- exponent)).
    assert (He1 : 1 <= e) by (unfold e; lia).
    destruct Hint as [Hne Hd].
    destruct (e <? length intPart) eqn:Hlt.
    + apply Nat.ltb_lt in Hlt.
      destruct (forallb_firstn_skipn isDigit intPart e Hd) as [Hi1 Hi2].
      exists (firstn e intPart), (lit "." ++ skipn e intPart ++ fracPart).
      split; [reflexivity|]. split; [|split].
      * split; [|exact Hi1]. intros E.
        apply (f_equal (@length ascii)) in E.
        rewrite length_firstn in E. simpl in E. lia.
      * right. exists (skipn e intPart ++ fracPart).
        split; [reflexivity|]. apply digits_app_l; [|exact Hfrac].
        split; [|exact Hi2]. intros E.
        apply (f_equal (@length ascii)) in E.
        rewrite length_skipn in E. simpl in E. lia.
      * intros [Hpos | Hz]; [lia|].
        destruct Hz as [-> | (c & tl & -> & Hc)].
        -- simpl in Hlt. lia.
        -- right. destruct e as [|e']; [lia|].
           exists c, (firstn e' tl). split; [reflexivity | exact Hc].
    + exists (lit "0"), (lit "." ++ zeros (e - length intPart)
                                ++ intPart ++ fracPart).
      split; [reflexivity|]. split; [|split].
      * split; [discriminate | reflexivity].
      * right. exists (zeros (e - length intPart) ++ intPart ++ fracPart).
        split; [reflexivity|].
        apply digits_app_r; [apply zeros_digits|].
        apply digits_app_l; [now split | exact Hfrac].
      * intros _. now left.
Qed.

Lemma integerPart_digits ip fp :
  digits ip -> fractionText fp -> integerPart (ip ++ fp) = ip.
Proof.
  intros [_ Hd] Hfp. unfold integerPart.
  apply (takeWhile_app_stop (fun c => negb (Ascii.eqb c "."))).
  - clear Hfp. induction ip as [|a ip IH]; [reflexivity|].
    cbn [forallb] in *. apply andb_true_iff in Hd. destruct Hd as [Ha Hd].
    rewrite (IH Hd), andb_true_r.
    destruct (digit_not_marker a Ha) as (_ & Hdot & _).
    now rewrite Ascii.eqb_sym, Hdot.
  - destruct Hfp as [-> | (f & -> & _)]; [exact I | reflexivity].
Qed.

Lemma fracOrEmpty_digits frac :
  (forall f, frac = Some f -> digits f) ->
  forallb isDigit (fracOrEmpty frac) = true.
Proof.
  intros H. destruct frac as [[|c tl]|]; try reflexivity.
  now destruct (H _ eq_refl).
Qed.

End ConverterFacts.

(** * [jsonReplaceExponentials] in terms of the scanner's tokens *)

Module MainFacts.

Import Aux MatcherFacts Scanner Grammar Converter PatternFacts ReplaceFacts
       GrammarFacts ConverterFacts.

Lemma matchesOf_tokens json ts suffix :
  Tokens json ts suffix -> matchesOf json = tokenResults 0 ts.
Proof.
  intros H. unfold matchesOf.
  rewrite (collect_run json json ts suffix H 0) by (reflexivity || lia).
  reflexivity.
Qed.

Section WithWorld.

Context {W : Type}.

Lemma replaceAll_run json (rv : @ReplaceFunction (Heap W)) w ts suffix :
  Tokens json ts suffix ->
  String_replaceAll getRE setRE json rv (mkHeap 0 w) =
  let (c, h') := runTokens rv json 0 ts (mkHeap 0 w) in
  (out <- c ;; Normal (out ++ suffix), h').
Proof.
  intros H. unfold String_replaceAll, RegExpReplace.
  cbn [getRE reLastIndex jsonWithNumberExpRE flagGlobal].
  change (setLastIndex (mkRegExp jsonWithNumberExpPattern 6 true true 0) 0)
    with (jsonWithNumberExpRE 0).
  rewrite (collect_run json json ts suffix H 0) by (reflexivity || lia).
  change (setRE (jsonWithNumberExpRE 0) (mkHeap 0 w)) with (mkHeap 0 w).
  rewrite (substitute_run rv json json ts suffix H 0)
    by (reflexivity || lia).
  reflexivity.
Qed.

Lemma runTokens_default json : forall ts i (h : Heap W),
  runTokens defaultWrapReplacer json i ts h = (convertTokens ts, h).
Proof.
  induction ts as [|t ts IH]; intros i h; [reflexivity|].
  cbn [runTokens convertTokens]. unfold defaultWrapReplacer at 1.
  unfold arg, element. cbn [toExec elements tokenElements nth].
  rewrite exponentialToFixedReplacer_run. unfold convertToken.
  cbv zeta.
  destruct ((Number (expPart (parts t)) >? 1000)
            || (Number (expPart (parts t)) <? -1000))%Z;
    [reflexivity|].
  rewrite IH. reflexivity.
Qed.

Lemma runTokens_custom json replacer : forall ts i (h : Heap W),
  runTokens (customWrapReplacer replacer) json i ts h
  = callReplacer replacer ts h.
Proof.
  induction ts as [|t ts IH]; intros i h; [reflexivity|].
  cbn [runTokens callReplacer]. unfold customWrapReplacer at 1.
  unfold arg, element. cbn [toExec elements tokenElements nth].
  destruct (replacer (numExp (parts t)) h) as [[r|e|] h1];
    try reflexivity.
  rewrite IH. reflexivity.
Qed.

(** Without a replacer. *)
Theorem default_run json (h : Heap W) ts suffix :
  Tokens json ts suffix ->
  jsonReplaceExponentials (VString json) VUndefined h =
  (out <- convertTokens ts ;; Normal (out ++ suffix),
   mkHeap 0 (world h)).
Proof.
  intros H. cbn [jsonReplaceExponentials].
  rewrite (replaceAll_run json _ _ ts suffix H), runTokens_default.
  reflexivity.
Qed.

(** With a replacer. *)
Theorem custom_run json replacer (h : Heap W) ts suffix :
  Tokens json ts suffix ->
  jsonReplaceExponentials (VString json) (VFunction replacer) h =
  let (c, h') := callReplacer replacer ts (mkHeap 0 (world h)) in
  (out <- c ;; Normal (out ++ suffix), h').
Proof.
  intros H. cbn [jsonReplaceExponentials].
  rewrite (replaceAll_run json _ _ ts suffix H), runTokens_custom.
  reflexivity.
Qed.

End WithWorld.

(** ** The matches as result arrays *)

Lemma tokenResults_map {A} (f : ExecArray -> A) (g : Token -> A) :
  (forall i t, f (toExec i t) = g t) ->
  forall ts i, map f (tokenResults i ts) = map g ts.
Proof.
  intros H. induction ts as [|t ts IH]; intros i; [reflexivity|].
  cbn [tokenResults map]. now rewrite H, IH.
Qed.

Lemma tokenResults_length ts : forall i,
  length (tokenResults i ts) = length ts.
Proof.
  induction ts as [|t ts IH]; intros i; [reflexivity|].
  cbn [tokenResults length]. now rewrite IH.
Qed.

Lemma tokenResults_In a : forall ts i,
  In a (tokenResults i ts) -> exists j t, a = toExec j t /\ In t ts.
Proof.
  induction ts as [|t ts IH]; intros i H; [contradiction|].
  cbn [tokenResults] in H. destruct H as [<- | H].
  - exists i, t. split; [reflexivity | now left].
  - destruct (IH _ H) as (j & t' & -> & Hin).
    exists j, t'. split; [reflexivity | now right].
Qed.

Lemma tokenResults_Exists (P : ExecArray -> Prop) (Q : Token -> Prop) :
  (forall i t, P (toExec i t) <-> Q t) ->
  forall ts i, Exists P (tokenResults i ts) <-> Exists Q ts.
Proof.
  intros H. induction ts as [|t ts IH]; intros i; cbn [tokenResults].
  - split; intros E; inversion E.
  - rewrite !Exists_cons, H, IH. reflexivity.
Qed.

Lemma Tokens_wellformed s ts suffix :
  Tokens s ts suffix ->
  Forall (fun t => WellFormed (parts t) /\ Skippable (prefix t)) ts.
Proof.
  induction 1 as [s Hn | s t r ts suffix Hm Hts IH]; constructor.
  - apply firstMatch_sound in Hm. tauto.
  - exact IH.
Qed.

(** Every match lies outside of the string literals of the input. *)
Lemma tokens_outside_strings json s ts suffix :
  Tokens s ts suffix ->
  forall pre,
    Skippable pre -> json = pre ++ s ->
    Forall (fun a =>
              forall k,
                index a + length (arg 1 a) <= k
                  < index a + length (arg 1 a) + length (arg 2 a) ->
                ~ InString json k)
           (tokenResults (length pre) ts).
Proof.
  induction 1 as [s Hn | s t r ts suffix Hm Hts IH];
    intros pre Hpre Hjson; cbn [tokenResults]; constructor.
  - apply firstMatch_sound in Hm. destruct Hm as (Hs & Hskip & Hwf).
    intros k Hk. unfold arg, element in Hk.
    cbn [toExec index elements tokenElements nth] in Hk.
    rewrite Hjson, Hs, app_assoc.
    apply number_outside_strings.
    + now apply Skippable_app.
    + exact Hwf.
    + rewrite length_app. lia.
  - pose proof (firstMatch_sound _ _ _ Hm) as (Hs & Hskip & Hwf).
    replace (length pre + length (matched t))
      with (length (pre ++ matched t)) by apply length_app.
    apply IH.
    + apply Skippable_app; [exact Hpre|]. unfold matched.
      apply Skippable_app; [exact Hskip|].
      apply Skippable_plain. now apply numExp_no_quote.
    + rewrite Hjson, <- app_assoc. f_equal. now apply firstMatch_split.
Qed.

End MainFacts.

(** * The value of the converter's output *)

Module ValueFacts.

Import Aux MatcherFacts Scanner Grammar Converter PatternFacts GrammarFacts
       ConverterFacts.




(** Only zeros are stripped. *)
Lemma stripLeadingZeros_zeros : forall s,
  exists k, s = zeros k ++ stripLeadingZeros s.
Proof.
  induction s as [|a tl IH]; [exists 0; reflexivity|].
  rewrite stripLeadingZeros_cons.
  destruct (Ascii.eqb "0" a) eqn:Ha; [|exists 0; reflexivity].
  destruct tl as [|c tl']; [exists 0; reflexivity|].
  destruct (isDigit c); [|exists 0; reflexivity].
  destruct IH as (k & Hk). exists (S k).
  apply Ascii.eqb_eq in Ha. subst a.
  change (zeros (S k)) with ("0"%char :: zeros k).
  cbn [app]. now rewrite <- Hk.
Qed.


(** ** Reading a text back *)

Lemma scanSign_text sign rest :
  sign = [] \/ sign = lit "-" ->
  match rest with a :: _ => isDigit a = true | [] => False end ->
  scanSign (sign ++ rest) = (sign, rest).
Proof.
  intros [-> | ->] Hrest; [|reflexivity].
  destruct rest as [|a tl]; [contradiction|].
  cbn [app]. unfold scanSign.
  destruct (digit_not_marker a Hrest) as (_ & _ & _ & _ & Hminus).
  destruct a as [[] [] [] [] [] [] [] []]; try discriminate Hminus;
    reflexivity.
Qed.

Lemma digits_starts d rest :
  digits d ->
  match d ++ rest with a :: _ => isDigit a = true | [] => False end.
Proof.
  intros Hd. destruct (digits_head d Hd) as (a & tl & -> & Ha). exact Ha.
Qed.

Lemma scanDigits_all d : digits d -> scanDigits d = Some (d, []).
Proof.
  intros Hd. rewrite <- (app_nil_r d) at 1.
  now apply scanDigits_app_stop.
Qed.

(** The value of a fixed-point text. *)
Lemma decimalValue_fixed sign ip fp :
  sign = [] \/ sign = lit "-" ->
  digits ip -> fractionText fp ->
  exists f,
    (fp = [] /\ f = [] \/ fp = "."%char :: f /\ digits f)
    /\ decimalValue (sign ++ ip ++ fp)
       = Some (applySign sign (inject_Z (digitsValue 0 (ip ++ f)))
               * Qpower (inject_Z 10) (- Z.of_nat (length f)))%Q.
Proof.
  intros Hsign Hip Hfp. unfold decimalValue.
  rewrite (scanSign_text sign (ip ++ fp) Hsign (digits_starts ip fp Hip)).
  rewrite (scanDigits_app_stop ip fp Hip (fractionText_head fp Hfp)).
  destruct Hfp as [-> | (f & -> & Hf)].
  - exists []. split; [now left|]. reflexivity.
  - exists f. split; [now right|].
    cbn [scanFrac]. rewrite (scanDigits_all f Hf). reflexivity.
Qed.

Lemma scanExp_all es d :
  es = [] \/ es = lit "+" \/ es = lit "-" -> digits d ->
  scanExp (es ++ d) = Some (es ++ d, []).
Proof.
  intros Hes Hd. unfold scanExp.
  destruct Hes as [-> | [-> | ->]].
  - destruct (digits_head d Hd) as (a & tl & -> & Ha).
    cbn [app].
    assert (Hs : isExpSign a = false) by (revert Ha; clear; by_cases_on a).
    rewrite Hs. now rewrite (scanDigits_all (a :: tl) Hd).
  - cbn [app lit list_ascii_of_string]. change (isExpSign "+") with true.
    cbv iota. now rewrite (scanDigits_all d Hd).
  - cbn [app lit list_ascii_of_string]. change (isExpSign "-") with true.
    cbv iota. now rewrite (scanDigits_all d Hd).
Qed.

(** The value of a number in exponential notation. *)
Lemma decimalValue_numExp p :
  WellFormed p ->
  decimalValue (numExp p)
  = Some (applySign (signPart p)
            (inject_Z (digitsValue 0 (intPart p ++ fracDigits (fracPart p))))
          * Qpower (inject_Z 10)
              (- Z.of_nat (length (fracDigits (fracPart p)))
               + Number (expPart p)))%Q.
Proof.
  intros (Hsign & Hint & Hfrac & Hm & es & d & Hexp & Hes & Hd).
  destruct p as [sign int frac m e]. cbn in *. subst e.
  unfold numExp, decimalValue.
  cbn [signPart intPart fracPart marker expPart].
  set (tail := m :: (es ++ d)).
  set (fr := match frac with Some f => "."%char :: f | None => [] end).
  rewrite (scanSign_text sign _ Hsign (digits_starts int _ Hint)).
  assert (Hfr : match fr ++ tail with
                | a :: _ => isDigit a = false
                | [] => True
                end).
  { unfold fr, tail. destruct frac; [reflexivity|].
    cbn [app]. now destruct (marker_not_digit m Hm). }
  rewrite (scanDigits_app_stop int _ Hint Hfr).
  assert (Hsf : scanFrac (fr ++ tail) = (frac, tail)).
  { unfold fr. destruct frac as [f|].
    - cbn [app scanFrac]. unfold tail.
      rewrite (scanDigits_app_stop f); [reflexivity | now apply Hfrac |].
      now destruct (marker_not_digit m Hm).
    - cbn [app]. unfold tail. cbn [scanFrac].
      destruct (marker_not_digit m Hm) as [_ Hdot].
      destruct m as [[] [] [] [] [] [] [] []]; try discriminate Hdot;
        reflexivity. }
  rewrite Hsf. unfold tail. rewrite Hm, (scanExp_all es d Hes Hd).
  reflexivity.
Qed.




End ValueFacts.

(** * The properties of the specification *)

Import Aux MatcherFacts Scanner Grammar Converter PatternFacts ReplaceFacts
       GrammarFacts ConverterFacts MainFacts.

Lemma convertToken_cases t :
  (exponentExceeds (toExec 0 t) /\
   exists msg, convertToken t = Throw (RangeError msg))
  \/ (~ exponentExceeds (toExec 0 t) /\
      exists r, convertToken t = Normal (prefix t ++ r)).
Proof.
  unfold convertToken, exponentExceeds, arg, element.
  cbn [toExec elements tokenElements nth]. cbv zeta.
  destruct (Number (expPart (parts t)) >? 1000)%Z eqn:E1; cbn [orb].
  - left. split; [left; apply Z.gtb_gt in E1; lia | eauto].
  - destruct (Number (expPart (parts t)) <? -1000)%Z eqn:E2.
    + left. split; [right; now apply Z.ltb_lt | eauto].
    + right. split; [|eauto].
      rewrite Z.gtb_ltb in E1. apply Z.ltb_ge in E1, E2. lia.
Qed.

Lemma convertTokens_cases ts :
  (Exists (fun t => exponentExceeds (toExec 0 t)) ts /\
   exists msg, convertTokens ts = Throw (RangeError msg))
  \/ (~ Exists (fun t => exponentExceeds (toExec 0 t)) ts /\
      exists reps, length reps = length ts /\
        convertTokens ts
        = Normal (concat (map (fun tr => prefix (fst tr) ++ snd tr)
                            (combine ts reps)))).
Proof.
  induction ts as [|t ts IH].
  - right. split; [intros E; inversion E|]. exists []. auto.
  - cbn [convertTokens].
    destruct (convertToken_cases t) as [(Hex & msg & ->) | (Hok & r & ->)];
      cbn [bind].
    + left. split; [now left | eauto].
    +
      destruct IH as [(Hex & msg & ->) | (Hno & reps & Hlen & ->)];
        cbn [bind].
      * left. split; [now right | eauto].
      * right. split.
        -- intros E. inversion E; subst; auto.
        -- exists (r :: reps). split; [simpl; now rewrite Hlen|].
           reflexivity.
Qed.

Lemma callReplacer_pure {W} (g : str -> str) ts (h : Heap W) :
  callReplacer (fun numExp h => (Normal (g numExp), h)) ts h
  = (Normal (concat (map (fun t => prefix t ++ g (numExp (parts t))) ts)),
     h).
Proof.
  induction ts as [|t ts IH]; [reflexivity|].
  cbn [callReplacer]. rewrite IH. reflexivity.
Qed.

(** C3: without a replacer the call fails with a RangeError exactly when
    some matched number has an exponent above 1000 or below -1000; it can
    fail in no other way; and with a replacer that returns, it does not
    fail at all. *)
Theorem C3_range_error (W : Type) (json : str) (h : Heap W) :
  let r := fst (jsonReplaceExponentials (VString json) VUndefined h) in
  ((exists msg, r = Throw (RangeError msg))
   <-> Exists exponentExceeds (matchesOf json))
  /\ ((exists out, r = Normal out) \/ (exists msg, r = Throw (RangeError msg)))
  /\ (forall g : str -> str,
        exists out,
          fst (jsonReplaceExponentials (VString json) (pureReplacer g) h)
          = Normal out).
Proof.
  destruct (Tokens_total json) as (ts & suffix & Hts).
  cbv zeta. rewrite (default_run json h ts suffix Hts). cbn [fst].
  rewrite (matchesOf_tokens json ts suffix Hts).
  rewrite (tokenResults_Exists exponentExceeds
             (fun t => exponentExceeds (toExec 0 t)))
    by (intros; reflexivity).
  split; [|split].
  - destruct (convertTokens_cases ts)
      as [(Hex & msg & ->) | (Hno & reps & _ & ->)]; cbn [bind].
    + split; [intros _; exact Hex | eauto].
    + split; [intros (msg & E); discriminate E | intros E; contradiction].
  - destruct (convertTokens_cases ts)
      as [(Hex & msg & ->) | (Hno & reps & _ & ->)]; cbn [bind]; eauto.
  - intros g. unfold pureReplacer.
    rewrite (custom_run json _ h ts suffix Hts), callReplacer_pure.
    cbn [bind fst]. eauto.
Qed.

Lemma callReplacer_logging (g : str -> str) ts : forall cursor log,
  callReplacer
    (fun numExp (h : Heap (list str)) =>
       (Normal (g numExp), mkHeap (reLastIndex h) (world h ++ [numExp])))
    ts (mkHeap cursor log)
  = (Normal (concat (map (fun t => prefix t ++ g (numExp (parts t))) ts)),
     mkHeap cursor (log ++ map (fun t => numExp (parts t)) ts)).
Proof.
  induction ts as [|t ts IH]; intros cursor log.
  - cbn [callReplacer map concat]. now rewrite app_nil_r.
  - cbn [callReplacer reLastIndex world]. rewrite IH.
    cbn [bind map concat]. f_equal. f_equal.
    now rewrite <- (app_assoc log).
Qed.

Lemma callOnMatches_tokens {W}
    (f : str -> Heap W -> Completion str * Heap W) ts : forall i h,
  callOnMatches f (tokenResults i ts) h = callReplacer f ts h.
Proof.
  induction ts as [|t ts IH]; intros i h; [reflexivity|].
  cbn [tokenResults callOnMatches callReplacer].
  change (arg 2 (toExec i t)) with (numExp (parts t)).
  change (arg 1 (toExec i t)) with (prefix t).
  destruct (f (numExp (parts t)) h) as [[r|e|] h1]; try reflexivity.
  now rewrite IH.
Qed.

(** C4: with a replacer, a call is the replacer called once for each
    matched number, in the order of the matches, with the text of the
    number, what it returns being put unchanged after the prefix of the
    match; a replacer that records its arguments ends with the list of the
    matched numbers; every text the replacer is called with is a number in
    exponential notation that lies outside of the string literals; and no
    exponent makes the call fail. *)
Theorem C4_custom_replacer (json : str) :
  let ms := matchesOf json in
  exists suffix,
    json = concat (map (fun a => arg 1 a ++ arg 2 a) ms) ++ suffix
    /\ (forall (W : Type) f (h : Heap W),
          jsonReplaceExponentials (VString json) (VFunction f) h
          = let (c, h') := callOnMatches f ms (mkHeap 0 (world h)) in
            (out <- c ;; Normal (out ++ suffix), h'))
    /\ (forall (g : str -> str) (cursor : nat) (log : list str),
          jsonReplaceExponentials (VString json) (loggingReplacer g)
            (mkHeap cursor log)
          = (Normal (concat (map (fun a => arg 1 a ++ g (arg 2 a)) ms)
                       ++ suffix),
             mkHeap 0 (log ++ map (arg 2) ms)))
    /\ Forall (fun a =>
                 NumberExpText (arg 2 a)
                 /\ forall k,
                      index a + length (arg 1 a) <= k
                        < index a + length (arg 1 a) + length (arg 2 a) ->
                      ~ InString json k) ms.
Proof.
  destruct (Tokens_total json) as (ts & suffix & Hts).
  cbv zeta. rewrite (matchesOf_tokens json ts suffix Hts).
  exists suffix. split; [|split; [|split]].
  - rewrite (tokenResults_map _ matched) by reflexivity.
    now apply Tokens_concat.
  - intros W f h.
    rewrite (custom_run json f h ts suffix Hts), callOnMatches_tokens.
    reflexivity.
  - intros g cursor log. unfold loggingReplacer.
    rewrite (custom_run json _ _ ts suffix Hts). cbn [world].
    rewrite callReplacer_logging. cbn [bind].
    rewrite (tokenResults_map (fun a => arg 1 a ++ g (arg 2 a))
               (fun t => prefix t ++ g (numExp (parts t)))) by reflexivity.
    rewrite (tokenResults_map (arg 2) (fun t => numExp (parts t)))
      by reflexivity.
    reflexivity.
  - apply Forall_and.
    + apply Forall_forall. intros a Ha.
      apply tokenResults_In in Ha. destruct Ha as (j & t & -> & Hin).
      pose proof (Tokens_wellformed _ _ _ Hts) as Hwf.
      rewrite Forall_forall in Hwf. destruct (Hwf t Hin) as [Hp _].
      exists (parts t). split; [exact Hp | reflexivity].
    + apply (tokens_outside_strings json json ts suffix Hts []);
        [constructor | reflexivity].
Qed.

Lemma callReplacer_normal {W} (f : str -> Heap W -> Completion str * Heap W)
    ts : forall h out h',
  callReplacer f ts h = (Normal out, h') ->
  exists reps, length reps = length ts
    /\ out = concat (map (fun tr => prefix (fst tr) ++ snd tr)
                       (combine ts reps)).
Proof.
  induction ts as [|t ts IH]; intros h out h' H.
  - cbn [callReplacer] in H. inversion H; subst. exists []. auto.
  - cbn [callReplacer] in H.
    destruct (f (numExp (parts t)) h) as [[r|e|] h1]; try discriminate H.
    destruct (callReplacer f ts h1) as [[rs|e|] h2] eqn:E;
      cbn [bind] in H; try discriminate H.
    inversion H; subst. destruct (IH _ _ _ E) as (reps & Hlen & ->).
    exists (r :: reps). split; [simpl; now rewrite Hlen | reflexivity].
Qed.

Lemma combine_tokenResults (reps : list str) : forall ts i,
  map (fun ar => arg 1 (fst ar) ++ snd ar)
      (combine (tokenResults i ts) reps)
  = map (fun tr => prefix (fst tr) ++ snd tr) (combine ts reps).
Proof.
  induction reps as [|r reps IH]; intros [|t ts] i; try reflexivity.
  cbn [tokenResults combine map fst snd]. now rewrite IH.
Qed.

(** C2: when a call returns, its input is the matches (each a prefix
    followed by a number) and a last piece of text, and its output is the
    same prefixes, each followed by a replacement, and the same last
    piece; no character of a matched number lies within a string
    literal. *)
Theorem C2_frame (W : Type) (json : str) (replacer : Value W) (h : Heap W)
    (out : str) :
  fst (jsonReplaceExponentials (VString json) replacer h) = Normal out ->
  let ms := matchesOf json in
  exists suffix reps,
    json = concat (map (fun a => arg 1 a ++ arg 2 a) ms) ++ suffix
    /\ length reps = length ms
    /\ out = spliced ms reps suffix
    /\ Forall (fun a =>
                 forall k,
                   index a + length (arg 1 a) <= k
                     < index a + length (arg 1 a) + length (arg 2 a) ->
                   ~ InString json k) ms.
Proof.
  intros Hrun. destruct (Tokens_total json) as (ts & suffix & Hts).
  cbv zeta. rewrite (matchesOf_tokens json ts suffix Hts).
  assert (Hin : json = concat (map (fun a => arg 1 a ++ arg 2 a)
                                 (tokenResults 0 ts)) ++ suffix).
  { rewrite (tokenResults_map _ matched) by reflexivity.
    now apply Tokens_concat. }
  assert (Hout : Forall (fun a =>
                 forall k,
                   index a + length (arg 1 a) <= k
                     < index a + length (arg 1 a) + length (arg 2 a) ->
                   ~ InString json k) (tokenResults 0 ts)).
  { apply (tokens_outside_strings json json ts suffix Hts []);
      [constructor | reflexivity]. }
  unfold spliced.
  destruct replacer as [| | | | | |f]; try discriminate Hrun.
  - rewrite (default_run json h ts suffix Hts) in Hrun. cbn [fst] in Hrun.
    destruct (convertTokens_cases ts)
      as [(_ & msg & E) | (_ & reps & Hlen & E)];
      rewrite E in Hrun; cbn [bind] in Hrun; [discriminate Hrun|].
    inversion Hrun; subst out.
    exists suffix, reps. rewrite tokenResults_length, combine_tokenResults.
    auto.
  - rewrite (custom_run json f h ts suffix Hts) in Hrun.
    destruct (callReplacer f ts (mkHeap 0 (world h))) as [[o|e|] h'] eqn:E;
      cbn [bind fst] in Hrun; try discriminate Hrun.
    inversion Hrun; subst out.
    destruct (callReplacer_normal f ts _ _ _ E) as (reps & Hlen & ->).
    exists suffix, reps. rewrite tokenResults_length, combine_tokenResults.
    auto.
Qed.

Lemma C2_frame_witness :
  exists suffix reps,
    jsonLit "[1e1,'1e0',1e-1]"
    = concat (map (fun a => arg 1 a ++ arg 2 a)
                (matchesOf (jsonLit "[1e1,'1e0',1e-1]"))) ++ suffix
    /\ length reps = length (matchesOf (jsonLit "[1e1,'1e0',1e-1]"))
    /\ jsonLit "[10,'1e0',0.1]"
       = spliced (matchesOf (jsonLit "[1e1,'1e0',1e-1]")) reps suffix
    /\ Forall (fun a =>
                 forall k,
                   index a + length (arg 1 a) <= k
                     < index a + length (arg 1 a) + length (arg 2 a) ->
                   ~ InString (jsonLit "[1e1,'1e0',1e-1]") k)
              (matchesOf (jsonLit "[1e1,'1e0',1e-1]")).
Proof.
  apply (C2_frame unit (jsonLit "[1e1,'1e0',1e-1]") VUndefined heap0
           (jsonLit "[10,'1e0',0.1]")).
  vm_compute. reflexivity.
Defined.

(** C6: an input without a number in exponential notation outside of its
    string literals is returned as it is, and the replacer is not called:
    the result does not depend on what the replacer would do. *)
Theorem C6_unchanged (W : Type) (json : str) (replacer : Value W)
    (h : Heap W) :
  ~ HasExponentialOutsideStrings json ->
  replacer = VUndefined \/ (exists f, replacer = VFunction f) ->
  jsonReplaceExponentials (VString json) replacer h
  = (Normal json, mkHeap 0 (world h)).
Proof.
  intros Hno Hrep.
  assert (Hm : firstMatch json = None).
  { destruct (firstMatch json) as [[t r]|] eqn:E; [|reflexivity].
    exfalso. apply Hno. apply firstMatch_iff. congruence. }
  assert (Hts : Tokens json [] json) by now constructor.
  destruct Hrep as [-> | (f & ->)].
  - now rewrite (default_run json h [] json Hts).
  - now rewrite (custom_run json f h [] json Hts).
Qed.

Lemma C6_unchanged_witness :
  ~ HasExponentialOutsideStrings (jsonLit "{'1e2':'\'1e2,'}")
  /\ jsonReplaceExponentials (VString (jsonLit "{'1e2':'\'1e2,'}"))
       neverCalled heap0
     = (Normal (jsonLit "{'1e2':'\'1e2,'}"), mkHeap 0 tt).
Proof.
  assert (H : ~ HasExponentialOutsideStrings (jsonLit "{'1e2':'\'1e2,'}")).
  { intros E. apply firstMatch_iff in E. apply E. vm_compute. reflexivity. }
  split; [exact H|].
  apply (C6_unchanged unit (jsonLit "{'1e2':'\'1e2,'}") neverCalled heap0 H).
  right. unfold neverCalled. eauto.
Defined.

(** C7: a [json] that is not a string, or a replacer that is neither
    undefined nor a function, makes the call throw a TypeError; the store
    is left as it was, so nothing has been scanned and the replacer has
    not run. *)
Theorem C7_type_errors (W : Type) (json replacer : Value W) (h : Heap W) :
  typeof json <> lit "string"
  \/ (replacer <> VUndefined /\ typeof replacer <> lit "function") ->
  exists msg,
    jsonReplaceExponentials json replacer h = (Throw (TypeError msg), h).
Proof.
  intros [Hj | [Hu Hf]].
  - destruct json; try (cbn [jsonReplaceExponentials]; eauto).
    exfalso. now apply Hj.
  - destruct json; try (cbn [jsonReplaceExponentials]; eauto).
    destruct replacer; cbn [jsonReplaceExponentials]; eauto.
    + exfalso. now apply Hu.
    + exfalso. now apply Hf.
Qed.

Lemma C7_type_errors_witness :
  (exists msg,
     jsonReplaceExponentials (VObject : Value unit) VUndefined heap0
     = (Throw (TypeError msg), heap0))
  /\ (exists msg,
        jsonReplaceExponentials (VString (lit "1e2")) (VObject : Value unit)
          (mkHeap 7 tt)
        = (Throw (TypeError msg), mkHeap 7 tt)).
Proof.
  split.
  - apply (C7_type_errors unit VObject VUndefined heap0).
    left. vm_compute. discriminate.
  - apply (C7_type_errors unit (VString (lit "1e2")) VObject (mkHeap 7 tt)).
    right. split; [discriminate | vm_compute; discriminate].
Defined.

(** C9: the result of a call does not depend on the cursor that earlier
    calls left in the shared RegExp object, with the default conversion
    and with a replacer without effects alike; a call leaves the cursor
    at zero; and a second call right after the first gives the same
    result. *)
Theorem C9_stateless (W : Type) (json : str) (g : str -> str)
    (h1 h2 : Heap W) :
  (fst (jsonReplaceExponentials (VString json) VUndefined h1)
   = fst (jsonReplaceExponentials (VString json) VUndefined h2))
  /\ (fst (jsonReplaceExponentials (VString json) (pureReplacer g) h1)
      = fst (jsonReplaceExponentials (VString json) (pureReplacer g) h2))
  /\ reLastIndex
       (snd (jsonReplaceExponentials (VString json) VUndefined h1)) = 0
  /\ reLastIndex
       (snd (jsonReplaceExponentials (VString json) (pureReplacer g) h1)) = 0
  /\ (let (r1, h') :=
        jsonReplaceExponentials (VString json) (pureReplacer g) h1 in
      fst (jsonReplaceExponentials (VString json) (pureReplacer g) h') = r1).
Proof.
  destruct (Tokens_total json) as (ts & suffix & Hts).
  unfold pureReplacer.
  rewrite !(default_run json _ ts suffix Hts).
  rewrite !(custom_run json _ _ ts suffix Hts).
  rewrite !callReplacer_pure. cbn [bind fst snd reLastIndex].
  repeat split.
  rewrite (custom_run json _ _ ts suffix Hts), callReplacer_pure.
  reflexivity.
Qed.

(** The output of the default replacer for a matched number within the
    bound: the prefix, the sign, an integer part and possibly a
    fraction. *)
Lemma defaultReplacement_shape json a :
  In a (matchesOf json) -> ~ exponentExceeds a ->
  exists ip fp,
    defaultReplacement a = Normal (arg 1 a ++ arg 3 a ++ ip ++ fp)
    /\ (arg 3 a = [] \/ arg 3 a = lit "-")
    /\ digits ip /\ fractionText fp
    /\ ((0 <= Number (arg 6 a))%Z \/ noLeadingZeros (arg 4 a) ->
        noLeadingZeros ip).
Proof.
  intros Hin Hok. destruct (Tokens_total json) as (ts & suffix & Hts).
  rewrite (matchesOf_tokens json ts suffix Hts) in Hin.
  apply tokenResults_In in Hin. destruct Hin as (j & t & -> & Hin).
  pose proof (Tokens_wellformed _ _ _ Hts) as Hwf.
  rewrite Forall_forall in Hwf.
  destruct (Hwf t Hin) as [(Hsign & Hint & Hfrac & _) _].
  unfold defaultReplacement, exponentExceeds, arg, element in *.
  cbn [toExec elements tokenElements nth] in *.
  rewrite exponentialToFixedReplacer_run.
  replace ((Number (expPart (parts t)) >? 1000)
           || (Number (expPart (parts t)) <? -1000))%Z with false.
  - destruct (toFixed_shape (signPart (parts t)) (intPart (parts t))
                (fracOrEmpty (fracPart (parts t)))
                (Number (expPart (parts t))) Hint
                (fracOrEmpty_digits _ Hfrac))
      as (ip & fp & -> & Hip & Hfp & Hz).
    exists ip, fp. auto.
  - symmetry. apply orb_false_iff. rewrite Z.gtb_ltb. split; apply Z.ltb_ge;
      lia.
Qed.

Lemma digits_not_marker d c :
  forallb isDigit d = true -> In c d ->
  isDigit c = true /\ isExpMarker c = false /\ c <> "."%char.
Proof.
  intros Hd Hin. rewrite forallb_forall in Hd. pose proof (Hd c Hin) as Hc.
  destruct (digit_not_marker c Hc) as (Hm & Hdot & _).
  repeat split; auto. intros ->. discriminate Hc.
Qed.

Lemma digits_count_point d :
  forallb isDigit d = true -> count_occ ascii_dec d "."%char = 0.
Proof.
  intros Hd. apply count_occ_not_In. intros Hin.
  now destruct (digits_not_marker d _ Hd Hin) as (_ & _ & H).
Qed.

(** C10: for a matched number within the bound, the default replacer
    returns the prefix followed by the sign as it was matched (nothing or
    a minus sign), by a run of digits that is not empty and, possibly, by
    a point and a second run of digits that is not empty.  Hence the text
    after the sign is not empty, is made of digits and at most one point,
    and has no exponent marker; so the replacement is not a number in
    exponential notation. *)
Theorem C10_fixed_point_output (json : str) (a : ExecArray) :
  In a (matchesOf json) -> ~ exponentExceeds a ->
  exists ip fp,
    defaultReplacement a = Normal (arg 1 a ++ arg 3 a ++ ip ++ fp)
    /\ (arg 3 a = [] \/ arg 3 a = lit "-")
    /\ digits ip
    /\ fractionText fp
    /\ ip ++ fp <> []
    /\ Forall (fun c => isDigit c = true \/ c = "."%char) (ip ++ fp)
    /\ count_occ ascii_dec (ip ++ fp) "."%char <= 1
    /\ Forall (fun c => isExpMarker c = false) (arg 3 a ++ ip ++ fp)
    /\ ~ NumberExpText (arg 3 a ++ ip ++ fp).
Proof.
  intros Hin Hok.
  destruct (defaultReplacement_shape json a Hin Hok)
    as (ip & fp & Hrun & Hsign & [Hne Hip] & Hfp & _).
  exists ip, fp. split; [exact Hrun|]. split; [exact Hsign|].
  split; [split; [exact Hne | exact Hip]|]. split; [exact Hfp|].
  assert (Hbody : Forall (fun c => isDigit c = true \/ c = "."%char)
                    (ip ++ fp)).
  { apply Forall_app. split.
    - apply Forall_forall. intros c Hc. left.
      now destruct (digits_not_marker ip c Hip Hc).
    - destruct Hfp as [-> | (f & -> & [_ Hf])]; constructor; [now right|].
      apply Forall_forall. intros c Hc. left.
      now destruct (digits_not_marker f c Hf Hc). }
  assert (Hmark : Forall (fun c => isExpMarker c = false)
                    (arg 3 a ++ ip ++ fp)).
  { apply Forall_app. split.
    - destruct Hsign as [-> | ->]; repeat constructor.
    - eapply Forall_impl; [|exact Hbody].
      intros c [Hc | ->]; [|reflexivity].
      now destruct (digit_not_marker c Hc). }
  split; [|split; [exact Hbody|split; [|split; [exact Hmark|]]]].
  - destruct ip; [congruence | discriminate].
  - rewrite count_occ_app, (digits_count_point ip Hip).
    destruct Hfp as [-> | (f & -> & [_ Hf])]; [simpl; lia|].
    cbn [count_occ]. destruct (ascii_dec "." "."); [|congruence].
    rewrite (digits_count_point f Hf). lia.
  - intros (p & (_ & _ & _ & Hm & _) & E).
    rewrite E in Hmark. unfold numExp in Hmark.
    rewrite !Forall_app in Hmark.
    destruct Hmark as (_ & _ & _ & Hmark).
    inversion Hmark; subst. congruence.
Qed.

Lemma C10_fixed_point_output_witness :
  exists ip fp,
    defaultReplacement
      (mkExec 0
         [Some (lit "[-10.2e-3"); Some (lit "["); Some (lit "-10.2e-3");
          Some (lit "-"); Some (lit "10"); Some (lit "2"); Some (lit "-3")])
    = Normal (lit "[" ++ lit "-" ++ ip ++ fp)
    /\ (lit "-" = [] \/ lit "-" = lit "-")
    /\ digits ip
    /\ fractionText fp
    /\ ip ++ fp <> []
    /\ Forall (fun c => isDigit c = true \/ c = "."%char) (ip ++ fp)
    /\ count_occ ascii_dec (ip ++ fp) "."%char <= 1
    /\ Forall (fun c => isExpMarker c = false) (lit "-" ++ ip ++ fp)
    /\ ~ NumberExpText (lit "-" ++ ip ++ fp).
Proof.
  apply (C10_fixed_point_output (lit "[-10.2e-3]")).
  - vm_compute. left. reflexivity.
  - unfold exponentExceeds. vm_compute. intros [H | H]; discriminate H.
Defined.

(** C5, as the code has it: for a matched number within the bound whose
    exponent is not negative, or whose integer part has no redundant
    leading zero, the integer part of the default replacer's output has no
    redundant leading zero, a single zero standing where it would be
    empty. *)
Theorem C5_leading_zeros (json : str) (a : ExecArray) :
  In a (matchesOf json) -> ~ exponentExceeds a ->
  (0 <= Number (arg 6 a))%Z \/ noLeadingZeros (arg 4 a) ->
  exists body,
    defaultReplacement a = Normal (arg 1 a ++ arg 3 a ++ body)
    /\ noLeadingZeros (integerPart body).
Proof.
  intros Hin Hok Hcond.
  destruct (defaultReplacement_shape json a Hin Hok)
    as (ip & fp & Hrun & _ & Hip & Hfp & Hz).
  exists (ip ++ fp). split; [exact Hrun|].
  rewrite (integerPart_digits ip fp Hip Hfp). now apply Hz.
Qed.

Lemma C5_leading_zeros_witness :
  exists body,
    defaultReplacement
      (mkExec 0
         [Some (lit "0.01e1"); Some (lit ""); Some (lit "0.01e1");
          Some (lit ""); Some (lit "0"); Some (lit "01"); Some (lit "1")])
    = Normal (lit "" ++ lit "" ++ body)
    /\ noLeadingZeros (integerPart body).
Proof.
  apply (C5_leading_zeros (lit "0.01e1")).
  - vm_compute. left. reflexivity.
  - unfold exponentExceeds. vm_compute. intros [H | H]; discriminate H.
  - left. vm_compute. discriminate.
Defined.

(** C5 as it is stated fails for a negative exponent: the number
    [0012e-2] is matched and converted to [00.12], whose integer part
    keeps a redundant zero. *)
Lemma C5_counterexample :
  exists a,
    In a (matchesOf (lit "0012e-2"))
    /\ ~ exponentExceeds a
    /\ defaultReplacement a = Normal (arg 1 a ++ arg 3 a ++ lit "00.12")
    /\ integerPart (lit "00.12") = lit "00"
    /\ ~ noLeadingZeros (lit "00")
    /\ convert (lit "0012e-2") = Normal (lit "00.12").
Proof.
  exists (mkExec 0
            [Some (lit "0012e-2"); Some (lit ""); Some (lit "0012e-2");
             Some (lit ""); Some (lit "0012"); None; Some (lit "-2")]).
  split; [vm_compute; left; reflexivity|].
  split; [unfold exponentExceeds; vm_compute; intros [H | H]; discriminate H|].
  split; [vm_compute; reflexivity|].
  split; [vm_compute; reflexivity|].
  split; [|vm_compute; reflexivity].
  intros [H | (c & tl & H & Hc)]; [discriminate H|].
  inversion H; subst. now apply Hc.
Qed.

(** C1 fails on the code: [123e-1], which is 12.3, is converted to
    [1.23]. *)
Theorem C1_value_not_preserved :
  convert (lit "123e-1") = Normal (lit "1.23")
  /\ decimalValue (lit "123e-1") = Some (123 # 10)
  /\ decimalValue (lit "1.23") = Some (123 # 100)
  /\ ~ (123 # 10 == 123 # 100)%Q.
Proof.
  split; [vm_compute; reflexivity|].
  split; [vm_compute; reflexivity|].
  split; [vm_compute; reflexivity|].
  intros H. vm_compute in H. discriminate H.
Qed.

(** * The test-suite of the repository

    The expectations of the module's own tests, checked by evaluation of
    the embedding. *)

Example test_conversions :
  Forall (fun t => convert (lit (fst t)) = Normal (lit (snd t)))
    conversionTests.
Proof. repeat constructor. Qed.

Example test_negated_conversions :
  Forall (fun t => convert (lit "-" ++ lit (fst t))
                   = Normal (lit "-" ++ lit (snd t)))
    conversionTests.
Proof. repeat constructor. Qed.

Example test_documents :
  Forall (fun t => convert (jsonLit (fst t)) = Normal (jsonLit (snd t)))
    documentTests.
Proof. repeat constructor. Qed.

Example test_whitespace :
  convert (fst whitespaceTest) = Normal (snd whitespaceTest).
Proof. reflexivity. Qed.

Example test_unmodified :
  Forall (fun s => jsonReplaceExponentials (VString (jsonLit s)) neverCalled
                     heap0
                   = (Normal (jsonLit s), heap0))
    unmodifiedTests.
Proof. repeat constructor. Qed.

Example test_counting_replacer :
  jsonReplaceExponentials (VString (lit "[1e2,1e2]")) countingReplacer
    (mkHeap 0 0)
  = (Normal (lit "[1,2]"), mkHeap 0 2).
Proof. reflexivity. Qed.

Example test_exponent_too_large :
  convert (lit "1e1000000")
  = Throw (RangeError (lit "1e1000000 exponent exceeds maximum"))
  /\ convert (lit "1e-1000000")
     = Throw (RangeError (lit "1e-1000000 exponent exceeds maximum")).
Proof. split; reflexivity. Qed.

Example test_large_exponent_with_replacer :
  fst (jsonReplaceExponentials (VString (lit "1e1000000"))
         (pureReplacer (fun _ => lit "Infinity")) heap0)
  = Normal (lit "Infinity").
Proof. reflexivity. Qed.

Example test_no_arguments :
  fst (jsonReplaceExponentials VUndefined VUndefined heap0)
  = Throw (TypeError (lit "json must be a string"))
  /\ fst (jsonReplaceExponentials VObject VUndefined heap0)
     = Throw (TypeError (lit "json must be a string"))
  /\ fst (jsonReplaceExponentials (VString (lit "")) VObject heap0)
     = Throw (TypeError (lit "replacer must be a function")).
Proof. repeat split. Qed.

(** The bound itself is accepted. *)
Example exponent_at_the_bound :
  (exists out, convert (lit "1e1000") = Normal out)
  /\ (exists out, convert (lit "1e-1000") = Normal out)
  /\ (exists msg, convert (lit "1e1001") = Throw (RangeError msg))
  /\ (exists msg, convert (lit "1e-1001") = Throw (RangeError msg)).
Proof.
  repeat split; eexists; vm_compute; reflexivity.
Qed.

(** * Further properties

    What the specification leaves open: where the converter keeps the
    value and what it does elsewhere, how much the output can grow, which
    number a RangeError names, that no number is missed, what ill-formed
    input does, where the input can be cut, and the command built on the
    module. *)

Import ValueFacts.

Lemma wholeLiterals_Skippable fuel : forall s,
  wholeLiterals fuel s = true -> Skippable s.
Proof.
  induction fuel as [|fuel IH]; intros s H; [discriminate H|].
  destruct s as [|a tl]; [constructor|].
  cbn [wholeLiterals] in H.
  destruct (Ascii.eqb a dquote) eqn:Ha.
  - apply Ascii.eqb_eq in Ha. subst a.
    destruct (stringBody tl) as [r|] eqn:Hb; [|discriminate H].
    apply stringBody_sound in Hb. destruct Hb as (b & Hb & ->).
    change (dquote :: b ++ dquote :: r)
      with ((dquote :: b) ++ [dquote] ++ r).
    rewrite app_assoc. apply Skip_string; [now exists b | now apply IH].
  - apply Ascii.eqb_neq in Ha. apply Skip_char; [exact Ha | now apply IH].
Qed.

(** ** The number the scanner reads at a position *)

Lemma takeWhile_app P d r :
  forallb P d = true ->
  takeWhile P (d ++ r) = d ++ takeWhile P r
  /\ dropWhile P (d ++ r) = dropWhile P r.
Proof.
  intros Hd. induction d as [|a d IH]; [auto|].
  simpl in Hd. apply andb_true_iff in Hd. destruct Hd as [Ha Hd].
  simpl. rewrite Ha. destruct (IH Hd) as [-> ->]. auto.
Qed.

Lemma scanDigits_app d r :
  digits d ->
  scanDigits (d ++ r) = Some (d ++ takeWhile isDigit r, dropWhile isDigit r).
Proof.
  intros [Hne Hd]. unfold scanDigits.
  destruct (takeWhile_app isDigit d r Hd) as [-> ->].
  destruct d; [congruence | reflexivity].
Qed.

Lemma scanSign_numExp sign int r :
  sign = [] \/ sign = lit "-" -> digits int ->
  scanSign (sign ++ int ++ r) = (sign, int ++ r).
Proof.
  intros Hsign Hint. destruct Hsign as [-> | ->]; [|reflexivity].
  destruct (digits_head int Hint) as (a & tl & -> & Ha).
  cbn [app]. unfold scanSign.
  destruct (digit_not_marker a Ha) as (_ & _ & _ & _ & Hminus).
  destruct a as [[] [] [] [] [] [] [] []]; try discriminate Hminus;
    reflexivity.
Qed.

(** Read at the head of a text that begins with a number, the scanner
    takes that number and the digits that follow it. *)
Lemma scanNumber_exact p post :
  WellFormed p ->
  scanNumber (numExp p ++ post)
  = Some (mkParts (signPart p) (intPart p) (fracPart p) (marker p)
            (expPart p ++ takeWhile isDigit post),
          dropWhile isDigit post).
Proof.
  intros (Hsign & Hint & Hfrac & Hm & es & d & Hexp & Hes & Hd).
  destruct p as [sign int frac m e]. cbn in *. subst e.
  unfold numExp, scanNumber.
  cbn [signPart intPart fracPart marker expPart].
  set (tail := m :: (es ++ d)).
  set (fr := match frac with Some f => "."%char :: f | None => [] end).
  replace ((sign ++ int ++ fr ++ tail) ++ post)
    with (sign ++ int ++ (fr ++ tail ++ post))
    by now rewrite <- !app_assoc.
  rewrite (scanSign_numExp sign int _ Hsign Hint).
  assert (Hfr : match fr ++ tail ++ post with
                | a :: _ => isDigit a = false
                | [] => True
                end).
  { unfold fr, tail. destruct frac; [reflexivity|].
    cbn [app]. now destruct (marker_not_digit m Hm). }
  rewrite (scanDigits_app_stop int _ Hint Hfr).
  assert (Hsf : scanFrac (fr ++ tail ++ post) = (frac, tail ++ post)).
  { unfold fr. destruct frac as [f|].
    - cbn [app scanFrac]. unfold tail.
      rewrite (scanDigits_app_stop f); [reflexivity | now apply Hfrac |].
      cbn [app]. now destruct (marker_not_digit m Hm).
    - cbn [app]. unfold tail. cbn [app scanFrac].
      destruct (marker_not_digit m Hm) as [_ Hdot].
      destruct m as [[] [] [] [] [] [] [] []]; try discriminate Hdot;
        reflexivity. }
  rewrite Hsf. unfold tail. cbn [app]. rewrite Hm.
  assert (Hse : scanExp ((es ++ d) ++ post)
                = Some ((es ++ d) ++ takeWhile isDigit post,
                        dropWhile isDigit post)).
  { rewrite <- !app_assoc. unfold scanExp.
    destruct Hes as [-> | [-> | ->]].
    - destruct (digits_head d Hd) as (a & tl & -> & Ha).
      pose proof (scanDigits_app (a :: tl) post Hd) as Hsome.
      cbn [app] in Hsome |- *.
      assert (Hs : isExpSign a = false) by (revert Ha; clear; by_cases_on a).
      rewrite Hs, Hsome. reflexivity.
    - cbn [app lit list_ascii_of_string].
      change (isExpSign "+") with true. cbv iota.
      now rewrite (scanDigits_app d post Hd).
    - cbn [app lit list_ascii_of_string].
      change (isExpSign "-") with true. cbv iota.
      now rewrite (scanDigits_app d post Hd). }
  rewrite Hse. reflexivity.
Qed.

(** Where the scanner finds its match, it has read the number of the
    match. *)
Lemma scan_number : forall s b t r,
  scan b s = Some (t, r) ->
  scanNumber (numExp (parts t) ++ r) = Some (parts t, r).
Proof.
  intros s. remember (length s) as len eqn:Hlen.
  revert s Hlen. induction len as [len IH] using lt_wf_ind.
  intros s Hlen b t r H. subst len.
  assert (Hcons : forall l x,
            consPrefix l x = Some (t, r) ->
            exists t', x = Some (t', r) /\ parts t' = parts t).
  { intros l [[t' r']|] E; [|discriminate E].
    cbn [consPrefix] in E. inversion E; subst.
    exists t'. auto. }
  destruct b.
  - destruct s as [|a tl]; [discriminate H|].
    cbn [scan] in H.
    destruct (Ascii.eqb a dquote).
    { apply Hcons in H. destruct H as (t' & H & <-).
      eapply IH; [|reflexivity|exact H]. simpl. lia. }
    destruct (Ascii.eqb a backslash).
    + destruct tl as [|e tl1]; [discriminate H|].
      destruct (isEscape e).
      { apply Hcons in H. destruct H as (t' & H & <-).
        eapply IH; [|reflexivity|exact H]. simpl. lia. }
      destruct (Ascii.eqb e "u"); [|discriminate H].
      destruct tl1 as [|h1 [|h2 [|h3 [|h4 tl2]]]]; try discriminate H.
      destruct (isHex h1 && isHex h2 && isHex h3 && isHex h4);
        [|discriminate H].
      apply Hcons in H. destruct H as (t' & H & <-).
      eapply IH; [|reflexivity|exact H]. simpl. lia.
    + destruct (isStringChar a); [|discriminate H].
      apply Hcons in H. destruct H as (t' & H & <-).
      eapply IH; [|reflexivity|exact H]. simpl. lia.
  - rewrite scan_outside in H.
    destruct (scanNumber s) as [[p r']|] eqn:Hn.
    + inversion H; subst. cbn [parts].
      pose proof (scanNumber_split _ _ _ Hn) as Hs.
      destruct Hs as [Hs _]. now rewrite <- Hs.
    + destruct s as [|a tl]; [discriminate H|].
      apply Hcons in H. destruct H as (t' & H & <-).
      eapply IH; [|reflexivity|exact H]. simpl. lia.
Qed.

(** ** The match is the leftmost number, and the longest there *)

Lemma scan_leftmost pre :
  Skippable pre ->
  forall p post, WellFormed p ->
  exists t r,
    scan false (pre ++ numExp p ++ post) = Some (t, r)
    /\ length (prefix t) <= length pre
    /\ (length (prefix t) = length pre ->
        numExp (parts t) = numExp p ++ takeWhile isDigit post).
Proof.
  induction 1 as [|c s Hc _ IH|l s Hl _ IH]; intros p post Hwf.
  - cbn [app]. rewrite scan_outside, (scanNumber_exact p post Hwf).
    eexists; eexists. split; [reflexivity|]. cbn [prefix parts length].
    split; [lia|]. intros _. unfold numExp.
    cbn [signPart intPart fracPart marker expPart].
    now rewrite <- !app_assoc.
  - cbn [app]. rewrite scan_outside.
    destruct (scanNumber (c :: s ++ numExp p ++ post)) as [[q r]|].
    + eexists; eexists. split; [reflexivity|]. cbn [prefix length].
      split; [lia|]. intros E. discriminate E.
    + apply Ascii.eqb_neq in Hc. rewrite Hc.
      destruct (IH p post Hwf) as (t & r & -> & Hle & Heq).
      cbn [consPrefix]. eexists; eexists. split; [reflexivity|].
      cbn [prefix parts app length]. split; [lia|].
      intros E. apply Heq. lia.
  - destruct Hl as (b & Hb & ->). cbn [app].
    rewrite scan_outside, scanNumber_quote.
    change (Ascii.eqb dquote dquote) with true.
    rewrite <- !app_assoc. cbn [app].
    rewrite (scan_string_complete b Hb).
    destruct (IH p post Hwf) as (t & r & -> & Hle & Heq).
    cbn [consPrefix]. eexists; eexists. split; [reflexivity|].
    cbn [prefix parts].
    repeat (rewrite length_app || cbn [app length]).
    split; [lia|]. intros E. apply Heq. lia.
Qed.

Lemma scanned_NumberExpText tok p :
  scanNumber tok = Some (p, []) -> NumberExpText tok.
Proof.
  intros H. apply scanNumber_split in H. destruct H as [-> Hwf].
  exists p. now rewrite app_nil_r.
Qed.

Lemma exec_match json i a R :
  RegExpBuiltinExec (jsonWithNumberExpRE i) json = (ExecMatch a, R) ->
  exists t r,
    firstMatch (skipn i json) = Some (t, r)
    /\ a = toExec i t /\ R = jsonWithNumberExpRE (i + length (matched t)).
Proof.
  rewrite exec_run.
  destruct (firstMatch (skipn i json)) as [[t r]|]; intros E;
    inversion E; subst. eauto.
Qed.

(** X7: a match of [jsonWithNumberExpRE] found from the cursor [i] is
    the leftmost number, and the longest there: a number in exponential
    notation that stands after skippable text from [i] on begins no
    earlier than the matched number, and one that begins at the same
    place is a prefix of it. *)
Theorem X7_leftmost_longest json i a R pre tok post :
  RegExpBuiltinExec (jsonWithNumberExpRE i) json = (ExecMatch a, R) ->
  skipn i json = pre ++ tok ++ post ->
  Skippable pre -> NumberExpText tok ->
  length (arg 1 a) <= length pre
  /\ (length (arg 1 a) = length pre -> exists more, arg 2 a = tok ++ more).
Proof.
  intros Hexec Hs Hpre (p & Hwf & ->).
  destruct (exec_match _ _ _ _ Hexec) as (t & r & Hm & -> & _).
  destruct (scan_leftmost pre Hpre p post Hwf) as (t' & r' & Hm' & Hle & Heq).
  unfold firstMatch in Hm. rewrite Hs, Hm' in Hm. inversion Hm; subst.
  change (arg 1 (toExec i t)) with (prefix t).
  change (arg 2 (toExec i t)) with (numExp (parts t)).
  split; [exact Hle|]. intros E. rewrite (Heq E). eauto.
Qed.

Lemma X7_leftmost_longest_witness :
  length (lit "[") <= length (lit "[")
  /\ (length (lit "[") = length (lit "[") ->
      exists more, lit "-12e34" = lit "-12e3" ++ more).
Proof.
  apply (X7_leftmost_longest (lit "[-12e34,5e6]") 0
           (mkExec 0
              [Some (lit "[-12e34"); Some (lit "["); Some (lit "-12e34");
               Some (lit "-"); Some (lit "12"); None; Some (lit "34")])
           (jsonWithNumberExpRE 7) (lit "[") (lit "-12e3") (lit "4,5e6]")).
  - vm_compute. reflexivity.
  - reflexivity.
  - apply Skippable_plain. repeat constructor; discriminate.
  - apply (scanned_NumberExpText _
             (mkParts (lit "-") (lit "12") None "e"%char (lit "3"))).
    vm_compute. reflexivity.
Defined.

(** ** A number alone, and a replacer that calls the module again *)

Lemma Tokens_lone p :
  WellFormed p -> Tokens (numExp p) [mkToken [] p] [].
Proof.
  intros Hwf. apply Tokens_match with (r := []).
  - unfold firstMatch. rewrite scan_outside.
    rewrite <- (app_nil_r (numExp p)) at 1.
    rewrite (scanNumber_exact p [] Hwf). cbn [takeWhile dropWhile].
    rewrite app_nil_r. now destruct p.
  - now constructor.
Qed.

Lemma convertTokens_lone p :
  convertTokens [mkToken [] p] = convertToken (mkToken [] p).
Proof.
  cbn [convertTokens]. destruct (convertToken (mkToken [] p)); cbn [bind];
    [now rewrite app_nil_r | reflexivity | reflexivity].
Qed.

Lemma callReplacer_nested {W} ts : forall w : W,
  Forall (fun t => WellFormed (parts t)) ts ->
  callReplacer
    (fun numExp h => jsonReplaceExponentials (VString numExp) VUndefined h)
    ts (mkHeap 0 w)
  = (convertTokens ts, mkHeap 0 w).
Proof.
  induction ts as [|t ts IH]; intros w Hwf; [reflexivity|].
  inversion Hwf as [|? ? Ht Hts]; subst.
  cbn [callReplacer convertTokens].
  rewrite (default_run _ _ _ _ (Tokens_lone (parts t) Ht)).
  rewrite convertTokens_lone. cbn [world].
  unfold convertToken. cbn [parts prefix]. cbv zeta.
  destruct ((Number (expPart (parts t)) >? 1000)
            || (Number (expPart (parts t)) <? -1000))%Z;
    cbn [bind app]; [reflexivity|].
  rewrite app_nil_r, (IH w Hts).
  destruct (convertTokens ts); reflexivity.
Qed.

(** X10: the replacer may call the module again, as the recipe of the
    README does.  With the replacer that returns
    [jsonReplaceExponentials(numExp)], a call gives what a call without
    replacer gives, result and store alike: the matches are collected
    before the first replacement, so the cursor that the inner calls
    rewind is not read again. *)
Theorem X10_nested_call (W : Type) (json : str) (h : Heap W) :
  jsonReplaceExponentials (VString json)
    (VFunction (fun numExp h' =>
       jsonReplaceExponentials (VString numExp) VUndefined h')) h
  = jsonReplaceExponentials (VString json) VUndefined h.
Proof.
  destruct (Tokens_total json) as (ts & suffix & Hts).
  rewrite (custom_run json _ h ts suffix Hts).
  rewrite (default_run json h ts suffix Hts).
  rewrite callReplacer_nested; [reflexivity|].
  eapply Forall_impl; [|exact (Tokens_wellformed _ _ _ Hts)].
  intros t [Ht _]. exact Ht.
Qed.

(** ** What an ill-formed string literal does

    The pattern is sticky: a match has to begin where the last one ended.
    A quote that opens no well-formed literal can be passed neither by
    [stringPattern] nor by the class of the characters other than a
    quote, so the search ends there. *)

Section IllFormed.

(** The text after the quote. *)
Variable x : str.

Lemma takeWhile_quote s :
  takeWhile isDigit (s ++ dquote :: x) = takeWhile isDigit s
  /\ dropWhile isDigit (s ++ dquote :: x) = dropWhile isDigit s ++ dquote :: x.
Proof.
  induction s as [|a s [IH1 IH2]]; [split; reflexivity|].
  cbn [app takeWhile dropWhile]. destruct (isDigit a).
  - now rewrite IH1, IH2.
  - split; reflexivity.
Qed.

Lemma scanDigits_quote s :
  scanDigits (s ++ dquote :: x)
  = match scanDigits s with
    | Some (d, r) => Some (d, r ++ dquote :: x)
    | None => None
    end.
Proof.
  unfold scanDigits. destruct (takeWhile_quote s) as [-> ->].
  destruct (takeWhile isDigit s); reflexivity.
Qed.

Lemma scanSign_quote s :
  scanSign (s ++ dquote :: x) = (fst (scanSign s), snd (scanSign s) ++ dquote :: x).
Proof.
  destruct s as [|a s]; [reflexivity|].
  cbn [app]. unfold scanSign.
  destruct a as [[] [] [] [] [] [] [] []]; reflexivity.
Qed.

Lemma scanFrac_quote s :
  scanFrac (s ++ dquote :: x) = (fst (scanFrac s), snd (scanFrac s) ++ dquote :: x).
Proof.
  destruct s as [|a s]; [reflexivity|].
  cbn [app].
  destruct (Ascii.eqb a ".") eqn:Ha.
  - apply Ascii.eqb_eq in Ha. subst a. cbn [scanFrac].
    rewrite scanDigits_quote.
    destruct (scanDigits s) as [[f r]|]; reflexivity.
  - unfold scanFrac.
    destruct a as [[] [] [] [] [] [] [] []]; try discriminate Ha;
      reflexivity.
Qed.

Lemma scanExp_quote s :
  scanExp (s ++ dquote :: x)
  = match scanExp s with
    | Some (d, r) => Some (d, r ++ dquote :: x)
    | None => None
    end.
Proof.
  destruct s as [|a s]; [reflexivity|].
  cbn [app]. unfold scanExp.
  destruct (isExpSign a).
  - rewrite scanDigits_quote.
    destruct (scanDigits s) as [[d r]|]; reflexivity.
  - change (a :: s ++ dquote :: x) with ((a :: s) ++ dquote :: x).
    rewrite (scanDigits_quote (a :: s)).
    destruct (scanDigits (a :: s)) as [[d r]|]; reflexivity.
Qed.

Lemma scanNumber_quote_after s :
  scanNumber (s ++ dquote :: x)
  = match scanNumber s with
    | Some (p, r) => Some (p, r ++ dquote :: x)
    | None => None
    end.
Proof.
  unfold scanNumber. rewrite scanSign_quote.
  destruct (scanSign s) as [sign s1]. cbn [fst snd].
  rewrite scanDigits_quote.
  destruct (scanDigits s1) as [[int s2]|]; [|reflexivity].
  rewrite scanFrac_quote.
  destruct (scanFrac s2) as [frac s3]. cbn [fst snd].
  destruct s3 as [|m s4]; [reflexivity|].
  cbn [app]. destruct (isExpMarker m); [|reflexivity].
  rewrite scanExp_quote.
  destruct (scanExp s4) as [[d r]|]; reflexivity.
Qed.

Hypothesis illFormed : stringBody x = None.

Lemma scan_illFormed : forall s, stringBody s = None -> scan true s = None.
Proof.
  intros s. remember (length s) as len eqn:Hlen.
  revert s Hlen. induction len as [len IH] using lt_wf_ind.
  intros s Hlen H. subst len.
  destruct s as [|a tl]; [reflexivity|].
  cbn [scan stringBody] in H |- *.
  destruct (Ascii.eqb a dquote); [discriminate H|].
  destruct (Ascii.eqb a backslash).
  - destruct tl as [|c tl1]; [reflexivity|].
    destruct (isEscape c).
    { rewrite (IH (length tl1)); [reflexivity | simpl; lia | reflexivity
                                 | exact H]. }
    destruct (Ascii.eqb c "u"); [|reflexivity].
    destruct tl1 as [|h1 [|h2 [|h3 [|h4 tl2]]]]; try reflexivity.
    destruct (isHex h1 && isHex h2 && isHex h3 && isHex h4);
      [|reflexivity].
    rewrite (IH (length tl2)); [reflexivity | simpl; lia | reflexivity
                               | exact H].
  - destruct (isStringChar a); [|reflexivity].
    rewrite (IH (length tl)); [reflexivity | simpl; lia | reflexivity
                              | exact H].
Qed.

Lemma scan_quote_after s :
  Skippable s ->
  scan false (s ++ dquote :: x)
  = match scan false s with
    | Some (t, r) => Some (t, r ++ dquote :: x)
    | None => None
    end.
Proof.
  induction 1 as [|c s Hc _ IH|l s Hl _ IH].
  - cbn [app]. rewrite scan_outside, scanNumber_quote.
    change (Ascii.eqb dquote dquote) with true.
    now rewrite (scan_illFormed x illFormed).
  - rewrite (scan_outside (c :: s)), (scan_outside ((c :: s) ++ dquote :: x)).
    rewrite scanNumber_quote_after.
    destruct (scanNumber (c :: s)) as [[p r]|]; [reflexivity|].
    cbn [app]. apply Ascii.eqb_neq in Hc. rewrite Hc, IH.
    destruct (scan false s) as [[t r]|]; reflexivity.
  - destruct Hl as (b & Hb & ->). cbn [app].
    rewrite !scan_outside, !scanNumber_quote.
    change (Ascii.eqb dquote dquote) with true.
    rewrite <- !app_assoc. cbn [app].
    rewrite !(scan_string_complete b Hb), IH.
    destruct (scan false s) as [[t r]|]; reflexivity.
Qed.

End IllFormed.

Lemma Skippable_cancel a :
  Skippable a -> forall b, Skippable (a ++ b) -> Skippable b.
Proof.
  induction 1 as [|c s Hc _ IH|l s Hl _ IH]; intros b H.
  - exact H.
  - cbn [app] in H. inversion H as [|c' s' Hc' Hs' E|l' s' Hl' Hs' E]; subst.
    + now apply IH.
    + destruct (StringLiteral_head l' Hl') as (tl & ->).
      cbn [app] in E. inversion E. congruence.
  - rewrite <- app_assoc in H.
    remember (l ++ s ++ b) as whole eqn:E.
    destruct H as [|c' s' Hc' Hs'|l' s' Hl' Hs'].
    + destruct (StringLiteral_head l Hl) as (tl & ->). discriminate E.
    + destruct (StringLiteral_head l Hl) as (tl & ->).
      cbn [app] in E. inversion E. congruence.
    + pose proof (StringLiteral_unique l' l _ _ Hl' Hl E) as ->.
      apply app_inv_head in E. subst s'. now apply IH.
Qed.

Lemma Tokens_quote_after x s ts suffix :
  stringBody x = None ->
  Tokens s ts suffix -> Skippable s ->
  Tokens (s ++ dquote :: x) ts (suffix ++ dquote :: x).
Proof.
  intros Hx. induction 1 as [s Hn | s t r ts suffix Hm Hts IH]; intros Hs.
  - constructor. unfold firstMatch in *.
    now rewrite (scan_quote_after x Hx s Hs), Hn.
  - apply Tokens_match with (r := r ++ dquote :: x).
    + unfold firstMatch in *.
      now rewrite (scan_quote_after x Hx s Hs), Hm.
    + apply IH. apply firstMatch_sound in Hm.
      destruct Hm as (E & Hpre & Hwf). rewrite E, app_assoc in Hs.
      apply (Skippable_cancel (prefix t ++ numExp (parts t))); [|exact Hs].
      apply Skippable_app; [exact Hpre|].
      apply Skippable_plain. now apply numExp_no_quote.
Qed.

Lemma no_literal_stringBody x :
  (forall l r, dquote :: x = l ++ r -> ~ StringLiteral l)
  <-> stringBody x = None.
Proof.
  split.
  - intros H. destruct (stringBody x) as [r|] eqn:E; [|reflexivity].
    exfalso. apply stringBody_sound in E. destruct E as (b & Hb & ->).
    apply (H (dquote :: b ++ [dquote]) r).
    + cbn [app]. now rewrite <- app_assoc.
    + now exists b.
  - intros H l r E (b & Hb & ->).
    cbn [app] in E. inversion E as [E']. rewrite <- app_assoc in E'.
    cbn [app] in E'. rewrite E', (stringBody_complete b Hb) in H.
    discriminate H.
Qed.

(** X8: a double quote that opens no well-formed string literal ends
    the conversion: the text from that quote on is returned as it is, the
    numbers it holds included, after the result for the text before
    it. *)
Theorem X8_ill_formed_literal (W : Type) (pre x : str)
    (replacer : Value W) (h : Heap W) :
  Skippable pre ->
  (forall l r, dquote :: x = l ++ r -> ~ StringLiteral l) ->
  jsonReplaceExponentials (VString (pre ++ dquote :: x)) replacer h
  = let (c, h') := jsonReplaceExponentials (VString pre) replacer h in
    (out <- c ;; Normal (out ++ dquote :: x), h').
Proof.
  intros Hpre Hx. apply no_literal_stringBody in Hx.
  destruct (Tokens_total pre) as (ts & suffix & Hts).
  pose proof (Tokens_quote_after x pre ts suffix Hx Hts Hpre) as Hts'.
  destruct replacer as [| | | | | |f]; try reflexivity.
  - rewrite (default_run _ h _ _ Hts), (default_run _ h _ _ Hts').
    destruct (convertTokens ts); cbn [bind]; [|reflexivity|reflexivity].
    now rewrite <- app_assoc.
  - rewrite (custom_run _ f h _ _ Hts), (custom_run _ f h _ _ Hts').
    destruct (callReplacer f ts (mkHeap 0 (world h))) as [[o|err|] h'];
      cbn [bind]; [|reflexivity|reflexivity].
    now rewrite <- app_assoc.
Qed.

Lemma X8_ill_formed_literal_witness :
  jsonReplaceExponentials
    (VString (jsonLit "[1e1,'a'," ++ dquote :: jsonLit "b\q',2e2]"))
    VUndefined heap0
  = let (c, h') :=
      jsonReplaceExponentials (VString (jsonLit "[1e1,'a',")) VUndefined
        heap0 in
    (out <- c ;; Normal (out ++ dquote :: jsonLit "b\q',2e2]"), h').
Proof.
  apply (X8_ill_formed_literal unit (jsonLit "[1e1,'a',")
           (jsonLit "b\q',2e2]") VUndefined heap0).
  - apply (wholeLiterals_Skippable 9). vm_compute. reflexivity.
  - apply no_literal_stringBody. vm_compute. reflexivity.
Defined.

(** ** The value of the converter's output *)



(** X2: where it is not.  For a negative exponent [-k] with [k] smaller
    than the number [n] of digits of the integer part, the point is put
    after the first [k] digits instead of before the last [k]: the output
    denotes the value of the input times [10^(2k-n)]. *)
Theorem X2_point_misplaced p :
  WellFormed p ->
  (Number (expPart p) < 0)%Z ->
  (- Number (expPart p) < Z.of_nat (length (intPart p)))%Z ->
  exists out v1 v2,
    exponentialPartsToFixed (signPart p) (intPart p)
      (fracOrEmpty (fracPart p)) (Number (expPart p)) = Normal out
    /\ decimalValue (numExp p) = Some v1
    /\ decimalValue out = Some v2
    /\ (v2 == v1 * Qpower (inject_Z 10)
                     (- 2 * Number (expPart p)
                      - Z.of_nat (length (intPart p))))%Q.
Proof.
  intros Hwf Hneg Hlen.
  rewrite exponentialPartsToFixed_toFixed, (decimalValue_numExp p Hwf).
  destruct Hwf as (Hsign & Hint & Hfrac & _).
  set (e := Number (expPart p)) in *.
  assert (Hfo : fracOrEmpty (fracPart p) = fracDigits (fracPart p)).
  { destruct (fracPart p) as [[|c tl]|]; reflexivity. }
  rewrite Hfo. set (f := fracDigits (fracPart p)).
  assert (Hf : forallb isDigit f = true).
  { unfold f. rewrite <- Hfo. now apply fracOrEmpty_digits. }
  unfold toFixed.
  replace (e >=? 0)%Z with false by (symmetry; rewrite Z.geb_leb; apply Z.leb_gt; lia).
  set (k := Z.to_nat (- e)).
  replace (k <? length (intPart p)) with true
    by (symmetry; apply Nat.ltb_lt; unfold k; lia).
  destruct Hint as [Hne Hd].
  destruct (forallb_firstn_skipn isDigit (intPart p) k Hd) as [Hd1 Hd2].
  assert (Hip : digits (firstn k (intPart p))).
  { split; [|exact Hd1]. intros E.
    apply (f_equal (@length ascii)) in E.
    rewrite length_firstn in E. simpl in E. unfold k in *. lia. }
  assert (Hfp : fractionText (lit "." ++ skipn k (intPart p) ++ f)).
  { right. eexists. split; [reflexivity|].
    apply digits_app_l; [|exact Hf]. split; [|exact Hd2]. intros E.
    apply (f_equal (@length ascii)) in E.
    rewrite length_skipn in E. simpl in E. unfold k in *. lia. }
  destruct (decimalValue_fixed (signPart p) _ _ Hsign Hip Hfp)
    as (f' & [[E _] | [E _]] & Hv); [discriminate E|].
  inversion E; subst f'.
  eexists. eexists. eexists.
  split; [reflexivity|]. split; [reflexivity|].
  split; [exact Hv|].
  rewrite app_assoc, firstn_skipn, length_app, length_skipn.
  rewrite <- Qmult_assoc, <- Qpower_plus by discriminate.
  apply Qmult_comp; [reflexivity|].
  replace (- Z.of_nat (length (intPart p) - k + length f))%Z
    with (- Z.of_nat (length f) + e
          + (-2 * e - Z.of_nat (length (intPart p))))%Z
    by (unfold k; lia).
  reflexivity.
Qed.

Lemma X2_point_misplaced_witness :
  exists out v1 v2,
    exponentialPartsToFixed (lit "") (lit "1234") (lit "5") (-1)
    = Normal out
    /\ decimalValue (lit "1234.5e-1") = Some v1
    /\ decimalValue out = Some v2
    /\ (v2 == v1 * Qpower (inject_Z 10) (- 2 * -1 - 4))%Q.
Proof.
  apply (X2_point_misplaced
           (mkParts (lit "") (lit "1234") (Some (lit "5")) "e"%char
              (lit "-1"))).
  - apply (scanNumber_split (lit "1234.5e-1") _ []). vm_compute. reflexivity.
  - vm_compute. reflexivity.
  - vm_compute. reflexivity.
Defined.

(** ** The digits of the converter's output *)






Lemma length_zeros n : length (zeros n) = n.
Proof. apply repeat_length. Qed.






(** ** The size of the output *)

Lemma stripLeadingZeros_length s : length (stripLeadingZeros s) <= length s.
Proof.
  destruct (stripLeadingZeros_zeros s) as (k & Hk).
  rewrite Hk at 2. rewrite length_app. lia.
Qed.

Lemma toFixed_length p :
  WellFormed p ->
  length (toFixed (signPart p) (intPart p) (fracOrEmpty (fracPart p))
            (Number (expPart p)))
  <= length (numExp p) + Z.abs_nat (Number (expPart p)).
Proof.
  intros (_ & [Hint _] & Hfrac & _ & es & d & Hexp & _ & [Hd _]).
  assert (Hi : 1 <= length (intPart p))
    by (destruct (intPart p); [congruence | simpl; lia]).
  assert (Hx : 1 <= length (expPart p)).
  { rewrite Hexp, length_app. destruct d; [congruence | simpl; lia]. }
  set (f := fracOrEmpty (fracPart p)).
  assert (Hlen : length (signPart p) + length (intPart p) + length f
                   + 1 + length (expPart p) <= length (numExp p)
                 /\ (f <> [] ->
                     length (signPart p) + length (intPart p) + length f
                       + 2 + length (expPart p) <= length (numExp p))).
  { unfold numExp, f. rewrite !length_app.
    destruct (fracPart p) as [[|c tl]|]; cbn [fracOrEmpty length];
      (split; [lia | intros H; try congruence; lia]). }
  destruct Hlen as [Hlen Hlen'].
  set (e := Number (expPart p)). unfold toFixed.
  destruct (e >=? 0)%Z eqn:He.
  - apply Z.geb_le in He. rewrite length_app.
    pose proof (stripLeadingZeros_length
                  (if length f <=? Z.to_nat e
                   then intPart p ++ f ++ zeros (Z.to_nat e - length f)
                   else intPart p ++ firstn (Z.to_nat e) f ++ lit "."
                          ++ skipn (Z.to_nat e) f)) as Hs.
    destruct (length f <=? Z.to_nat e) eqn:Hle; cbv iota in Hs |- *.
    + apply Nat.leb_le in Hle.
      rewrite !length_app, length_zeros in Hs. lia.
    + apply Nat.leb_gt in Hle.
      rewrite !length_app, length_firstn, length_skipn in Hs.
      change (length (lit ".")) with 1 in Hs.
      assert (f <> []) by (intros E; rewrite E in Hle; simpl in Hle; lia).
      specialize (Hlen' H). lia.
  - rewrite Z.geb_leb in He. apply Z.leb_gt in He.
    destruct (Z.to_nat (- e) <? length (intPart p)) eqn:Hk.
    + apply Nat.ltb_lt in Hk.
      rewrite !length_app, length_firstn, length_skipn.
      change (length (lit ".")) with 1. lia.
    + apply Nat.ltb_ge in Hk.
      rewrite !length_app, length_zeros.
      change (length (lit "0.")) with 2. lia.
Qed.

Lemma convertTokens_length ts : forall outs,
  Forall (fun t => WellFormed (parts t)) ts ->
  convertTokens ts = Normal outs ->
  length outs
  <= length (concat (map matched ts))
     + list_sum (map (fun t => Z.abs_nat (Number (expPart (parts t)))) ts)
  /\ Forall (fun t => Z.abs_nat (Number (expPart (parts t))) <= 1000) ts.
Proof.
  induction ts as [|t ts IH]; intros outs Hwf H.
  - cbn [convertTokens] in H. inversion H; subst. simpl. auto.
  - inversion Hwf as [|? ? Ht Hts]; subst.
    cbn [convertTokens] in H. unfold convertToken in H. cbv zeta in H.
    destruct ((Number (expPart (parts t)) >? 1000)
              || (Number (expPart (parts t)) <? -1000))%Z eqn:Hb;
      [discriminate H|].
    cbn [bind] in H.
    destruct (convertTokens ts) as [rs|err|] eqn:E; cbn [bind] in H;
      try discriminate H.
    inversion H; subst outs.
    destruct (IH rs Hts eq_refl) as [Hl Hall].
    apply orb_false_iff in Hb. destruct Hb as [H1 H2].
    rewrite Z.gtb_ltb in H1. apply Z.ltb_ge in H1, H2.
    split; [|constructor; [lia | exact Hall]].
    pose proof (toFixed_length (parts t) Ht) as Hf.
    cbn [map concat]. unfold list_sum. cbn [fold_right].
    fold (list_sum (map (fun t0 => Z.abs_nat (Number (expPart (parts t0)))) ts)).
    unfold matched at 1.
    rewrite !length_app in *. lia.
Qed.

Lemma list_sum_bound {A} (f : A -> nat) b l :
  Forall (fun a => f a <= b) l -> list_sum (map f l) <= b * length l.
Proof.
  induction 1 as [|a l Ha _ IH]; [simpl; lia|].
  cbn [map length]. unfold list_sum in *. cbn [fold_right]. lia.
Qed.

(** X4: when a call without replacer returns, the output is longer than
    the input by no more than the sum of the magnitudes of the matched
    exponents, hence by no more than 1000 characters for each matched
    number. *)
Theorem X4_output_size (W : Type) (json : str) (h : Heap W) (out : str) :
  fst (jsonReplaceExponentials (VString json) VUndefined h) = Normal out ->
  length out
  <= length json
     + list_sum (map (fun a => Z.abs_nat (Number (arg 6 a)))
                  (matchesOf json))
  /\ length out <= length json + 1000 * length (matchesOf json).
Proof.
  intros Hrun. destruct (Tokens_total json) as (ts & suffix & Hts).
  rewrite (default_run json h ts suffix Hts) in Hrun. cbn [fst] in Hrun.
  rewrite (matchesOf_tokens json ts suffix Hts).
  rewrite (tokenResults_map (fun a => Z.abs_nat (Number (arg 6 a)))
             (fun t => Z.abs_nat (Number (expPart (parts t)))))
    by reflexivity.
  rewrite tokenResults_length.
  destruct (convertTokens ts) as [outs|err|] eqn:E; cbn [bind] in Hrun;
    try discriminate Hrun.
  inversion Hrun; subst out.
  assert (Hwf : Forall (fun t => WellFormed (parts t)) ts).
  { eapply Forall_impl; [|exact (Tokens_wellformed _ _ _ Hts)].
    intros t [Ht _]. exact Ht. }
  destruct (convertTokens_length ts outs Hwf E) as [Hl Hall].
  pose proof (list_sum_bound _ 1000 ts Hall) as Hsum.
  rewrite (Tokens_concat json ts suffix Hts) at 1 2.
  rewrite !length_app. lia.
Qed.

Lemma X4_output_size_witness :
  length (lit "[1000,0.002]")
  <= length (lit "[1e3,2e-3]")
     + list_sum (map (fun a => Z.abs_nat (Number (arg 6 a)))
                  (matchesOf (lit "[1e3,2e-3]")))
  /\ length (lit "[1000,0.002]")
     <= length (lit "[1e3,2e-3]") + 1000 * length (matchesOf (lit "[1e3,2e-3]")).
Proof.
  apply (X4_output_size unit (lit "[1e3,2e-3]") heap0 (lit "[1000,0.002]")).
  vm_compute. reflexivity.
Defined.

(** ** The number a RangeError names *)

Lemma tokenResults_split a after : forall before ts i,
  tokenResults i ts = before ++ a :: after ->
  exists ts1 t ts2 j,
    ts = ts1 ++ t :: ts2 /\ before = tokenResults i ts1 /\ a = toExec j t.
Proof.
  induction before as [|b before IH]; intros [|t ts] i H;
    try discriminate H; cbn [tokenResults app] in H; inversion H; subst.
  - exists [], t, ts, i. auto.
  - destruct (IH _ _ H2) as (ts1 & t' & ts2 & j & -> & -> & ->).
    exists (t :: ts1), t', ts2, j. auto.
Qed.

Lemma convertTokens_first_failure t ts2 : forall ts1,
  Forall (fun t1 => ~ exponentExceeds (toExec 0 t1)) ts1 ->
  exponentExceeds (toExec 0 t) ->
  convertTokens (ts1 ++ t :: ts2)
  = Throw (RangeError (numExp (parts t) ++ lit " exponent exceeds maximum")).
Proof.
  induction 1 as [|t1 ts1 Hok _ IH]; intros Hex; cbn [app convertTokens].
  - destruct (convertToken_cases t) as [(_ & msg & E) | (Hno & _)];
      [|contradiction].
    unfold convertToken in *. cbv zeta in *.
    destruct ((Number (expPart (parts t)) >? 1000)
              || (Number (expPart (parts t)) <? -1000))%Z;
      [reflexivity | discriminate E].
  - destruct (convertToken_cases t1) as [(Hex1 & _) | (_ & r & ->)];
      [contradiction|].
    cbn [bind]. now rewrite (IH Hex).
Qed.

(** X5: when [a] is the first match whose exponent lies beyond the
    bound, a call without replacer throws the RangeError whose message is
    the text of that number followed by [ exponent exceeds maximum], and
    leaves the cursor at zero. *)
Theorem X5_first_exceeding_number (W : Type) (json : str) (h : Heap W)
    (before : list ExecArray) (a : ExecArray) (after : list ExecArray) :
  matchesOf json = before ++ a :: after ->
  Forall (fun b => ~ exponentExceeds b) before ->
  exponentExceeds a ->
  jsonReplaceExponentials (VString json) VUndefined h
  = (Throw (RangeError (arg 2 a ++ lit " exponent exceeds maximum")),
     mkHeap 0 (world h)).
Proof.
  intros Hms Hbefore Ha.
  destruct (Tokens_total json) as (ts & suffix & Hts).
  rewrite (matchesOf_tokens json ts suffix Hts) in Hms.
  destruct (tokenResults_split _ _ _ _ _ Hms)
    as (ts1 & t & ts2 & j & -> & -> & ->).
  rewrite (default_run json h _ suffix Hts).
  rewrite convertTokens_first_failure; [reflexivity | | exact Ha].
  apply Forall_forall. intros t1 Hin.
  rewrite Forall_forall in Hbefore.
  assert (Hin' : exists i, In (toExec i t1) (tokenResults 0 ts1)).
  { clear - Hin. generalize 0. induction ts1 as [|t' ts1 IH]; intros i;
      [contradiction|].
    destruct Hin as [-> | Hin].
    - exists i. now left.
    - destruct (IH Hin (i + length (matched t'))) as (k & Hk).
      exists k. now right. }
  destruct Hin' as (i & Hi). exact (Hbefore _ Hi).
Qed.

Lemma X5_first_exceeding_number_witness :
  jsonReplaceExponentials (VString (lit "[1e1,2e1001,3e-2000]")) VUndefined
    heap0
  = (Throw (RangeError (lit "2e1001" ++ lit " exponent exceeds maximum")),
     mkHeap 0 tt).
Proof.
  apply (X5_first_exceeding_number unit (lit "[1e1,2e1001,3e-2000]") heap0
           [mkExec 0 [Some (lit "[1e1"); Some (lit "["); Some (lit "1e1");
                      Some (lit ""); Some (lit "1"); None; Some (lit "1")]]
           (mkExec 4 [Some (lit ",2e1001"); Some (lit ","); Some (lit "2e1001");
                      Some (lit ""); Some (lit "2"); None; Some (lit "1001")])
           [mkExec 11 [Some (lit ",3e-2000"); Some (lit ",");
                       Some (lit "3e-2000"); Some (lit ""); Some (lit "3");
                       None; Some (lit "-2000")]]).
  - vm_compute. reflexivity.
  - constructor; [|constructor].
    unfold exponentExceeds. vm_compute. intros [H | H]; discriminate H.
  - unfold exponentExceeds. left. vm_compute. reflexivity.
Defined.

(** ** No number is missed *)

Lemma app_split_le {A} (a b c d : list A) :
  a ++ b = c ++ d -> length a <= length c ->
  exists m, c = a ++ m /\ b = m ++ d.
Proof.
  revert c. induction a as [|x a IH]; intros c E L.
  - exists c. auto.
  - destruct c as [|y c]; [simpl in L; lia|].
    cbn [app] in E. inversion E; subst.
    destruct (IH c H1) as (m & -> & ->); [simpl in L; lia|].
    exists m. auto.
Qed.

Lemma Tokens_cover s ts suffix :
  Tokens s ts suffix ->
  forall i pre tok post,
    s = pre ++ tok ++ post -> Skippable pre -> NumberExpText tok ->
    Exists (fun a =>
              index a + length (arg 1 a) <= i + length pre
                < index a + length (arg 0 a))
           (tokenResults i ts).
Proof.
  induction 1 as [s Hn | s t r ts suffix Hm Hts IH];
    intros i pre tok post Hs Hpre Htok.
  - exfalso. apply (proj2 (firstMatch_iff s)); [|exact Hn].
    exists pre, tok, post. auto.
  - destruct Htok as (p & Hwf & ->).
    destruct (scan_leftmost pre Hpre p post Hwf)
      as (t' & r' & Hm' & Hle & _).
    unfold firstMatch in Hm. rewrite Hs, Hm' in Hm.
    inversion Hm; subst t' r'. clear Hm.
    cbn [tokenResults].
    destruct (Nat.lt_ge_cases (length pre) (length (matched t)))
      as [Hin | Hout].
    + apply Exists_cons_hd.
      change (arg 1 (toExec i t)) with (prefix t).
      change (arg 0 (toExec i t)) with (matched t).
      cbn [toExec index]. lia.
    + apply Exists_cons_tl.
      pose proof (scan_split _ _ _ _ Hm') as Hsplit.
      destruct (app_split_le (matched t) r pre (numExp p ++ post))
        as (m & -> & ->); [now rewrite <- Hsplit | exact Hout |].
      rewrite length_app, Nat.add_assoc.
      apply (IH (i + length (matched t)) m (numExp p) post);
        [reflexivity | | now exists p].
      apply (Skippable_cancel (matched t)); [|exact Hpre].
      pose proof (scan_sound _ _ _ _ Hm') as [Hwft Hskip].
      unfold matched. apply Skippable_app; [exact Hskip|].
      apply Skippable_plain. now apply numExp_no_quote.
Qed.

(** X6: no number is missed.  Wherever a number in exponential notation
    stands in the input after whole string literals and characters other
    than a quote, its first character lies within the number of some
    match. *)
Theorem X6_all_numbers_matched (json pre tok post : str) :
  json = pre ++ tok ++ post -> Skippable pre -> NumberExpText tok ->
  Exists (fun a =>
            index a + length (arg 1 a) <= length pre
              < index a + length (arg 0 a))
         (matchesOf json).
Proof.
  intros Hs Hpre Htok.
  destruct (Tokens_total json) as (ts & suffix & Hts).
  rewrite (matchesOf_tokens json ts suffix Hts).
  exact (Tokens_cover json ts suffix Hts 0 pre tok post Hs Hpre Htok).
Qed.

Lemma X6_all_numbers_matched_witness :
  Exists (fun a =>
            index a + length (arg 1 a) <= length (jsonLit "['1e1',5e-2,")
              < index a + length (arg 0 a))
         (matchesOf (jsonLit "['1e1',5e-2,7E+3]")).
Proof.
  apply (X6_all_numbers_matched (jsonLit "['1e1',5e-2,7E+3]")
           (jsonLit "['1e1',5e-2,") (lit "7E+3") (lit "]")).
  - reflexivity.
  - apply (wholeLiterals_Skippable 13). vm_compute. reflexivity.
  - apply (scanned_NumberExpText _
             (mkParts (lit "") (lit "7") None "E"%char (lit "+3"))).
    vm_compute. reflexivity.
Defined.

(** ** Cutting the input outside of strings and numbers *)

Lemma ends_tail {A} (c : A) (x s : list A) :
  (x ++ s = [] \/ exists s0, x ++ s = s0 ++ [c]) ->
  s = [] \/ exists s0, s = s0 ++ [c].
Proof.
  intros H. induction s as [|y s' _] using rev_ind; [now left|]. right.
  destruct H as [E | (s0 & E)].
  - apply app_eq_nil in E. destruct E as [_ E]. now destruct s'.
  - rewrite app_assoc in E. apply app_inj_tail in E.
    destruct E as [_ ->]. now exists s'.
Qed.

Lemma scan_literal body r :
  StringChars body ->
  scan false ((dquote :: body ++ [dquote]) ++ r)
  = consPrefix (dquote :: body ++ [dquote]) (scan false r).
Proof.
  intros Hb. cbn [app]. rewrite scan_outside, scanNumber_quote.
  change (Ascii.eqb dquote dquote) with true.
  rewrite <- app_assoc. cbn [app].
  rewrite (scan_string_complete body Hb).
  apply (consPrefix_app [dquote]).
Qed.

Lemma consPrefix_nil x : consPrefix [] x = x.
Proof. destruct x as [[[pre p] r]|]; reflexivity. Qed.

Lemma scanSign_cons a tl :
  scanSign (a :: tl) = if Ascii.eqb a "-" then (lit "-", tl) else ([], a :: tl).
Proof. destruct a as [[] [] [] [] [] [] [] []]; reflexivity. Qed.

Lemma scanFrac_cons a tl :
  scanFrac (a :: tl)
  = if Ascii.eqb a "."
    then match scanDigits tl with
         | Some (f, r) => (Some f, r)
         | None => (None, a :: tl)
         end
    else (None, a :: tl).
Proof. destruct a as [[] [] [] [] [] [] [] []]; reflexivity. Qed.

Lemma numberChar_false a :
  numberChar a = false ->
  isDigit a = false /\ isExpMarker a = false /\ isExpSign a = false
  /\ Ascii.eqb a "." = false /\ Ascii.eqb a "-" = false.
Proof.
  destruct a as [[] [] [] [] [] [] [] []]; intros H;
    try discriminate H; repeat split.
Qed.

Section Cut.

(** The character before the cut, and the text after it. *)
Variable c : ascii.
Variable b : str.
Hypothesis cut : numberChar c = false.

Lemma cut_not_digit : isDigit c = false.
Proof. now destruct (numberChar_false c cut). Qed.

Lemma takeWhile_cut s0 :
  takeWhile isDigit ((s0 ++ [c]) ++ b) = takeWhile isDigit (s0 ++ [c])
  /\ dropWhile isDigit ((s0 ++ [c]) ++ b)
     = dropWhile isDigit (s0 ++ [c]) ++ b
  /\ exists s1, dropWhile isDigit (s0 ++ [c]) = s1 ++ [c].
Proof.
  induction s0 as [|a s0 (IH1 & IH2 & IH3)].
  - cbn [app takeWhile dropWhile]. rewrite cut_not_digit.
    repeat split. now exists [].
  - cbn [app takeWhile dropWhile]. destruct (isDigit a).
    + now rewrite IH1, IH2.
    + repeat split. now exists (a :: s0).
Qed.

Lemma scanDigits_cut s0 :
  scanDigits ((s0 ++ [c]) ++ b)
  = match scanDigits (s0 ++ [c]) with
    | Some (d, r) => Some (d, r ++ b)
    | None => None
    end
  /\ forall d r, scanDigits (s0 ++ [c]) = Some (d, r) ->
                 exists s1, r = s1 ++ [c].
Proof.
  unfold scanDigits.
  destruct (takeWhile_cut s0) as (-> & -> & s1 & Hs1).
  destruct (takeWhile isDigit (s0 ++ [c])); split; try reflexivity;
    intros d r E; inversion E; subst. now exists s1.
Qed.

Lemma scanSign_cut s0 :
  scanSign ((s0 ++ [c]) ++ b)
  = (fst (scanSign (s0 ++ [c])), snd (scanSign (s0 ++ [c])) ++ b)
  /\ exists s1, snd (scanSign (s0 ++ [c])) = s1 ++ [c].
Proof.
  destruct (numberChar_false c cut) as (_ & _ & _ & _ & Hminus).
  destruct s0 as [|a s0]; cbn [app]; rewrite !scanSign_cons.
  - rewrite Hminus. split; [reflexivity|]. now exists [].
  - destruct (Ascii.eqb a "-"); (split; [reflexivity|]); cbn [snd].
    + now exists s0.
    + now exists (a :: s0).
Qed.

Lemma scanFrac_cut s0 :
  scanFrac ((s0 ++ [c]) ++ b)
  = (fst (scanFrac (s0 ++ [c])), snd (scanFrac (s0 ++ [c])) ++ b)
  /\ exists s1, snd (scanFrac (s0 ++ [c])) = s1 ++ [c].
Proof.
  destruct (numberChar_false c cut) as (_ & _ & _ & Hdot & _).
  destruct s0 as [|a s0]; cbn [app]; rewrite !scanFrac_cons.
  - rewrite Hdot. split; [reflexivity|]. now exists [].
  - destruct (Ascii.eqb a ".").
    + destruct (scanDigits_cut s0) as [-> Hr].
      destruct (scanDigits (s0 ++ [c])) as [[f r]|]; cbn [fst snd].
      * split; [reflexivity|]. exact (Hr f r eq_refl).
      * split; [reflexivity|]. now exists (a :: s0).
    + split; [reflexivity|]. now exists (a :: s0).
Qed.

Lemma scanExp_cut s0 :
  scanExp ((s0 ++ [c]) ++ b)
  = match scanExp (s0 ++ [c]) with
    | Some (d, r) => Some (d, r ++ b)
    | None => None
    end.
Proof.
  destruct (numberChar_false c cut) as (Hd & _ & Hs & _).
  destruct s0 as [|a s0]; cbn [app]; unfold scanExp.
  - rewrite Hs. unfold scanDigits. cbn [takeWhile]. now rewrite Hd.
  - destruct (isExpSign a).
    + destruct (scanDigits_cut s0) as [-> _].
      destruct (scanDigits (s0 ++ [c])) as [[d r]|]; reflexivity.
    + change (a :: (s0 ++ [c]) ++ b) with (((a :: s0) ++ [c]) ++ b).
      destruct (scanDigits_cut (a :: s0)) as [-> _].
      cbn [app].
      destruct (scanDigits (a :: s0 ++ [c])) as [[d r]|]; reflexivity.
Qed.

Lemma scanNumber_cut s0 :
  scanNumber ((s0 ++ [c]) ++ b)
  = match scanNumber (s0 ++ [c]) with
    | Some (p, r) => Some (p, r ++ b)
    | None => None
    end.
Proof.
  destruct (numberChar_false c cut) as (_ & Hm & _).
  unfold scanNumber.
  destruct (scanSign_cut s0) as [-> (s1 & Hs1)].
  destruct (scanSign (s0 ++ [c])) as [sign r1]. cbn [fst snd] in *.
  subst r1.
  destruct (scanDigits_cut s1) as [-> Hr].
  destruct (scanDigits (s1 ++ [c])) as [[int r2]|]; [|reflexivity].
  destruct (Hr int r2 eq_refl) as (s2 & ->).
  destruct (scanFrac_cut s2) as [-> (s3 & Hs3)].
  destruct (scanFrac (s2 ++ [c])) as [frac r3]. cbn [fst snd] in *.
  subst r3.
  destruct s3 as [|m s3]; cbn [app].
  - now rewrite Hm.
  - destruct (isExpMarker m); [|reflexivity].
    rewrite scanExp_cut.
    destruct (scanExp (s3 ++ [c])) as [[e r]|]; reflexivity.
Qed.

Lemma scan_cut s :
  Skippable s ->
  (s = [] \/ exists s0, s = s0 ++ [c]) ->
  scan false (s ++ b)
  = match scan false s with
    | Some (t, r) => Some (t, r ++ b)
    | None => consPrefix s (scan false b)
    end.
Proof.
  induction 1 as [|a s Ha _ IH|l s Hl _ IH]; intros Hend.
  - cbn [app scan]. now rewrite consPrefix_nil.
  - rewrite (scan_outside (a :: s)), (scan_outside ((a :: s) ++ b)).
    destruct Hend as [E | (s0 & E)]; [discriminate E|].
    rewrite E, scanNumber_cut, <- E.
    destruct (scanNumber (a :: s)) as [[p r]|]; [reflexivity|].
    cbn [app]. apply Ascii.eqb_neq in Ha. rewrite Ha.
    rewrite IH by (apply (ends_tail c [a]); right; now exists s0).
    destruct (scan false s) as [[t r]|]; [reflexivity|].
    apply (consPrefix_app [a] s).
  - destruct Hl as (body & Hb & ->).
    rewrite <- app_assoc, !(scan_literal body _ Hb).
    rewrite IH
      by (apply (ends_tail c (dquote :: body ++ [dquote])); exact Hend).
    destruct (scan false s) as [[t r]|]; [reflexivity|].
    cbn [consPrefix]. apply consPrefix_app.
Qed.

Lemma Tokens_cut s tsA sufA tsB sufB :
  Tokens s tsA sufA -> Tokens b tsB sufB ->
  Skippable s -> (s = [] \/ exists s0, s = s0 ++ [c]) ->
  Tokens (s ++ b) (tsA ++ afterSkipped sufA tsB)
    (match tsB with [] => sufA ++ sufB | _ => sufB end).
Proof.
  intros HA HB. induction HA as [s Hn | s t r ts sufA Hm Hts IH];
    intros Hs Hend.
  - cbn [app]. unfold firstMatch in Hn.
    pose proof (scan_cut s Hs Hend) as E. rewrite Hn in E.
    inversion HB as [? HnB | ? tB rB tsB' ? HmB HtsB]; subst.
    + constructor. unfold firstMatch in *. now rewrite E, HnB.
    + cbn [afterSkipped]. apply Tokens_match with (r := rB); [|exact HtsB].
      unfold firstMatch in *. now rewrite E, HmB.
  - cbn [app]. apply Tokens_match with (r := r ++ b).
    + unfold firstMatch in *. now rewrite (scan_cut s Hs Hend), Hm.
    + pose proof (firstMatch_sound _ _ _ Hm) as (E & Hpre & Hwf).
      rewrite app_assoc in E.
      apply IH.
      * apply (Skippable_cancel (prefix t ++ numExp (parts t)));
          [|now rewrite <- E].
        apply Skippable_app; [exact Hpre|].
        apply Skippable_plain. now apply numExp_no_quote.
      * apply (ends_tail c (prefix t ++ numExp (parts t))).
        now rewrite <- E.
Qed.

End Cut.

Lemma convertTokens_cut sufA tsB sufB : forall tsA,
  (out <- convertTokens (tsA ++ afterSkipped sufA tsB) ;;
   Normal (out ++ match tsB with [] => sufA ++ sufB | _ => sufB end))
  = (x <- (out <- convertTokens tsA ;; Normal (out ++ sufA)) ;;
     y <- (out <- convertTokens tsB ;; Normal (out ++ sufB)) ;;
     Normal (x ++ y)).
Proof.
  induction tsA as [|t tsA IH].
  - cbn [app convertTokens bind]. destruct tsB as [|t tsB].
    + reflexivity.
    + cbn [afterSkipped convertTokens]. unfold convertToken.
      cbn [parts prefix]. cbv zeta.
      destruct ((Number (expPart (parts t)) >? 1000)
                || (Number (expPart (parts t)) <? -1000))%Z;
        cbn [bind]; [reflexivity|].
      destruct (convertTokens tsB); cbn [bind]; [|reflexivity|reflexivity].
      now rewrite <- !app_assoc.
  - cbn [app convertTokens].
    destruct (convertToken t) as [r|err|]; cbn [bind];
      [|reflexivity|reflexivity].
    destruct (convertTokens (tsA ++ afterSkipped sufA tsB)) as [o|err|];
      destruct (convertTokens tsA) as [oA|errA|]; cbn [bind] in IH |- *;
      try discriminate IH; try reflexivity;
      destruct (convertTokens tsB) as [oB|errB|]; cbn [bind] in IH |- *;
      try discriminate IH; try reflexivity; try exact IH.
    + inversion IH as [E]. now rewrite <- !app_assoc, E, <- !app_assoc.
Qed.

Lemma pure_cut (g : str -> str) sufA tsB sufB : forall tsA,
  concat (map (fun t => prefix t ++ g (numExp (parts t)))
            (tsA ++ afterSkipped sufA tsB))
    ++ match tsB with [] => sufA ++ sufB | _ => sufB end
  = (concat (map (fun t => prefix t ++ g (numExp (parts t))) tsA) ++ sufA)
      ++ concat (map (fun t => prefix t ++ g (numExp (parts t))) tsB)
      ++ sufB.
Proof.
  induction tsA as [|t tsA IH].
  - destruct tsB as [|t tsB]; cbn [app map concat afterSkipped parts prefix].
    + reflexivity.
    + now rewrite <- !app_assoc.
  - cbn [app map concat]. rewrite <- !app_assoc. f_equal. f_equal.
    rewrite <- app_assoc in IH. exact IH.
Qed.

(** X9: the input can be cut after a character that lies outside of the
    string literals and cannot belong to a number (no digit, sign, point
    or exponent marker): the result for the whole is the result for the
    first piece followed by the result for the second, with the default
    conversion and with a replacer without effects. *)
Theorem X9_cut_outside (W : Type) (a b : str) (c : ascii) (h : Heap W) :
  Skippable (a ++ [c]) -> numberChar c = false ->
  fst (jsonReplaceExponentials (VString ((a ++ [c]) ++ b)) VUndefined h)
  = (x <- fst (jsonReplaceExponentials (VString (a ++ [c])) VUndefined h) ;;
     y <- fst (jsonReplaceExponentials (VString b) VUndefined h) ;;
     Normal (x ++ y))
  /\ forall g : str -> str,
       fst (jsonReplaceExponentials (VString ((a ++ [c]) ++ b))
              (pureReplacer g) h)
       = (x <- fst (jsonReplaceExponentials (VString (a ++ [c]))
                      (pureReplacer g) h) ;;
          y <- fst (jsonReplaceExponentials (VString b) (pureReplacer g) h) ;;
          Normal (x ++ y)).
Proof.
  intros Hskip Hc.
  destruct (Tokens_total (a ++ [c])) as (tsA & sufA & HA).
  destruct (Tokens_total b) as (tsB & sufB & HB).
  pose proof (Tokens_cut c b Hc (a ++ [c]) tsA sufA tsB sufB HA HB Hskip
                (or_intror (ex_intro _ a eq_refl))) as HAB.
  split.
  - rewrite (default_run _ h _ _ HA), (default_run _ h _ _ HB),
      (default_run _ h _ _ HAB).
    cbn [fst]. apply convertTokens_cut.
  - intros g. unfold pureReplacer.
    rewrite (custom_run _ _ h _ _ HA), (custom_run _ _ h _ _ HB),
      (custom_run _ _ h _ _ HAB).
    rewrite !callReplacer_pure. cbn [bind fst]. f_equal.
    apply pure_cut.
Qed.

Lemma X9_cut_outside_witness :
  fst (jsonReplaceExponentials
         (VString ((jsonLit "{'a':1e2" ++ [","%char]) ++ jsonLit "'b':3e-1}"))
         VUndefined heap0)
  = (x <- fst (jsonReplaceExponentials
                 (VString (jsonLit "{'a':1e2" ++ [","%char])) VUndefined
                 heap0) ;;
     y <- fst (jsonReplaceExponentials (VString (jsonLit "'b':3e-1}"))
                 VUndefined heap0) ;;
     Normal (x ++ y))
  /\ forall g : str -> str,
       fst (jsonReplaceExponentials
              (VString ((jsonLit "{'a':1e2" ++ [","%char])
                          ++ jsonLit "'b':3e-1}"))
              (pureReplacer g) heap0)
       = (x <- fst (jsonReplaceExponentials
                      (VString (jsonLit "{'a':1e2" ++ [","%char]))
                      (pureReplacer g) heap0) ;;
          y <- fst (jsonReplaceExponentials (VString (jsonLit "'b':3e-1}"))
                      (pureReplacer g) heap0) ;;
          Normal (x ++ y)).
Proof.
  apply (X9_cut_outside unit (jsonLit "{'a':1e2") (jsonLit "'b':3e-1}")
           ","%char heap0).
  - apply (wholeLiterals_Skippable 10). vm_compute. reflexivity.
  - reflexivity.
Defined.

(** * The command *)

Module CommandFacts.

Import Command.

(** The conversion does not depend on the store it starts from. *)
Lemma convert_any_store {W} (s : str) (h : Heap W) :
  fst (jsonReplaceExponentials (VString s) VUndefined h) = convert s.
Proof.
  destruct (Tokens_total s) as (ts & suffix & Hts). unfold convert.
  now rewrite !(default_run s _ ts suffix Hts).
Qed.

Lemma convert_finishes (s : str) : convert s <> Unfinished.
Proof.
  destruct (Tokens_total s) as (ts & suffix & Hts). unfold convert.
  rewrite (default_run s _ ts suffix Hts). cbn [fst].
  destruct (convertTokens_cases ts)
    as [(_ & msg & ->) | (_ & reps & _ & ->)]; discriminate.
Qed.

Lemma run_data chunks events : forall a b c d e h,
  run (mkListeners a b c d e h) (map StdinData chunks ++ events)
  = run (mkListeners a b c (d ++ chunks) e h) events.
Proof.
  induction chunks as [|x chunks IH]; intros a b c d e h.
  - cbn [map app]. now rewrite app_nil_r.
  - cbn [map app run handle stdoutOnceError stdinOnceError stdinOnceEnd
           jsonData writeCallback store].
    rewrite IH, <- app_assoc. cbn [app].
    now destruct (run (mkListeners a b c (d ++ x :: chunks) e h) events).
Qed.

(** X11: run without option, the command writes nothing by itself and
    registers its listeners.  When the input then arrives in any number
    of chunks and stdout takes the write, the command writes the
    conversion of the concatenated chunks, once, and calls back with 0;
    when the conversion throws, the exception leaves the listener and
    nothing is written. *)
Theorem X11_command_converts_input (packageName packageVersion : str)
    (args : list str) (h : Heap unit) (chunks : list str) :
  length args <= 2 ->
  exists l,
    jsonReplaceExponentialsCmd packageName packageVersion args h
    = ([], Some l)
    /\ run l (map StdinData chunks ++ [StdinEnd None; WriteDone None])
       = match convert (concat chunks) with
         | Normal newJson => ([StdoutWrite newJson; Callback 0], Normal tt)
         | Throw e => ([], Throw e)
         | Unfinished => ([], Unfinished)
         end.
Proof.
  intros Hargs. eexists. split.
  - unfold jsonReplaceExponentialsCmd.
    replace (nth_error args 2) with (@None str)
      by (symmetry; apply nth_error_None; lia).
    replace (2 <? length args) with false
      by (symmetry; apply Nat.ltb_ge; lia).
    reflexivity.
  - rewrite run_data. cbn [app run handle stdinOnceEnd jsonData store].
    pose proof (convert_any_store (concat chunks) h) as E.
    destruct (jsonReplaceExponentials (VString (concat chunks)) VUndefined h)
      as [r h']. cbn [fst] in E. subst r.
    destruct (convert (concat chunks)); reflexivity.
Qed.

Lemma X11_command_converts_input_witness :
  exists l,
    jsonReplaceExponentialsCmd (lit "json-replace-exponentials") (lit "1.0.0")
      [lit "node"; lit "json-replace-exponentials"] heap0
    = ([], Some l)
    /\ run l (map StdinData [jsonLit "[1e2,'1e2"; jsonLit ",1e2',1e2]"]
                ++ [StdinEnd None; WriteDone None])
       = match convert (concat [jsonLit "[1e2,'1e2"; jsonLit ",1e2',1e2]"])
         with
         | Normal newJson => ([StdoutWrite newJson; Callback 0], Normal tt)
         | Throw e => ([], Throw e)
         | Unfinished => ([], Unfinished)
         end.
Proof.
  apply (X11_command_converts_input (lit "json-replace-exponentials")
           (lit "1.0.0") [lit "node"; lit "json-replace-exponentials"]
           heap0 [jsonLit "[1e2,'1e2"; jsonLit ",1e2',1e2]"]).
  simpl. lia.
Defined.


Lemma convert_range_error (s : str) :
  Exists exponentExceeds (matchesOf s) ->
  exists msg, convert s = Throw (RangeError msg).
Proof.
  intros Hex. destruct (Tokens_total s) as (ts & suffix & Hts).
  unfold convert. rewrite (default_run s _ ts suffix Hts). cbn [fst].
  rewrite (matchesOf_tokens s ts suffix Hts) in Hex.
  rewrite (tokenResults_Exists exponentExceeds
             (fun t => exponentExceeds (toExec 0 t))) in Hex
    by (intros; reflexivity).
  destruct (convertTokens_cases ts)
    as [(_ & msg & ->) | (Hno & _)]; [|contradiction].
  cbn [bind]. eauto.
Qed.

Lemma started (packageName packageVersion : str) (args : list str)
    (h : Heap unit) :
  length args <= 2 ->
  jsonReplaceExponentialsCmd packageName packageVersion args h
  = ([], Some (mkListeners true true true [] false h)).
Proof.
  intros Hargs. unfold jsonReplaceExponentialsCmd.
  replace (nth_error args 2) with (@None str)
    by (symmetry; apply nth_error_None; lia).
  replace (2 <? length args) with false
    by (symmetry; apply Nat.ltb_ge; lia).
  reflexivity.
Qed.

(** X12: an exponent beyond the bound in the input of the command is not
    reported through the callback: the listener of 'end' throws the
    RangeError of the module, nothing having been written to stdout or to
    stderr, whatever would have happened afterwards. *)
Theorem X12_command_range_error_uncaught (packageName packageVersion : str)
    (args : list str) (h : Heap unit) (chunks : list str)
    (writeThrows : option str) (events : list Event) :
  length args <= 2 ->
  Exists exponentExceeds (matchesOf (concat chunks)) ->
  exists l msg,
    jsonReplaceExponentialsCmd packageName packageVersion args h
    = ([], Some l)
    /\ run l (map StdinData chunks ++ StdinEnd writeThrows :: events)
       = ([], Throw (RangeError msg)).
Proof.
  intros Hargs Hex.
  destruct (convert_range_error _ Hex) as (msg & Hmsg).
  eexists. exists msg. split; [now apply started|].
  rewrite run_data. cbn [app run handle stdinOnceEnd jsonData store].
  pose proof (convert_any_store (concat chunks) h) as E.
  destruct (jsonReplaceExponentials (VString (concat chunks)) VUndefined h)
    as [r h']. cbn [fst] in E. subst r. now rewrite Hmsg.
Qed.

Lemma X12_command_range_error_uncaught_witness :
  exists l msg,
    jsonReplaceExponentialsCmd (lit "json-replace-exponentials") (lit "1.0.0")
      [lit "node"; lit "json-replace-exponentials"] heap0
    = ([], Some l)
    /\ run l (map StdinData [lit "[1e2,1e10"; lit "01]"]
                ++ StdinEnd None :: [WriteDone None])
       = ([], Throw (RangeError msg)).
Proof.
  apply (X12_command_range_error_uncaught (lit "json-replace-exponentials")
           (lit "1.0.0") [lit "node"; lit "json-replace-exponentials"]
           heap0 [lit "[1e2,1e10"; lit "01]"] None [WriteDone None]).
  - simpl. lia.
  - vm_compute. apply Exists_cons_tl, Exists_cons_hd. left. reflexivity.
Defined.


Lemma in_onWriteError err ef :
  In ef (onWriteError err) ->
  (forall x, ef <> StdoutWrite x) /\ ef <> Callback 0.
Proof.
  intros [<- | [<- | []]]; split; try discriminate; intros x; discriminate.
Qed.

(** Once the listener of 'end' has run, nothing more is written to
    stdout, and the exit code 0 can only come from the function that was
    given to [stdout.write]. *)
Lemma run_after_end : forall events l effects r,
  stdinOnceEnd l = false ->
  run l events = (effects, r) ->
  (forall x, ~ In (StdoutWrite x) effects)
  /\ (In (Callback 0) effects ->
      writeCallback l = true /\ In (WriteDone None) events).
Proof.
  induction events as [|ev events IH]; intros l effects r Hend Hrun.
  - cbn [run] in Hrun. inversion Hrun; subst. split; [intros x []|intros []].
  - destruct l as [a b c d e h]. cbn [stdinOnceEnd] in Hend. subst c.
    cbn [run] in Hrun.
    destruct ev as [err|data|wt|err|err];
      cbn [handle stdoutOnceError stdinOnceError stdinOnceEnd jsonData
             writeCallback store] in Hrun.
    + destruct b;
        match type of Hrun with
        | (let (_, _) := run ?l' _ in _) = _ =>
          destruct (run l' events) as [effs r'] eqn:E;
          destruct (IH l' effs r' eq_refl E) as [Hw Hc]
        end; inversion Hrun; subst; cbn [writeCallback] in *; split.
      * intros x [H | [H | H]]; try discriminate H. exact (Hw x H).
      * intros [H | [H | H]]; try discriminate H.
        destruct (Hc H). split; [assumption | now right].
      * exact Hw.
      * intros H. destruct (Hc H). split; [assumption | now right].
    + match type of Hrun with
      | (let (_, _) := run ?l' _ in _) = _ =>
        destruct (run l' events) as [effs r'] eqn:E;
        destruct (IH l' effs r' eq_refl E) as [Hw Hc]
      end; inversion Hrun; subst; cbn [writeCallback] in *; split.
      * exact Hw.
      * intros H. destruct (Hc H). split; [assumption | now right].
    + match type of Hrun with
      | (let (_, _) := run ?l' _ in _) = _ =>
        destruct (run l' events) as [effs r'] eqn:E;
        destruct (IH l' effs r' eq_refl E) as [Hw Hc]
      end; inversion Hrun; subst; cbn [writeCallback] in *; split.
      * exact Hw.
      * intros H. destruct (Hc H). split; [assumption | now right].
    + destruct a;
        match type of Hrun with
        | (let (_, _) := run ?l' _ in _) = _ =>
          destruct (run l' events) as [effs r'] eqn:E;
          destruct (IH l' effs r' eq_refl E) as [Hw Hc]
        end; inversion Hrun; subst; cbn [writeCallback] in *; split.
      * intros x [H | [H | H]]; try discriminate H. exact (Hw x H).
      * intros [H | [H | H]]; try discriminate H.
        destruct (Hc H). split; [assumption | now right].
      * exact Hw.
      * intros H. destruct (Hc H). split; [assumption | now right].
    + destruct e;
        match type of Hrun with
        | (let (_, _) := run ?l' _ in _) = _ =>
          destruct (run l' events) as [effs r'] eqn:E;
          destruct (IH l' effs r' eq_refl E) as [Hw Hc]
        end; inversion Hrun; subst; cbn [writeCallback] in *; split.
      * intros x H. apply in_app_or in H. destruct H as [H | H];
          [|exact (Hw x H)].
        destruct err; [contradiction|].
        destruct H as [H | H]; [discriminate H | contradiction].
      * intros H. apply in_app_or in H. destruct H as [H | H].
        -- destruct err as [err|]; [contradiction|].
           split; [reflexivity | now left].
        -- destruct (Hc H) as [Hf _]. discriminate Hf.
      * exact Hw.
      * intros H. destruct (Hc H) as [Hf _]. discriminate Hf.
Qed.


(** Until 'end' occurs the command only collects its input: what is
    written to stdout is the conversion of all the chunks received before
    the first 'end'. *)
Lemma run_before_end : forall events l effects r,
  stdinOnceEnd l = true -> writeCallback l = false ->
  run l events = (effects, r) ->
  (forall x, In (StdoutWrite x) effects ->
     exists before after,
       events = before ++ StdinEnd None :: after
       /\ existsb isEnd before = false
       /\ convert (concat (jsonData l ++ dataOf before)) = Normal x)
  /\ (In (Callback 0) effects ->
      (exists x, In (StdoutWrite x) effects)
      /\ In (WriteDone None) events).
Proof.
  induction events as [|ev events IH]; intros l effects r Hend Hcb Hrun.
  - cbn [run] in Hrun. inversion Hrun; subst. split; [intros x []|intros []].
  - destruct l as [a b c d e h]. cbn [stdinOnceEnd writeCallback] in Hend, Hcb.
    subst c e. cbn [run] in Hrun.
    destruct ev as [err|data|wt|err|err];
      cbn [handle stdoutOnceError stdinOnceError stdinOnceEnd jsonData
             writeCallback store] in Hrun.
    + destruct b;
        match type of Hrun with
        | (let (_, _) := run ?l' _ in _) = _ =>
          destruct (run l' events) as [effs r'] eqn:E;
          destruct (IH l' effs r' eq_refl eq_refl E) as [Hw Hc]
        end; inversion Hrun; subst; cbn [jsonData] in *; split.
      * intros x [H | [H | H]]; try discriminate H.
        destruct (Hw x H) as (before & after & -> & Hb & Hx).
        exists (StdinError err :: before), after. auto.
      * intros [H | [H | H]]; try discriminate H.
        destruct (Hc H) as [(x & Hx) Hd].
        split; [exists x; now right; right | now right].
      * intros x H.
        destruct (Hw x H) as (before & after & -> & Hb & Hx).
        exists (StdinError err :: before), after. auto.
      * intros H. destruct (Hc H) as [(x & Hx) Hd].
        split; [now exists x | now right].
    + match type of Hrun with
      | (let (_, _) := run ?l' _ in _) = _ =>
        destruct (run l' events) as [effs r'] eqn:E;
        destruct (IH l' effs r' eq_refl eq_refl E) as [Hw Hc]
      end; inversion Hrun; subst; cbn [jsonData] in *; split.
      * intros x H.
        destruct (Hw x H) as (before & after & -> & Hb & Hx).
        exists (StdinData data :: before), after.
        split; [reflexivity|]. split; [exact Hb|].
        cbn [dataOf flat_map app]. fold (dataOf before).
        now rewrite <- app_assoc in Hx.
      * intros H. destruct (Hc H) as [(x & Hx) Hd].
        split; [now exists x | now right].
    + pose proof (convert_any_store (concat d) h) as Ec.
      destruct (jsonReplaceExponentials (VString (concat d)) VUndefined h)
        as [res h']. cbn [fst] in Ec. subst res.
      destruct (convert (concat d)) as [newJson|err|] eqn:Econv;
        [|inversion Hrun; subst; split; [intros x []|intros []]
         |inversion Hrun; subst; split; [intros x []|intros []]].
      destruct wt as [errWrite|];
        match type of Hrun with
        | (let (_, _) := run ?l' _ in _) = _ =>
          destruct (run l' events) as [effs r'] eqn:E;
          destruct (run_after_end events l' effs r' eq_refl E) as [Hw Hc]
        end; inversion Hrun; subst; cbn [writeCallback] in *; split.
      * intros x [H | [H | H]]; try discriminate H. destruct (Hw x H).
      * intros [H | [H | H]]; try discriminate H.
        destruct (Hc H) as [Hf _]. discriminate Hf.
      * intros x [H | H]; [|destruct (Hw x H)].
        inversion H; subst x. exists [], events.
        split; [reflexivity|]. split; [reflexivity|].
        cbn [dataOf flat_map]. now rewrite app_nil_r.
      * intros [H | H]; [discriminate H|].
        destruct (Hc H) as [_ Hd].
        split; [exists newJson; now left | now right].
    + destruct a;
        match type of Hrun with
        | (let (_, _) := run ?l' _ in _) = _ =>
          destruct (run l' events) as [effs r'] eqn:E;
          destruct (IH l' effs r' eq_refl eq_refl E) as [Hw Hc]
        end; inversion Hrun; subst; cbn [jsonData] in *; split.
      * intros x [H | [H | H]]; try discriminate H.
        destruct (Hw x H) as (before & after & -> & Hb & Hx).
        exists (StdoutError err :: before), after. auto.
      * intros [H | [H | H]]; try discriminate H.
        destruct (Hc H) as [(x & Hx) Hd].
        split; [exists x; now right; right | now right].
      * intros x H.
        destruct (Hw x H) as (before & after & -> & Hb & Hx).
        exists (StdoutError err :: before), after. auto.
      * intros H. destruct (Hc H) as [(x & Hx) Hd].
        split; [now exists x | now right].
    + match type of Hrun with
      | (let (_, _) := run ?l' _ in _) = _ =>
        destruct (run l' events) as [effs r'] eqn:E;
        destruct (IH l' effs r' eq_refl eq_refl E) as [Hw Hc]
      end; inversion Hrun; subst; cbn [jsonData] in *; split.
      * intros x H.
        destruct (Hw x H) as (before & after & -> & Hb & Hx).
        exists (WriteDone err :: before), after. auto.
      * intros H. destruct (Hc H) as [(x & Hx) Hd].
        split; [now exists x | now right].
Qed.

(** X13: whatever the events and their order, the command writes to
    stdout nothing but the conversion of all the chunks received before
    the first 'end', and only where the call of [stdout.write] returns; it
    calls back with 0 only after that write, when stdout has called the
    function it was given without an error. *)
Theorem X13_command_success_sound (packageName packageVersion : str)
    (args : list str) (h : Heap unit) (events : list Event) :
  length args <= 2 ->
  exists l,
    jsonReplaceExponentialsCmd packageName packageVersion args h
    = ([], Some l)
    /\ (forall x, In (StdoutWrite x) (fst (run l events)) ->
          exists before after,
            events = before ++ StdinEnd None :: after
            /\ existsb isEnd before = false
            /\ convert (concat (dataOf before)) = Normal x)
    /\ (In (Callback 0) (fst (run l events)) ->
        (exists x, In (StdoutWrite x) (fst (run l events)))
        /\ In (WriteDone None) events).
Proof.
  intros Hargs. eexists. split; [now apply started|].
  destruct (run (mkListeners true true true [] false h) events)
    as [effects r] eqn:E.
  cbn [fst].
  exact (run_before_end events (mkListeners true true true [] false h)
           effects r eq_refl eq_refl E).
Qed.

Lemma X13_command_success_sound_witness :
  exists l,
    jsonReplaceExponentialsCmd (lit "json-replace-exponentials") (lit "1.0.0")
      [lit "node"; lit "json-replace-exponentials"] heap0
    = ([], Some l)
    /\ (forall x,
          In (StdoutWrite x)
            (fst (run l [StdinData (lit "[1e"); StdinData (lit "2]");
                         StdinEnd None; WriteDone None])) ->
          exists before after,
            [StdinData (lit "[1e"); StdinData (lit "2]"); StdinEnd None;
             WriteDone None]
            = before ++ StdinEnd None :: after
            /\ existsb isEnd before = false
            /\ convert (concat (dataOf before)) = Normal x)
    /\ (In (Callback 0)
           (fst (run l [StdinData (lit "[1e"); StdinData (lit "2]");
                        StdinEnd None; WriteDone None])) ->
        (exists x,
           In (StdoutWrite x)
             (fst (run l [StdinData (lit "[1e"); StdinData (lit "2]");
                          StdinEnd None; WriteDone None])))
        /\ In (WriteDone None)
             [StdinData (lit "[1e"); StdinData (lit "2]"); StdinEnd None;
              WriteDone None]).
Proof.
  apply (X13_command_success_sound (lit "json-replace-exponentials")
           (lit "1.0.0") [lit "node"; lit "json-replace-exponentials"]
           heap0
           [StdinData (lit "[1e"); StdinData (lit "2]"); StdinEnd None;
            WriteDone None]).
  simpl. lia.
Defined.

(** ** The tests of the command

    The expectations of the command's own tests; [Error: test] is what
    the error of the tests prints as. *)

Example test_unexpected_args :
  jsonReplaceExponentialsCmd (lit "json-replace-exponentials") (lit "1.0.0")
    [lit "node"; lit "json-replace-exponentials"; lit "hi"] heap0
  = ([StderrWrite (lit "Error: Unexpected arguments." ++ newline ++ usage);
      NextTick 1], None).
Proof. reflexivity. Qed.

Example test_help :
  jsonReplaceExponentialsCmd (lit "json-replace-exponentials") (lit "1.0.0")
    [lit "node"; lit "json-replace-exponentials"; lit "--help"] heap0
  = ([StdoutWrite usage; NextTick 0], None).
Proof. reflexivity. Qed.

Example test_version :
  jsonReplaceExponentialsCmd (lit "json-replace-exponentials") (lit "1.0.0")
    [lit "node"; lit "json-replace-exponentials"; lit "--version"] heap0
  = ([StdoutWrite (lit "json-replace-exponentials 1.0.0" ++ newline);
      NextTick 0], None).
Proof. reflexivity. Qed.

Example test_transformed_json :
  run (mkListeners true true true [] false heap0)
    [StdinData (lit "1e2"); StdinEnd None; WriteDone None]
  = ([StdoutWrite (lit "100"); Callback 0], Normal tt).
Proof. reflexivity. Qed.

Example test_split_input :
  run (mkListeners true true true [] false heap0)
    [StdinData (jsonLit "[1e2,'1e2"); StdinData (jsonLit ",1e2',1e2]");
     StdinEnd None; WriteDone None]
  = ([StdoutWrite (jsonLit "[100,'1e2,1e2',100]"); Callback 0], Normal tt).
Proof. reflexivity. Qed.

Example test_stdin_read_error :
  run (mkListeners true true true [] false heap0)
    [StdinError (lit "Error: test")]
  = ([StderrWrite (lit "Error reading from stdin: Error: test" ++ newline);
      Callback 1], Normal tt).
Proof. reflexivity. Qed.

Example test_stdout_write_error :
  run (mkListeners true true true [] false heap0)
    [StdinData (lit "{}"); StdinEnd None;
     WriteDone (Some (lit "Error: test")); StdoutError (lit "Error: test")]
  = ([StdoutWrite (lit "{}");
      StderrWrite (lit "Error writing to stdout: Error: test" ++ newline);
      Callback 1], Normal tt).
Proof. reflexivity. Qed.

Example test_sync_stdout_write_error :
  run (mkListeners true true true [] false heap0)
    [StdinData (lit "{}"); StdinEnd (Some (lit "Error: test"))]
  = ([StderrWrite (lit "Error writing to stdout: Error: test" ++ newline);
      Callback 1], Normal tt).
Proof. reflexivity. Qed.

End CommandFacts.
